(** * Gomoku engine: board, forced-move heuristic, search entry point and
      front-end move parser, embedded from the C++ sources.

    Layout of the development:
    - [Types]         : include/types.hpp
    - [BoardImpl]     : src/board.cpp (class [Board])
    - [HeuristicImpl] : src/heuristic.cpp, the line counts, [evaluate_line]
                        and the two forced-move scans
    - [MCTSImpl]      : src/mcts.cpp, [rollout], [select_best_move] and the
                        budget loop of [search]; selection, expansion and
                        backpropagation use floating-point UCT values and
                        are parameters of the section
    - [UCI]           : src/uci.cpp, [UCIEngine::parse_move] with [std::stoi]
    - [Statements]    : the predicates and sample positions the theorems
                        are stated with
    followed by the lemmas and the theorems.

    Conventions: [int8_t] and [int] values are integers of [Z], with the
    wrap-around of the narrowing conversions written out ([wrap8]); a
    [std::bitset<225>] is the integer of its bits; the cell array is a list
    indexed with stdpp's lookup and insert; a [std::vector] is a list whose
    last element is the back; [while] loops run on fuel that is shown to
    suffice. *)

From Stdlib Require Import ZArith List Bool Lia String Ascii QArith Sorted.
From stdpp Require Import base list list_numbers.
From Stdlib Require Import PrimFloat.
From Stdlib Require FloatOps SpecFloat Uint63.

Import ListNotations.
Local Open Scope Z_scope.

(* ===================================================================== *)
(** ** include/types.hpp *)
(* ===================================================================== *)

Module Types.

Definition BOARD_SIZE : Z := 15.
Definition BOARD_CELLS : Z := BOARD_SIZE * BOARD_SIZE.

Definition EMPTY : Z := 0.
Definition BLACK : Z := 1.
Definition WHITE : Z := -1.

Definition LEGAL_RADIUS : Z := 2.

(** [DIRECTIONS]: horizontal, vertical, diagonal, anti-diagonal. *)
Definition DIRECTIONS : list (Z * Z) := [(1, 0); (0, 1); (1, 1); (1, -1)].

(** Conversion of an [int] to [int8_t] (two's complement wrap-around). *)
Definition wrap8 (v : Z) : Z := (v + 128) mod 256 - 128.

(** Unary minus on an [int8_t]: promoted to [int], negated, stored back. *)
Definition neg8 (v : Z) : Z := wrap8 (- v).

Definition to_index (x y : Z) : Z := y * BOARD_SIZE + x.

(** C++ [%] and [/] truncate toward zero: [Z.rem] and [Z.quot]. *)
Definition to_x (idx : Z) : Z := Z.rem idx BOARD_SIZE.
Definition to_y (idx : Z) : Z := Z.quot idx BOARD_SIZE.

Definition in_bounds (x y : Z) : bool :=
  (0 <=? x) && (x <? BOARD_SIZE) && (0 <=? y) && (y <? BOARD_SIZE).

(** [struct Move]: two [int8_t] coordinates. *)
Record Move : Type := MkMove { Move_x : Z; Move_y : Z }.

(** [Move(int x_, int y_)]: both arguments are cast to [int8_t]. *)
Definition Move_of (x_ y_ : Z) : Move := MkMove (wrap8 x_) (wrap8 y_).

(** [Move()]: the invalid sentinel. *)
Definition Move_invalid : Move := MkMove (-1) (-1).

Definition is_valid (m : Move) : bool := (0 <=? Move_x m) && (0 <=? Move_y m).

Definition Move_to_index (m : Move) : Z := to_index (Move_x m) (Move_y m).

(** [Move::operator==]. *)
Definition Move_eqb (a b : Move) : bool :=
  (Move_x a =? Move_x b) && (Move_y a =? Move_y b).

Inductive GameResult : Type := ONGOING | BLACK_WIN | WHITE_WIN | DRAW.

(** [BitBoard = std::bitset<225>], as the integer whose binary digits are
    the bits of the set: [operator[]] is [Z.testbit], [set(i)] is
    [Z.setbit], [reset(i)] is [Z.clearbit], [reset()] yields [0] and
    [none()] compares with [0]. *)
Definition BitBoard : Type := Z.

(** [std::bitset::count()] over the 225 positions of the set. *)
Definition popcount (bs : BitBoard) : nat :=
  length (List.filter (Z.testbit bs) (seqZ 0 BOARD_CELLS)).

End Types.
Export Types.

(* ===================================================================== *)
(** ** src/board.cpp *)
(* ===================================================================== *)

Module BoardImpl.

Record Board : Type := MkBoard {
  cells_ : list Z;               (* std::array<int8_t, 225> *)
  occupied_mask_ : BitBoard;
  black_mask_ : BitBoard;
  white_mask_ : BitBoard;
  legal_mask_ : BitBoard;
  current_player_ : Z;           (* int8_t *)
  is_terminal_ : bool;
  result_ : GameResult;
  history_ : list Move           (* std::vector<Move>, back = last element *)
}.

(** [cells_[idx]].  The sources only index the array behind an [in_bounds]
    test; outside the array the model reads [EMPTY]. *)
Definition cell_at (cells : list Z) (idx : Z) : Z :=
  default EMPTY (cells !! Z.to_nat idx).

(** [cells_[idx] = v]. *)
Definition cell_set (cells : list Z) (idx : Z) (v : Z) : list Z :=
  <[Z.to_nat idx := v]> cells.

Definition reset : Board :=
  {| cells_ := replicate (Z.to_nat BOARD_CELLS) EMPTY;
     occupied_mask_ := 0;
     black_mask_ := 0;
     white_mask_ := 0;
     legal_mask_ := 0;
     current_player_ := BLACK;
     is_terminal_ := false;
     result_ := ONGOING;
     history_ := [] |}.

(** Trivial accessors. *)
Definition get (b : Board) (x y : Z) : Z := cell_at (cells_ b) (to_index x y).
Definition is_empty (b : Board) (x y : Z) : bool := get b x y =? EMPTY.
Definition is_terminal (b : Board) : bool := is_terminal_ b.
Definition get_result (b : Board) : GameResult := result_ b.
Definition current_player (b : Board) : Z := current_player_ b.
Definition get_history (b : Board) : list Move := history_ b.
Definition move_count (b : Board) : Z := Z.of_nat (length (history_ b)).

Definition get_winner (b : Board) : Z :=
  match result_ b with
  | BLACK_WIN => BLACK
  | WHITE_WIN => WHITE
  | _ => EMPTY
  end.

(** The pairs [(dx, dy)] in the order of the nested loops
    [for dy in -R..R: for dx in -R..R]. *)
Definition radius_offsets : list (Z * Z) :=
  flat_map (fun dy => map (fun dx => (dx, dy)) (seqZ (- LEGAL_RADIUS) (2 * LEGAL_RADIUS + 1)))
           (seqZ (- LEGAL_RADIUS) (2 * LEGAL_RADIUS + 1)).

(** The body of the double loop shared by [update_legal_mask] and the
    rebuild in [unmake_move], at offset [d = (dx, dy)]. *)
Definition dilate_step (occupied : BitBoard) (mx my : Z) (legal : BitBoard) (d : Z * Z)
    : BitBoard :=
  let nx := mx + fst d in
  let ny := my + snd d in
  if in_bounds nx ny && negb (Z.testbit occupied (to_index nx ny))
  then Z.setbit legal (to_index nx ny)
  else legal.

(** The double loop: set the legal bit of every in-bounds, unoccupied cell
    of the 5x5 window around [(mx, my)]. *)
Definition dilate (occupied : BitBoard) (mx my : Z) (legal : BitBoard) : BitBoard :=
  fold_left (dilate_step occupied mx my) radius_offsets legal.

(** [Board::update_legal_mask]; reads [history_], [occupied_mask_] and
    [legal_mask_] of the board it is called on. *)
Definition update_legal_mask (b : Board) (move : Move) : BitBoard :=
  let legal0 :=
    if match history_ b with [] => true | _ => false end && (legal_mask_ b =? 0)
    then Z.setbit (legal_mask_ b) (Move_to_index move)
    else legal_mask_ b in
  dilate (occupied_mask_ b) (Move_x move) (Move_y move) legal0.

(** The [while] loop of [Board::count_direction], started at [(nx, ny)]
    with [count] stones counted so far.  Every step moves by [(dx, dy)], so
    the loop leaves the board after at most [BOARD_SIZE] steps when
    [(dx, dy)] is not [(0, 0)]; [fuel] bounds the number of steps, and
    [BOARD_SIZE] of it is enough ([count_direction_fuel_enough]). *)
Fixpoint count_direction_loop (fuel : nat) (cells : list Z)
    (nx ny dx dy player count : Z) : Z :=
  match fuel with
  | O => count
  | S fuel' =>
      if in_bounds nx ny && (cell_at cells (to_index nx ny) =? player)
      then count_direction_loop fuel' cells (nx + dx) (ny + dy) dx dy player (count + 1)
      else count
  end.

Definition count_direction (b : Board) (x y dx dy player : Z) : Z :=
  count_direction_loop (Z.to_nat BOARD_SIZE) (cells_ b) (x + dx) (y + dy) dx dy player 0.

(** [Board::check_win]: the [for] over [DIRECTIONS] returns [true] at the
    first direction whose count reaches 5. *)
Definition check_win (b : Board) (move : Move) : bool :=
  let x := Move_x move in
  let y := Move_y move in
  let player := cell_at (cells_ b) (Move_to_index move) in
  existsb
    (fun d : Z * Z =>
       let count := 1 + count_direction b x y (fst d) (snd d) player in
       let count := count + count_direction b x y (- fst d) (- snd d) player in
       5 <=? count)
    DIRECTIONS.

Definition make_move (b : Board) (move : Move) : Board :=
  let idx := Move_to_index move in
  (* Place stone *)
  let b1 :=
    {| cells_ := cell_set (cells_ b) idx (current_player_ b);
       occupied_mask_ := Z.setbit (occupied_mask_ b) idx;
       black_mask_ := if current_player_ b =? BLACK
                      then Z.setbit (black_mask_ b) idx else black_mask_ b;
       white_mask_ := if current_player_ b =? BLACK
                      then white_mask_ b else Z.setbit (white_mask_ b) idx;
       legal_mask_ := legal_mask_ b;
       current_player_ := current_player_ b;
       is_terminal_ := is_terminal_ b;
       result_ := result_ b;
       history_ := history_ b |} in
  (* Update legal mask, remove this square, record history *)
  let legal := Z.clearbit (update_legal_mask b1 move) idx in
  let b2 :=
    {| cells_ := cells_ b1;
       occupied_mask_ := occupied_mask_ b1;
       black_mask_ := black_mask_ b1;
       white_mask_ := white_mask_ b1;
       legal_mask_ := legal;
       current_player_ := current_player_ b1;
       is_terminal_ := is_terminal_ b1;
       result_ := result_ b1;
       history_ := history_ b1 ++ [move] |} in
  (* Check for win, then for draw *)
  let won := check_win b2 move in
  let drawn := legal =? 0 in
  {| cells_ := cells_ b2;
     occupied_mask_ := occupied_mask_ b2;
     black_mask_ := black_mask_ b2;
     white_mask_ := white_mask_ b2;
     legal_mask_ := legal_mask_ b2;
     current_player_ := neg8 (current_player_ b2);
     is_terminal_ := if won then true else if drawn then true else is_terminal_ b2;
     result_ := if won
                then (if current_player_ b2 =? BLACK then BLACK_WIN else WHITE_WIN)
                else if drawn then DRAW else result_ b2;
     history_ := history_ b2 |}.

(** The rebuild loop of [unmake_move] over the remaining history. *)
Definition rebuild_step (occupied : BitBoard) (legal : BitBoard) (m : Move) : BitBoard :=
  dilate occupied (Move_x m) (Move_y m) legal.

Definition rebuild_legal (occupied : BitBoard) (hist : list Move) : BitBoard :=
  fold_left (rebuild_step occupied) hist 0.

Definition unmake_move (b : Board) (move : Move) : Board :=
  match history_ b with
  | [] => b
  | _ :: _ =>
      let idx := Move_to_index move in
      let occupied := Z.clearbit (occupied_mask_ b) idx in
      let hist := removelast (history_ b) in
      {| cells_ := cell_set (cells_ b) idx EMPTY;
         occupied_mask_ := occupied;
         black_mask_ := Z.clearbit (black_mask_ b) idx;
         white_mask_ := Z.clearbit (white_mask_ b) idx;
         legal_mask_ :=
           match hist with
           | [] => Z.setbit 0 (to_index 7 7)
           | _ :: _ => rebuild_legal occupied hist
           end;
         current_player_ := neg8 (current_player_ b);
         is_terminal_ := false;
         result_ := ONGOING;
         history_ := hist |}
  end.

(** [Board::is_legal(int, int)]. *)
Definition is_legal (b : Board) (x y : Z) : bool :=
  if negb (in_bounds x y) then false
  else
    let idx := to_index x y in
    match history_ b with
    | [] => is_empty b x y
    | _ :: _ => Z.testbit (legal_mask_ b) idx && negb (Z.testbit (occupied_mask_ b) idx)
    end.

(** [Board::is_legal(const Move&)]. *)
Definition is_legal_move (b : Board) (move : Move) : bool :=
  is_legal b (Move_x move) (Move_y move).

Definition get_legal_moves (b : Board) : list Move :=
  match history_ b with
  | [] => [Move_of 7 7]
  | _ :: _ =>
      map (fun idx => Move_of (to_x idx) (to_y idx))
          (List.filter (Z.testbit (legal_mask_ b)) (seqZ 0 BOARD_CELLS))
  end.

Definition count_legal_moves (b : Board) : Z :=
  match history_ b with
  | [] => 1
  | _ :: _ => Z.of_nat (popcount (legal_mask_ b))
  end.

(** Applying a list of moves in order, and undoing a list of moves in the
    order given. *)
Definition make_moves (b : Board) (ms : list Move) : Board := fold_left make_move ms b.
Definition unmake_moves (b : Board) (ms : list Move) : Board := fold_left unmake_move ms b.

(** The decimal text of an integer, as [operator<<(int)] and
    [std::to_string] write it; twenty digits cover every 64-bit value. *)
Fixpoint decimal_digits (fuel : nat) (v : Z) (acc : list ascii) : list ascii :=
  match fuel with
  | O => acc
  | S fuel' =>
      let acc' := ascii_of_nat (Z.to_nat (48 + v mod 10)) :: acc in
      if v <? 10 then acc' else decimal_digits fuel' (v / 10) acc'
  end.

Definition std_to_string (v : Z) : list ascii :=
  if v <? 0 then "-"%char :: decimal_digits 20 (- v) [] else decimal_digits 20 v [].

(** The character of a [char] value given as an integer. *)
Definition char_of (v : Z) : ascii := ascii_of_nat (Z.to_nat (v mod 256)).

(** The first character of the two that [to_string] writes for a cell. *)
Definition cell_char (cell : Z) : ascii :=
  if cell =? BLACK then "X"%char else if cell =? WHITE then "O"%char else "."%char.

(** [Board::to_string]: the header of column letters, then one line per
    row with its number and its cells. *)
Definition to_string (b : Board) : string :=
  string_of_list_ascii
    ([" "; " "; " "]%char
     ++ flat_map (fun x => [char_of (65 + x); " "%char]) (seqZ 0 BOARD_SIZE)
     ++ [char_of 10]
     ++ flat_map
          (fun y =>
             (if y <? 9 then [" "%char] else []) ++ std_to_string (y + 1) ++ [" "%char]
             ++ flat_map (fun x => [cell_char (cell_at (cells_ b) (to_index x y)); " "%char])
                  (seqZ 0 BOARD_SIZE)
             ++ [char_of 10])
          (seqZ 0 BOARD_SIZE)).

End BoardImpl.
Export BoardImpl.

(* ===================================================================== *)
(** ** src/heuristic.cpp *)
(* ===================================================================== *)

Module HeuristicImpl.

Definition SCORE_WIN : Z := 1000000.
Definition SCORE_FOUR_OPEN : Z := 100000.
Definition SCORE_FOUR_CLOSED : Z := 10000.
Definition SCORE_THREE_OPEN : Z := 5000.
Definition SCORE_THREE_CLOSED : Z := 500.
Definition SCORE_TWO_OPEN : Z := 200.
Definition SCORE_TWO_CLOSED : Z := 20.
Definition SCORE_SPACE : Z := 10.
Definition SCORE_CLUSTER : Z := 10.

(** The direction tables [dx[] = {1, 0, 1, 1}], [dy[] = {0, 1, 1, -1}] of
    the heuristic, paired up. *)
Definition dirs : list (Z * Z) := [(1, 0); (0, 1); (1, 1); (1, -1)].

(** The [while] loop of [Heuristic::count_consecutive]: bounds test in the
    loop condition, colour test with [break] in the body. *)
Fixpoint count_consecutive_loop (fuel : nat) (b : Board)
    (nx ny dx dy player count : Z) : Z :=
  match fuel with
  | O => count
  | S fuel' =>
      if (0 <=? nx) && (nx <? BOARD_SIZE) && (0 <=? ny) && (ny <? BOARD_SIZE)
      then if negb (get b nx ny =? player) then count
           else count_consecutive_loop fuel' b (nx + dx) (ny + dy) dx dy player (count + 1)
      else count
  end.

Definition count_consecutive (b : Board) (x y dx dy player : Z) : Z :=
  count_consecutive_loop (Z.to_nat BOARD_SIZE) b (x + dx) (y + dy) dx dy player 0.

(** The ternary [(player == BLACK) ? WHITE : BLACK]. *)
Definition opponent_of (player : Z) : Z := if player =? BLACK then WHITE else BLACK.

(** The test "in bounds and empty" used for both ends of a line. *)
Definition open_end (b : Board) (ex ey : Z) : bool :=
  (0 <=? ex) && (ex <? BOARD_SIZE) && (0 <=? ey) && (ey <? BOARD_SIZE)
  && (get b ex ey =? EMPTY).

(** [Heuristic::evaluate_line].  The two gap loops have the shape of the
    [count_consecutive] loop, started one cell beyond the open end. *)
Definition evaluate_line (b : Board) (x y dx dy player : Z) : Z :=
  let count_pos := count_consecutive b x y dx dy player in
  let count_neg := count_consecutive b x y (- dx) (- dy) player in
  let total := count_pos + count_neg in
  if 4 <=? total then SCORE_WIN
  else
    let end_pos_x := x + dx * (count_pos + 1) in
    let end_pos_y := y + dy * (count_pos + 1) in
    let open_pos := open_end b end_pos_x end_pos_y in
    let end_neg_x := x - dx * (count_neg + 1) in
    let end_neg_y := y - dy * (count_neg + 1) in
    let open_neg := open_end b end_neg_x end_neg_y in
    let openness := (if open_pos then 1 else 0) + (if open_neg then 1 else 0) in
    let gap_count :=
      if open_pos && (count_pos <? 4)
      then count_consecutive_loop (Z.to_nat BOARD_SIZE) b
             (end_pos_x + dx) (end_pos_y + dy) dx dy player 0
      else 0 in
    let gap_count_neg :=
      if open_neg && (count_neg <? 4)
      then count_consecutive_loop (Z.to_nat BOARD_SIZE) b
             (end_neg_x - dx) (end_neg_y - dy) (- dx) (- dy) player 0
      else 0 in
    if (total =? 3) && (openness =? 2) then SCORE_FOUR_OPEN
    else if (total =? 3) && (openness =? 1) then SCORE_FOUR_CLOSED
    else if (total =? 2) && ((1 <=? gap_count) || (1 <=? gap_count_neg)) && (1 <=? openness)
         then SCORE_THREE_OPEN
    else if (total =? 2) && (openness =? 2) then SCORE_THREE_OPEN
    else if (total =? 2) && (openness =? 1) then SCORE_THREE_CLOSED
    else if (total =? 1) && ((2 <=? gap_count) || (2 <=? gap_count_neg))
         then SCORE_THREE_CLOSED
    else if (total =? 1) && ((1 <=? gap_count) || (1 <=? gap_count_neg)) && (1 <=? openness)
         then SCORE_TWO_OPEN
    else if (total =? 1) && (openness =? 2) then SCORE_TWO_OPEN
    else if (total =? 1) && (openness =? 1) then SCORE_TWO_CLOSED
    else 0.

(** The inner [for d] loop of both forced-move scans: some direction in
    which [player] has at least four stones in line with [move]. *)
Definition completes_five (b : Board) (player : Z) (move : Move) : bool :=
  existsb
    (fun d : Z * Z =>
       let count_pos := count_consecutive b (Move_x move) (Move_y move) (fst d) (snd d) player in
       let count_neg := count_consecutive b (Move_x move) (Move_y move) (- fst d) (- snd d) player in
       4 <=? count_pos + count_neg)
    dirs.

(** The outer [for move] loop with its early [return move]; falls through
    to [otherwise]. *)
Fixpoint first_move (test : Move -> bool) (moves : list Move) (otherwise : Move) : Move :=
  match moves with
  | [] => otherwise
  | move :: rest => if test move then move else first_move test rest otherwise
  end.

Definition find_winning_move (b : Board) : Move :=
  let player := current_player b in
  let moves := get_legal_moves b in
  first_move (completes_five b player) moves (Move_of (-1) (-1)).

(** The second pass of [find_blocking_move]: the running pair
    [(best_block, best_threat)] over all moves and directions. *)
Definition threat_scan (b : Board) (opponent : Z) (moves : list Move) : Move * Z :=
  fold_left
    (fun (best : Move * Z) (move : Move) =>
       fold_left
         (fun (best : Move * Z) (d : Z * Z) =>
            let threat := evaluate_line b (Move_x move) (Move_y move) (fst d) (snd d) opponent in
            if (SCORE_FOUR_OPEN <=? threat) && (snd best <? threat)
            then (move, threat) else best)
         dirs best)
    moves (Move_of (-1) (-1), 0).

Definition find_blocking_move (b : Board) : Move :=
  let player := current_player b in
  let opponent := opponent_of player in
  let moves := get_legal_moves b in
  first_move (completes_five b opponent) moves (fst (threat_scan b opponent moves)).

(** [struct ScoredMove]. *)
Record ScoredMove : Type := MkScoredMove {
  ScoredMove_move : Move;
  score : Z;
  is_winning : bool;
  is_blocking : bool
}.

(** [ScoredMove(m, s)]. *)
Definition ScoredMove_of (m : Move) (s : Z) : ScoredMove :=
  {| ScoredMove_move := m; score := s; is_winning := false; is_blocking := false |}.

(** [ScoredMove::operator>]: winning, then blocking, then score. *)
Definition ScoredMove_gt (a other : ScoredMove) : bool :=
  if negb (Bool.eqb (is_winning a) (is_winning other)) then is_winning a
  else if negb (Bool.eqb (is_blocking a) (is_blocking other)) then is_blocking a
  else score other <? score a.

(** Conversion of an [int] to [double] (exact), multiplication of doubles
    and [static_cast<int>] of a double (truncation toward zero), on the
    binary64 numbers of the kernel. *)
Definition int_to_double (z : Z) : PrimFloat.float :=
  if z <? 0 then PrimFloat.opp (PrimFloat.of_uint63 (Uint63.of_Z (- z)))
  else PrimFloat.of_uint63 (Uint63.of_Z z).

Definition double_to_int (f : PrimFloat.float) : Z :=
  match FloatOps.Prim2SF f with
  | SpecFloat.S754_finite s m e =>
      let v := match e with
               | Zneg p => Z.shiftr (Zpos m) (Zpos p)
               | _ => Z.shiftl (Zpos m) e
               end in
      if s then - v else v
  | _ => 0
  end.

(** The literal [1.1]: the double nearest to 11/10. *)
Definition double_1_1 : PrimFloat.float := 0x1.199999999999ap+0%float.

(** [static_cast<int>(defensive * 1.1)]. *)
Definition times_1_1 (defensive : Z) : Z :=
  double_to_int (PrimFloat.mul (int_to_double defensive) double_1_1).

(** The offsets of the nested loops of [cluster_bonus],
    [for dx in -2..2: for dy in -2..2]. *)
Definition cluster_offsets : list (Z * Z) :=
  flat_map (fun dx => map (fun dy => (dx, dy)) (seqZ (-2) 5)) (seqZ (-2) 5).

(** The body of the loops of [cluster_bonus] on the pair
    [(bonus, empty_count)]. *)
Definition cluster_step (b : Board) (move : Move) (acc : Z * Z) (d : Z * Z) : Z * Z :=
  let dx := fst d in
  let dy := snd d in
  if (dx =? 0) && (dy =? 0) then acc
  else
    let nx := Move_x move + dx in
    let ny := Move_y move + dy in
    if (0 <=? nx) && (nx <? BOARD_SIZE) && (0 <=? ny) && (ny <? BOARD_SIZE)
    then if negb (get b nx ny =? EMPTY)
         then (fst acc + SCORE_CLUSTER * (3 - Z.max (Z.abs dx) (Z.abs dy)), snd acc)
         else (fst acc, snd acc + 1)
    else acc.

Definition cluster_bonus (b : Board) (move : Move) : Z :=
  let acc := fold_left (cluster_step b move) cluster_offsets (0, 0) in
  fst acc + snd acc * SCORE_SPACE.

(** The loop over the four directions of [evaluate_move] on the pair
    [(offensive, defensive)]. *)
Definition line_sums (b : Board) (move : Move) (player opponent : Z) : Z * Z :=
  fold_left
    (fun (acc : Z * Z) (d : Z * Z) =>
       (fst acc + evaluate_line b (Move_x move) (Move_y move) (fst d) (snd d) player,
        snd acc + evaluate_line b (Move_x move) (Move_y move) (fst d) (snd d) opponent))
    dirs (0, 0).

Definition evaluate_move (b : Board) (move : Move) : Z :=
  let player := current_player b in
  let opponent := opponent_of player in
  let sums := line_sums b move player opponent in
  fst sums + times_1_1 (snd sums) + cluster_bonus b move.

(** The loop of [score_move]: the scored move under construction with the
    sums [(offensive, defensive)]. *)
Definition score_step (b : Board) (move : Move) (player opponent : Z)
    (acc : ScoredMove * (Z * Z)) (d : Z * Z) : ScoredMove * (Z * Z) :=
  let sm := fst acc in
  let off_score := evaluate_line b (Move_x move) (Move_y move) (fst d) (snd d) player in
  let def_score := evaluate_line b (Move_x move) (Move_y move) (fst d) (snd d) opponent in
  ({| ScoredMove_move := ScoredMove_move sm;
      score := score sm;
      is_winning := if SCORE_WIN <=? off_score then true else is_winning sm;
      is_blocking := if SCORE_FOUR_OPEN <=? def_score then true else is_blocking sm |},
   (fst (snd acc) + off_score, snd (snd acc) + def_score)).

Definition score_move (b : Board) (move : Move) : ScoredMove :=
  let player := current_player b in
  let opponent := opponent_of player in
  let acc := fold_left (score_step b move player opponent) dirs (ScoredMove_of move 0, (0, 0)) in
  {| ScoredMove_move := ScoredMove_move (fst acc);
     score := fst (snd acc) + times_1_1 (snd (snd acc)) + cluster_bonus b move;
     is_winning := is_winning (fst acc);
     is_blocking := is_blocking (fst acc) |}.


Section Sorting.

(** [std::sort(first, last, std::greater<ScoredMove>())]: the standard
    leaves the order of equivalent elements open, so the sort is a
    parameter of the model. *)
Variable sort_greater : list ScoredMove -> list ScoredMove.

(** [Heuristic::get_scored_moves]. *)
Definition get_scored_moves (b : Board) : list ScoredMove :=
  sort_greater (map (score_move b) (get_legal_moves b)).

End Sorting.

End HeuristicImpl.
Export HeuristicImpl.

(* ===================================================================== *)
(** ** src/mcts.cpp *)
(* ===================================================================== *)

Module MCTSImpl.

Record MCTSConfig : Type := MkConfig {
  exploration_constant : Q;
  max_iterations : Z;
  max_time_ms : Z;
  seed : Z;
  use_heuristic_rollouts : bool;
  use_random_rollouts : bool
}.

(** [struct MCTSNode].  A node owns its children; the non-owning [parent]
    back reference is represented by the position of the node in the tree. *)
#[local] Unset Elimination Schemes.
Inductive MCTSNode : Type := MkNode {
  node_move : Move;
  children : list MCTSNode;
  untried_moves : list Move;
  visit_count : Z;
  total_value : Q;
  player_to_move : Z
}.
#[local] Set Elimination Schemes.

(** [MCTSNode(m, nullptr, player)]. *)
Definition new_node (m : Move) (player : Z) : MCTSNode :=
  {| node_move := m; children := []; untried_moves := [];
     visit_count := 0; total_value := 0%Q; player_to_move := player |}.

(** [MCTS::init_untried_moves]. *)
Definition init_untried_moves (node : MCTSNode) (board : Board) : MCTSNode :=
  {| node_move := node_move node; children := children node;
     untried_moves := get_legal_moves board;
     visit_count := visit_count node; total_value := total_value node;
     player_to_move := player_to_move node |}.

(** [MCTS::select_best_move]: the loop keeps [(best, best_visits)] and a
    child replaces the best one only with a strictly larger visit count. *)
Definition select_best_move (root : MCTSNode) : Move :=
  match children root with
  | [] =>
      match untried_moves root with
      | m :: _ => m
      | [] => Move_invalid
      end
  | _ :: _ =>
      let best :=
        fold_left
          (fun (acc : option MCTSNode * Z) (child : MCTSNode) =>
             if snd acc <? visit_count child
             then (Some child, visit_count child) else acc)
          (children root) (None, -1) in
      match fst best with
      | Some n => node_move n
      | None => Move_invalid
      end
  end.

(** The value [rollout] returns at once on a terminal board; the doubles
    [0.0], [-1.0] and [1.0] are written as rationals. *)
Definition rollout_terminal (board : Board) : Q :=
  let winner := get_winner board in
  if winner =? EMPTY then 0%Q
  else if winner =? current_player board then (-1 # 1)%Q else (1 # 1)%Q.

Section Search.

(** State of the [std::mt19937_64] generator. *)
Variable RNG : Type.

(** The two playout policies: they draw from the generator and play on a
    copy of the board. *)
Variable heuristic_rollout : Board -> RNG -> Q * RNG.
Variable random_rollout : Board -> RNG -> Q * RNG.

(** Selection followed by expansion from the root on a copy of the board:
    the updated tree, the path to the node reached and the simulation
    board.  Backpropagation along that path. Both use the UCT formula and
    the parent links and are left abstract. *)
Variable descend : MCTSConfig -> MCTSNode -> Board -> RNG -> MCTSNode * list nat * Board * RNG.
Variable backpropagate : MCTSNode -> list nat -> Q -> Z -> MCTSNode.

(** Milliseconds between [start_time] and the reading of the clock taken at
    the top of the loop when [iterations_] has the given value. *)
Variable elapsed : Z -> Z.

Record MCTS : Type := MkMCTS {
  config_ : MCTSConfig;
  rng_ : RNG;
  iterations_ : Z
}.

(** [MCTS::rollout]. *)
Definition rollout (cfg : MCTSConfig) (board : Board) (rng : RNG) : Q * RNG :=
  if is_terminal board then (rollout_terminal board, rng)
  else
    let '(total, count, rng) :=
      if use_heuristic_rollouts cfg
      then let '(v, rng') := heuristic_rollout board rng in ((0 + v)%Q, 1, rng')
      else (0%Q, 0, rng) in
    let '(total, count, rng) :=
      if use_random_rollouts cfg
      then let '(v, rng') := random_rollout board rng in ((total + v)%Q, count + 1, rng')
      else (total, count, rng) in
    (if 0 <? count then (total / inject_Z count)%Q else 0%Q, rng).

(** One pass of the body of the [while] loop of [search]. *)
Definition iteration (cfg : MCTSConfig) (board : Board) (root : MCTSNode) (rng : RNG)
    : MCTSNode * RNG :=
  let '(root, path, sim_board, rng) := descend cfg root board rng in
  let '(value, rng) := rollout cfg sim_board rng in
  (backpropagate root path value (current_player board), rng).

(** The [while (iterations_ < max_iterations)] loop; [fuel] is the number
    of iterations still allowed by [max_iterations]. *)
Fixpoint search_loop (fuel : nat) (cfg : MCTSConfig) (time_limit_ms : Z) (board : Board)
    (root : MCTSNode) (rng : RNG) (iterations : Z) : MCTSNode * RNG * Z :=
  match fuel with
  | O => (root, rng, iterations)
  | S fuel' =>
      if time_limit_ms <=? elapsed iterations then (root, rng, iterations)
      else
        let '(root', rng') := iteration cfg board root rng in
        search_loop fuel' cfg time_limit_ms board root' rng' (iterations + 1)
  end.

(** [MCTS::search(board, time_limit_ms)]: the move and the engine state
    afterwards. *)
Definition search (self : MCTS) (board : Board) (time_limit_ms : Z) : Move * MCTS :=
  let winning := find_winning_move board in
  if is_valid winning then (winning, self)
  else
    let blocking := find_blocking_move board in
    if is_valid blocking then (blocking, self)
    else
      let root := init_untried_moves (new_node Move_invalid (current_player board)) board in
      match untried_moves root with
      | [m] => (m, self)
      | _ =>
          let '(root', rng', iterations') :=
            search_loop (Z.to_nat (max_iterations (config_ self))) (config_ self)
                        time_limit_ms board root (rng_ self) 0 in
          (select_best_move root',
           {| config_ := config_ self; rng_ := rng'; iterations_ := iterations' |})
      end.

End Search.

(** The value both playouts return: the winner of the final board seen
    from [start_player]. *)
Definition playout_value (winner start_player : Z) : Q :=
  if winner =? EMPTY then 0%Q
  else if winner =? start_player then (1 # 1)%Q else (-1 # 1)%Q.

Section Rollouts.

Variable RNG : Type.

(** [std::uniform_int_distribution<>(lo, hi)(rng_)]: the number drawn and
    the generator afterwards. *)
Variable uniform_int : RNG -> Z -> Z -> Z * RNG.

Variable sort_greater : list ScoredMove -> list ScoredMove.

(** The loop [while (!board.is_terminal() && max_moves-- > 0)] of
    [heuristic_rollout]; neither test changes the board, and the counter
    is not read after the loop.  The index drawn lies below [top_n], so the
    read [scored_moves[idx]] is in range; the default of [nth] is never
    used. *)
Fixpoint heuristic_rollout_loop (max_moves : nat) (board : Board) (rng : RNG) : Board * RNG :=
  match max_moves with
  | O => (board, rng)
  | S max_moves' =>
      if is_terminal board then (board, rng)
      else
        let scored_moves := get_scored_moves sort_greater board in
        match scored_moves with
        | [] => (board, rng)
        | _ :: _ =>
            let top_n := Z.min 3 (Z.of_nat (length scored_moves)) in
            let '(idx, rng') := uniform_int rng 0 (top_n - 1) in
            heuristic_rollout_loop max_moves'
              (make_move board
                 (ScoredMove_move (nth (Z.to_nat idx) scored_moves (ScoredMove_of Move_invalid 0))))
              rng'
        end
  end.

(** [MCTS::heuristic_rollout]: the value, the board as the playout leaves
    it and the generator. *)
Definition heuristic_rollout (board : Board) (rng : RNG) : Q * Board * RNG :=
  let start_player := current_player board in
  let '(board', rng') := heuristic_rollout_loop 50 board rng in
  (playout_value (get_winner board') start_player, board', rng').

(** The loop of [random_rollout]. *)
Fixpoint random_rollout_loop (max_moves : nat) (board : Board) (rng : RNG) : Board * RNG :=
  match max_moves with
  | O => (board, rng)
  | S max_moves' =>
      if is_terminal board then (board, rng)
      else
        let moves := get_legal_moves board in
        match moves with
        | [] => (board, rng)
        | _ :: _ =>
            let '(idx, rng') := uniform_int rng 0 (Z.of_nat (length moves) - 1) in
            random_rollout_loop max_moves'
              (make_move board (nth (Z.to_nat idx) moves Move_invalid)) rng'
        end
  end.

(** [MCTS::random_rollout]. *)
Definition random_rollout (board : Board) (rng : RNG) : Q * Board * RNG :=
  let start_player := current_player board in
  let '(board', rng') := random_rollout_loop 50 board rng in
  (playout_value (get_winner board') start_player, board', rng').

End Rollouts.

End MCTSImpl.
Export MCTSImpl.

(* ===================================================================== *)
(** ** src/uci.cpp: the move parser of the front end *)
(* ===================================================================== *)

Module UCI.

Definition code (c : ascii) : Z := Z.of_nat (nat_of_ascii c).

(** [std::isalpha], [std::tolower], [std::isspace] and [std::isdigit] in
    the "C" locale. *)
Definition isalpha (c : ascii) : bool :=
  ((65 <=? code c) && (code c <=? 90)) || ((97 <=? code c) && (code c <=? 122)).
Definition tolower (c : ascii) : Z :=
  if (65 <=? code c) && (code c <=? 90) then code c + 32 else code c.
Definition isspace (c : ascii) : bool :=
  (code c =? 32) || ((9 <=? code c) && (code c <=? 13)).
Definition isdigit (c : ascii) : bool := (48 <=? code c) && (code c <=? 57).

Definition INT_MAX : Z := 2147483647.
Definition INT_MIN : Z := -2147483648.

Fixpoint skip_spaces (s : list ascii) : list ascii :=
  match s with
  | c :: rest => if isspace c then skip_spaces rest else s
  | [] => []
  end.

(** The longest prefix of decimal digits, accumulated from [acc]; the
    number of digits read is returned with the value. *)
Fixpoint read_digits (s : list ascii) (acc : Z) (n : nat) : Z * nat :=
  match s with
  | c :: rest => if isdigit c then read_digits rest (10 * acc + (code c - 48)) (S n)
                 else (acc, n)
  | [] => (acc, n)
  end.

(** [std::stoi(str)] in base 10: leading white space, an optional sign,
    then digits; what follows the digits is ignored.  [None] stands for
    both exceptions, [std::invalid_argument] (no digit) and
    [std::out_of_range] (the value does not fit an [int]). *)
Definition stoi (s : list ascii) : option Z :=
  let s1 := skip_spaces s in
  let '(negative, s2) :=
    match s1 with
    | c :: rest => if code c =? 45 then (true, rest)
                   else if code c =? 43 then (false, rest) else (false, s1)
    | [] => (false, s1)
    end in
  let '(v, n) := read_digits s2 0 0 in
  match n with
  | O => None
  | S _ =>
      let v := if negative then - v else v in
      if (INT_MIN <=? v) && (v <=? INT_MAX) then Some v else None
  end.

(** [std::string::find(',')]: position of the first comma. *)
Fixpoint find_comma (s : list ascii) : option nat :=
  match s with
  | [] => None
  | c :: rest => if code c =? 44 then Some O
                 else match find_comma rest with Some k => Some (S k) | None => None end
  end.

(** The tail of [parse_move] after [x] and [y] are assigned. *)
Definition finish_parse (x y : Z) : Move :=
  if in_bounds x y then Move_of x y else Move_invalid.

(** [UCIEngine::parse_move].  [substr(1)], [substr(0, comma)] and
    [substr(comma + 1)] are [skipn] and [firstn] on the characters; a
    [catch (...)] returns [Move()]. *)
Definition parse_move (move_str : string) : Move :=
  let s := list_ascii_of_string move_str in
  if (length s <? 2)%nat then Move_invalid
  else
    match s with
    | [] => Move_invalid
    | c0 :: _ =>
        if isalpha c0 then
          let col := tolower c0 in
          let x := col - 97 in
          match stoi (skipn 1 s) with
          | None => Move_invalid
          | Some v => finish_parse x (v - 1)
          end
        else
          match find_comma s with
          | Some comma =>
              match stoi (firstn comma s) with
              | None => Move_invalid
              | Some x =>
                  match stoi (skipn (comma + 1) s) with
                  | None => Move_invalid
                  | Some y => finish_parse x y
                  end
              end
          | None => finish_parse (-1) (-1)
          end
    end.

(** [UCIEngine::move_to_string]. *)
Definition move_to_string (move : Move) : string :=
  if negb (is_valid move) then "none"%string
  else
    let col := char_of (97 + Move_x move) in
    let row := Move_y move + 1 in
    String col (string_of_list_ascii (std_to_string row)).

(** The words that [operator>>] extracts from a stream one after the
    other: the maximal runs of characters that are not white space.  A
    stream is represented by the list of the words left in it; an
    extraction from the empty list fails and leaves the target string as it
    was. *)
Fixpoint words_from (s : list ascii) (cur : list ascii) : list string :=
  match s with
  | [] => match cur with [] => [] | _ :: _ => [string_of_list_ascii (rev cur)] end
  | c :: rest =>
      if isspace c
      then match cur with
           | [] => words_from rest []
           | _ :: _ => string_of_list_ascii (rev cur) :: words_from rest []
           end
      else words_from rest (c :: cur)
  end.

Definition words (input : string) : list string :=
  words_from (list_ascii_of_string input) [].

(** [while (args >> token && token != "moves") {}]: the token and the
    stream afterwards. *)
Fixpoint skip_to_moves (token : string) (args : list string) : string * list string :=
  match args with
  | [] => (token, [])
  | t :: rest => if String.eqb t "moves" then (t, rest) else skip_to_moves t rest
  end.

(** The loop [while (args >> token)] of [cmd_position]. *)
Definition position_step (board : Board) (token : string) : Board :=
  let m := parse_move token in
  if is_valid m && is_legal_move board m then make_move board m else board.

Definition position_moves (board : Board) (args : list string) : Board :=
  fold_left position_step args board.

(** [UCIEngine::cmd_position]: the board afterwards (the reply is always
    the empty string). *)
Definition cmd_position (board_ : Board) (args : list string) : Board :=
  let '(token, args) :=
    match args with
    | t :: rest => (t, rest)
    | [] => (EmptyString, [])
    end in
  let '(board, token, args) :=
    if String.eqb token "startpos" then
      match args with
      | t :: rest => (reset, t, rest)
      | [] => (reset, token, [])
      end
    else if String.eqb token "fen" then
      let '(token', rest) := skip_to_moves token args in (reset, token', rest)
    else (board_, token, args) in
  if String.eqb token "moves" then position_moves board args else board.

(** [std::transform(cmd.begin(), cmd.end(), cmd.begin(), ::tolower)]. *)
Definition lowercase (cmd : string) : string :=
  string_of_list_ascii (map (fun c => char_of (tolower c)) (list_ascii_of_string cmd)).

(** [UCIEngine::process_command], as far as the board is concerned: only
    [position] and [ucinewgame] write to [board_]; [go] passes it by
    constant reference and [perft] works on a copy. *)
Definition process_command (board_ : Board) (input : string) : Board :=
  match words input with
  | [] => board_
  | cmd :: args =>
      let cmd := lowercase cmd in
      if String.eqb cmd "position" then cmd_position board_ args
      else if String.eqb cmd "ucinewgame" then reset
      else board_
  end.

(** Arithmetic of [uint64_t]. *)
Definition wrap64 (v : Z) : Z := v mod 2 ^ 64.

(** The recursive lambda [perft] of [cmd_perft] for a depth [d >= 0]: the
    count and the board [b] as the calls leave it. *)
Fixpoint perft (d : nat) (b : Board) : Z * Board :=
  match d with
  | O => (1, b)
  | S d' =>
      if is_terminal b then (0, b)
      else
        fold_left
          (fun (acc : Z * Board) (m : Move) =>
             let '(n, b1) := perft d' (make_move (snd acc) m) in
             (wrap64 (fst acc + n), unmake_move b1 m))
          (get_legal_moves b) (0, b)
  end.

End UCI.
Export UCI.

(* ===================================================================== *)
(** ** src/main.cpp: the move text of the demo game *)
(* ===================================================================== *)

Module Main.

(** [move_to_str]. *)
Definition move_to_str (move : Move) : string :=
  if negb (is_valid move) then "none"%string
  else
    let col := char_of (65 + Move_x move) in
    let row := Move_y move + 1 in
    String col (string_of_list_ascii (std_to_string row)).

End Main.
Export Main.

(* ===================================================================== *)
(** ** Vocabulary of the statements *)
(* ===================================================================== *)

Module Statements.

(** Boards produced by the public operations under their preconditions:
    [make_move] on an in-bounds empty cell, [unmake_move] of the last move
    of the history. *)
Inductive reachable : Board -> Prop :=
| reach_reset : reachable reset
| reach_make b m :
    reachable b ->
    in_bounds (Move_x m) (Move_y m) = true ->
    is_empty b (Move_x m) (Move_y m) = true ->
    reachable (make_move b m)
| reach_unmake b m :
    reachable b ->
    last (history_ b) = Some m ->
    reachable (unmake_move b m).

(** The invariant of the boards produced by the public operations: the
    three occupancy masks agree with the cell array, the legal mask avoids
    the occupied cells, the side to move follows the parity of the history,
    the stones of the history are on the board, pairwise distinct and as
    many as the occupied cells, and a board that is not terminal has no
    result yet. *)
Record board_inv (b : Board) : Prop := {
  inv_length : length (cells_ b) = 225%nat;
  inv_masks : forall i, 0 <= i < 225 ->
      Z.testbit (occupied_mask_ b) i = negb (cell_at (cells_ b) i =? EMPTY)
      /\ Z.testbit (black_mask_ b) i = (cell_at (cells_ b) i =? BLACK)
      /\ Z.testbit (white_mask_ b) i = (cell_at (cells_ b) i =? WHITE);
  inv_legal : forall i, Z.testbit (legal_mask_ b) i = true ->
      Z.testbit (occupied_mask_ b) i = false;
  inv_player : current_player_ b = BLACK \/ current_player_ b = WHITE;
  inv_parity : current_player_ b = BLACK <-> Nat.even (length (history_ b)) = true;
  inv_history : forall m, In m (history_ b) ->
      in_bounds (Move_x m) (Move_y m) = true
      /\ Z.testbit (occupied_mask_ b) (Move_to_index m) = true;
  inv_nodup : NoDup (map Move_to_index (history_ b));
  inv_popcount : popcount (occupied_mask_ b) = length (history_ b);
  inv_result : is_terminal_ b = false -> result_ b = ONGOING
}.

(** The legal mask and the verdict of [check_win] that [make_move b m]
    computes, written on the fields of [b]. *)
Definition make_move_legal (b : Board) (m : Move) : BitBoard :=
  Z.clearbit
    (dilate (Z.setbit (occupied_mask_ b) (Move_to_index m)) (Move_x m) (Move_y m)
       (if match history_ b with [] => true | _ :: _ => false end && (legal_mask_ b =? 0)
        then Z.setbit (legal_mask_ b) (Move_to_index m) else legal_mask_ b))
    (Move_to_index m).

Definition make_move_won (b : Board) (m : Move) : bool :=
  existsb
    (fun d : Z * Z =>
       5 <=? 1 + count_direction_loop (Z.to_nat BOARD_SIZE)
                   (cell_set (cells_ b) (Move_to_index m) (current_player_ b))
                   (Move_x m + fst d) (Move_y m + snd d) (fst d) (snd d)
                   (cell_at (cell_set (cells_ b) (Move_to_index m) (current_player_ b))
                            (Move_to_index m)) 0
             + count_direction_loop (Z.to_nat BOARD_SIZE)
                   (cell_set (cells_ b) (Move_to_index m) (current_player_ b))
                   (Move_x m + - fst d) (Move_y m + - snd d) (- fst d) (- snd d)
                   (cell_at (cell_set (cells_ b) (Move_to_index m) (current_player_ b))
                            (Move_to_index m)) 0)
    DIRECTIONS.

(** Every move of the list is legal on the board it is applied to. *)
Fixpoint legal_sequence (b : Board) (ms : list Move) : Prop :=
  match ms with
  | [] => True
  | m :: rest => is_legal_move b m = true /\ legal_sequence (make_move b m) rest
  end.

(** What [unmake_move] makes of the fields it does not restore from the
    board: the flags are cleared and the legal mask is rebuilt from the
    history. *)
Definition undone (b : Board) : Board :=
  {| cells_ := cells_ b;
     occupied_mask_ := occupied_mask_ b;
     black_mask_ := black_mask_ b;
     white_mask_ := white_mask_ b;
     legal_mask_ :=
       match history_ b with
       | [] => Z.setbit 0 (to_index 7 7)
       | _ :: _ => rebuild_legal (occupied_mask_ b) (history_ b)
       end;
     current_player_ := current_player_ b;
     is_terminal_ := false;
     result_ := ONGOING;
     history_ := history_ b |}.

(** The fresh board with the centre bit of the legal mask set. *)
Definition reset_with_centre : Board := undone reset.

(** The move wins at once for the player to move: applying it ends the
    game with that player as the winner. *)
Definition wins_immediately (b : Board) (m : Move) : Prop :=
  is_terminal (make_move b m) = true /\ get_winner (make_move b m) = current_player b.

(** The same position with the opponent of the side to move on turn. *)
Definition opponent_to_move (b : Board) : Board :=
  {| cells_ := cells_ b;
     occupied_mask_ := occupied_mask_ b;
     black_mask_ := black_mask_ b;
     white_mask_ := white_mask_ b;
     legal_mask_ := legal_mask_ b;
     current_player_ := opponent_of (current_player_ b);
     is_terminal_ := is_terminal_ b;
     result_ := result_ b;
     history_ := history_ b |}.

(** Black has the open four D8-E8-F8-G8; [four_black] has black to move,
    [four_black_white_to_move] is the position one move earlier. *)
Definition four_moves : list Move :=
  [Move_of 3 7; Move_of 3 8; Move_of 4 7; Move_of 4 8;
   Move_of 5 7; Move_of 5 8; Move_of 6 7; Move_of 6 8].
Definition four_black : Board := make_moves reset four_moves.
Definition four_black_white_to_move : Board := make_moves reset (firstn 7 four_moves).

(** The horizontal win D8 D9 E8 E9 F8 F9 G8 G9 H8: black has five in a
    row and white is on turn. *)
Definition black_won : Board :=
  make_moves reset (four_moves ++ [Move_of 7 7]).

(** The value of a terminal rollout in the words of the specification:
    0 on a draw, +1 if the player on turn is the winner, -1 otherwise. *)
Definition rollout_terminal_as_specified (board : Board) : Q :=
  match get_result board with
  | DRAW => 0%Q
  | _ => if current_player board =? get_winner board then (1 # 1)%Q else (-1 # 1)%Q
  end.

(** A non-empty string of decimal digits and the number it denotes. *)
Definition digit_string (s : list ascii) : Prop :=
  s <> [] /\ Forall (fun c => isdigit c = true) s.

Definition decimal_value (s : list ascii) : Z :=
  fold_left (fun acc c => 10 * acc + (code c - 48)) s 0.

(** The text [xs,ys]. *)
Definition comma_pair (xs ys : list ascii) : string :=
  string_of_list_ascii (xs ++ ","%char :: ys).

(** Boards reached from the fresh board by legal moves only. *)
Inductive played : Board -> Prop :=
| played_reset : played reset
| played_move b m : played b -> is_legal_move b m = true -> played (make_move b m).

(** The cell of [m] lies within Chebyshev distance [LEGAL_RADIUS] of the
    stone [s]. *)
Definition near (s m : Move) : Prop :=
  Z.max (Z.abs (Move_x m - Move_x s)) (Z.abs (Move_y m - Move_y s)) <= LEGAL_RADIUS.

(** The board with its terminal flag and result replaced. *)
Definition with_flags (b : Board) (t : bool) (r : GameResult) : Board :=
  {| cells_ := cells_ b;
     occupied_mask_ := occupied_mask_ b;
     black_mask_ := black_mask_ b;
     white_mask_ := white_mask_ b;
     legal_mask_ := legal_mask_ b;
     current_player_ := current_player_ b;
     is_terminal_ := t;
     result_ := r;
     history_ := history_ b |}.

(** Five stones of colour [p] in a row along one of the four directions,
    the cell [(x, y)] being one of the five. *)
Definition five_through (cells : list Z) (x y p : Z) : Prop :=
  exists d, In d DIRECTIONS /\ exists k, 0 <= k <= 4 /\
    forall j, 0 <= j <= 4 ->
      in_bounds (x + (j - k) * fst d) (y + (j - k) * snd d) = true
      /\ cell_at cells (to_index (x + (j - k) * fst d) (y + (j - k) * snd d)) = p.

(** Positions of a game: from the fresh board, a legal move is made only
    while the game is not over. *)
Inductive game_position : Board -> Prop :=
| game_start : game_position reset
| game_move b m :
    game_position b -> is_terminal b = false -> is_legal_move b m = true ->
    game_position (make_move b m).


(** Further facts the public operations keep: the masks have no bit
    outside the 225 cells, every cell holds one of the three cell values,
    and a terminal board has a result. *)
Record board_inv_more (b : Board) : Prop := {
  more_occupied : forall i, Z.testbit (occupied_mask_ b) i = true -> 0 <= i < 225;
  more_black : forall i, Z.testbit (black_mask_ b) i = true -> 0 <= i < 225;
  more_white : forall i, Z.testbit (white_mask_ b) i = true -> 0 <= i < 225;
  more_legal : forall i, Z.testbit (legal_mask_ b) i = true -> 0 <= i < 225;
  more_cells : forall i, 0 <= i < 225 ->
      cell_at (cells_ b) i = EMPTY \/ cell_at (cells_ b) i = BLACK
      \/ cell_at (cells_ b) i = WHITE;
  more_terminal : is_terminal_ b = true -> result_ b <> ONGOING
}.

(** The eight values a line evaluation can take. *)
Definition score_values : list Z :=
  [0; SCORE_TWO_CLOSED; SCORE_TWO_OPEN; SCORE_THREE_CLOSED; SCORE_THREE_OPEN;
   SCORE_FOUR_CLOSED; SCORE_FOUR_OPEN; SCORE_WIN].

(** The offsets of [cluster_bonus] that address a cell of the board other
    than the cell of the move, and those among them that address a stone
    next to the move. *)
Definition in_window (b : Board) (m : Move) (d : Z * Z) : bool :=
  negb ((fst d =? 0) && (snd d =? 0)) && in_bounds (Move_x m + fst d) (Move_y m + snd d).

Definition adjacent_stone (b : Board) (m : Move) (d : Z * Z) : bool :=
  in_window b m d && negb (get b (Move_x m + fst d) (Move_y m + snd d) =? EMPTY)
  && (Z.max (Z.abs (fst d)) (Z.abs (snd d)) =? 1).

(** The threat of a move for [opponent] in one direction, and the step of
    the second pass of [find_blocking_move] on a pair of a move and a
    direction. *)
Definition threat_of (b : Board) (opponent : Z) (md : Move * (Z * Z)) : Z :=
  evaluate_line b (Move_x (fst md)) (Move_y (fst md)) (fst (snd md)) (snd (snd md)) opponent.

Definition threat_step (b : Board) (opponent : Z) (best : Move * Z) (md : Move * (Z * Z))
    : Move * Z :=
  if (SCORE_FOUR_OPEN <=? threat_of b opponent md) && (snd best <? threat_of b opponent md)
  then (fst md, threat_of b opponent md) else best.

(** Two scored moves that [operator>] orders in neither direction. *)
Definition ScoredMove_equiv (a c : ScoredMove) : Prop :=
  ScoredMove_gt a c = false /\ ScoredMove_gt c a = false.

(** What the standard promises of the two library calls the playouts use:
    a number drawn from [lo, hi] lies in that range, and [std::sort]
    permutes its input into an order in which no element is greater than
    one before it. *)
Definition uniform_int_in_range {RNG : Type} (uniform_int : RNG -> Z -> Z -> Z * RNG) : Prop :=
  forall rng lo hi, lo <= hi -> lo <= fst (uniform_int rng lo hi) <= hi.

Definition sorts_greater (sort_greater : list ScoredMove -> list ScoredMove) : Prop :=
  forall l, Permutation l (sort_greater l)
            /\ StronglySorted (fun a c => ScoredMove_gt c a = false) (sort_greater l).

(** Insertion sort by [operator>], a sort that meets the promise. *)
Fixpoint insert_greater (a : ScoredMove) (l : list ScoredMove) : list ScoredMove :=
  match l with
  | [] => [a]
  | c :: rest => if ScoredMove_gt c a then c :: insert_greater a rest else a :: l
  end.

Definition insertion_sort (l : list ScoredMove) : list ScoredMove :=
  fold_right insert_greater [] l.

(** The move sequences of length [d] that [perft] walks through: each
    move is taken from [get_legal_moves], and no move follows the end of
    the game. *)
Fixpoint game_sequences (d : nat) (b : Board) : list (list Move) :=
  match d with
  | O => [[]]
  | S d' =>
      if is_terminal b then []
      else flat_map (fun m => map (cons m) (game_sequences d' (make_move b m)))
                    (get_legal_moves b)
  end.



(** The texts [std::stoi] reads as the integer [v]: white space, an
    optional sign, a non-empty string of decimal digits, then anything that
    does not start with a digit. *)
Definition int_text (s : list ascii) (v : Z) : Prop :=
  exists ws sign ds rest,
    s = ws ++ sign ++ ds ++ rest
    /\ Forall (fun c => isspace c = true) ws
    /\ ((sign = [] /\ v = decimal_value ds)
        \/ (sign = ["+"%char] /\ v = decimal_value ds)
        \/ (sign = ["-"%char] /\ v = - decimal_value ds))
    /\ digit_string ds
    /\ match rest with c :: _ => isdigit c = false | [] => True end.

End Statements.
Export Statements.

(* ===================================================================== *)
(** ** Arithmetic of coordinates, cells and bit boards *)
(* ===================================================================== *)

Section Basics.

Lemma wrap8_small v : -128 <= v < 128 -> wrap8 v = v.
Proof. intros H. unfold wrap8. rewrite Z.mod_small; lia. Qed.

Lemma in_bounds_true x y :
  in_bounds x y = true <-> 0 <= x < 15 /\ 0 <= y < 15.
Proof. unfold in_bounds, BOARD_SIZE. lia. Qed.

Lemma in_bounds_false x y :
  in_bounds x y = false <-> ~ (0 <= x < 15 /\ 0 <= y < 15).
Proof. rewrite <- in_bounds_true. destruct (in_bounds x y); intuition congruence. Qed.

Lemma to_index_range x y :
  in_bounds x y = true -> 0 <= to_index x y < 225.
Proof. rewrite in_bounds_true. unfold to_index, BOARD_SIZE. lia. Qed.

Lemma to_index_inj x1 y1 x2 y2 :
  in_bounds x1 y1 = true -> in_bounds x2 y2 = true ->
  to_index x1 y1 = to_index x2 y2 -> x1 = x2 /\ y1 = y2.
Proof. rewrite !in_bounds_true. unfold to_index, BOARD_SIZE. lia. Qed.

Lemma to_xy_range idx :
  0 <= idx < 225 ->
  0 <= to_x idx < 15 /\ 0 <= to_y idx < 15 /\ to_index (to_x idx) (to_y idx) = idx.
Proof.
  intros H. unfold to_x, to_y, to_index, BOARD_SIZE.
  rewrite Z.rem_mod_nonneg, Z.quot_div_nonneg by lia.
  pose proof (Z.div_mod idx 15 ltac:(lia)).
  pose proof (Z.mod_pos_bound idx 15 ltac:(lia)).
  assert (0 <= idx / 15 < 15) by (split; [apply Z.div_pos; lia | apply Z.div_lt_upper_bound; lia]).
  lia.
Qed.

Lemma to_xy_of_index x y :
  in_bounds x y = true -> to_x (to_index x y) = x /\ to_y (to_index x y) = y.
Proof.
  intros Hb. pose proof (to_index_range _ _ Hb) as Hr.
  destruct (to_xy_range _ Hr) as (Hx & Hy & He).
  apply to_index_inj in He; [lia | apply in_bounds_true; lia | exact Hb].
Qed.

Lemma Move_of_small x y :
  -128 <= x < 128 -> -128 <= y < 128 -> Move_of x y = MkMove x y.
Proof. intros. unfold Move_of. now rewrite !wrap8_small. Qed.

Lemma Move_eta m : MkMove (Move_x m) (Move_y m) = m.
Proof. now destruct m. Qed.

(** Reading and writing the cell array. *)
Lemma cell_at_set_eq cells idx v :
  0 <= idx < Z.of_nat (length cells) -> cell_at (cell_set cells idx v) idx = v.
Proof.
  intros H. unfold cell_at, cell_set.
  rewrite list_lookup_insert_eq by lia. reflexivity.
Qed.

Lemma cell_at_set_ne cells idx j v :
  0 <= idx -> 0 <= j -> idx <> j -> cell_at (cell_set cells idx v) j = cell_at cells j.
Proof.
  intros Hi Hj Hne. unfold cell_at, cell_set.
  rewrite list_lookup_insert_ne by lia. reflexivity.
Qed.

Lemma cell_set_length cells idx v : length (cell_set cells idx v) = length cells.
Proof. apply length_insert. Qed.

Lemma cell_set_restore cells idx v :
  cell_at cells idx = EMPTY -> 0 <= idx < Z.of_nat (length cells) ->
  cell_set (cell_set cells idx v) idx EMPTY = cells.
Proof.
  intros He Hr. unfold cell_set, cell_at in *.
  rewrite list_insert_insert_eq. apply list_insert_id.
  destruct (cells !! Z.to_nat idx) eqn:E; simpl in He; [congruence |].
  apply lookup_ge_None in E. lia.
Qed.

(** Bits of a mask after [set] and [reset]. *)
Lemma testbit_setbit m i j :
  0 <= i -> Z.testbit (Z.setbit m i) j = (i =? j) || Z.testbit m j.
Proof. intros. now apply Z.setbit_eqb. Qed.

Lemma testbit_clearbit m i j :
  0 <= i -> Z.testbit (Z.clearbit m i) j = Z.testbit m j && negb (i =? j).
Proof. intros. now apply Z.clearbit_eqb. Qed.

Lemma clearbit_setbit_clear m i :
  0 <= i -> Z.testbit m i = false -> Z.clearbit (Z.setbit m i) i = m.
Proof.
  intros Hi Hb. apply Z.bits_inj'. intros n Hn.
  rewrite testbit_clearbit, testbit_setbit by assumption.
  destruct (Z.eqb_spec i n); subst; simpl; [now rewrite Hb | now rewrite andb_true_r].
Qed.

Lemma clearbit_clear m i :
  0 <= i -> Z.testbit m i = false -> Z.clearbit m i = m.
Proof.
  intros Hi Hb. apply Z.bits_inj'. intros n Hn.
  rewrite testbit_clearbit by assumption.
  destruct (Z.eqb_spec i n); subst; simpl; [now rewrite Hb | now rewrite andb_true_r].
Qed.

(** Counting the positions of a list that satisfy a test which changes at
    one position only. *)
Lemma filter_length_flip (f g : Z -> bool) (l : list Z) i :
  NoDup l -> In i l -> f i = false -> g i = true ->
  (forall j, j <> i -> g j = f j) ->
  length (List.filter g l) = S (length (List.filter f l)).
Proof.
  intros Hnd Hin Hf Hg Hsame. induction l as [| a l IH]; [contradiction |].
  apply NoDup_cons in Hnd as [Hna Hnd]. simpl.
  destruct (Z.eq_dec a i) as [-> | Hne].
  - rewrite Hf, Hg. simpl. f_equal. f_equal.
    apply filter_ext_in_iff. intros x Hx. apply Hsame. intros ->.
    apply Hna. now apply list_elem_of_In.
  - rewrite (Hsame a Hne). destruct Hin as [-> | Hin]; [congruence |].
    destruct (f a); simpl; rewrite IH; auto.
Qed.

Lemma seqZ_cells_NoDup : NoDup (seqZ 0 BOARD_CELLS).
Proof. apply NoDup_seqZ. Qed.

Lemma seqZ_cells_In i : In i (seqZ 0 BOARD_CELLS) <-> 0 <= i < 225.
Proof. rewrite <- list_elem_of_In, elem_of_seqZ. unfold BOARD_CELLS, BOARD_SIZE. lia. Qed.

Lemma popcount_setbit m i :
  0 <= i < 225 -> Z.testbit m i = false -> popcount (Z.setbit m i) = S (popcount m).
Proof.
  intros Hi Hb. unfold popcount.
  apply filter_length_flip with (i := i).
  - apply seqZ_cells_NoDup.
  - now apply seqZ_cells_In.
  - exact Hb.
  - rewrite testbit_setbit by lia. now rewrite Z.eqb_refl.
  - intros j Hj. rewrite testbit_setbit by lia.
    destruct (Z.eqb_spec i j); [congruence | reflexivity].
Qed.

Lemma popcount_clearbit m i :
  0 <= i < 225 -> Z.testbit m i = true -> popcount m = S (popcount (Z.clearbit m i)).
Proof.
  intros Hi Hb. unfold popcount.
  apply filter_length_flip with (i := i).
  - apply seqZ_cells_NoDup.
  - now apply seqZ_cells_In.
  - rewrite testbit_clearbit by lia. now rewrite Z.eqb_refl, andb_false_r.
  - exact Hb.
  - intros j Hj. rewrite testbit_clearbit by lia.
    destruct (Z.eqb_spec i j); [congruence | now rewrite andb_true_r].
Qed.

Lemma popcount_zero_bits m i :
  popcount m = O -> 0 <= i < 225 -> Z.testbit m i = false.
Proof.
  unfold popcount. intros H0 Hi.
  destruct (Z.testbit m i) eqn:E; [| reflexivity].
  assert (Hin : In i (List.filter (Z.testbit m) (seqZ 0 BOARD_CELLS))).
  { apply filter_In. split; [now apply seqZ_cells_In | exact E]. }
  destruct (List.filter (Z.testbit m) (seqZ 0 BOARD_CELLS)); [contradiction | discriminate].
Qed.

End Basics.

(* ===================================================================== *)
(** ** The board invariant and the boards the public operations produce *)
(* ===================================================================== *)

Ltac board_fields :=
  cbn [cells_ occupied_mask_ black_mask_ white_mask_ legal_mask_
       current_player_ is_terminal_ result_ history_] in *.

Section Dilation.

(** A loop whose every step only adds unoccupied bits adds only
    unoccupied bits. *)
Lemma fold_bits {A} (occ : BitBoard) (g : BitBoard -> A -> BitBoard) :
  (forall lm a i, Z.testbit (g lm a) i = true ->
                  Z.testbit lm i = true \/ Z.testbit occ i = false) ->
  forall (l : list A) lm i,
    Z.testbit (fold_left g l lm) i = true ->
    Z.testbit lm i = true \/ Z.testbit occ i = false.
Proof.
  intros Hg l. induction l as [| a l IH]; intros lm i H; [now left |].
  cbn [fold_left] in H. apply IH in H. destruct H as [H | H]; [| now right].
  now apply Hg in H.
Qed.

Lemma dilate_step_bits occ mx my lm d i :
  Z.testbit (dilate_step occ mx my lm d) i = true ->
  Z.testbit lm i = true \/ Z.testbit occ i = false.
Proof.
  unfold dilate_step. cbv zeta. intros H.
  destruct (in_bounds (mx + fst d) (my + snd d)) eqn:Hb; cbn [andb] in H; [| now left].
  destruct (Z.testbit occ (to_index (mx + fst d) (my + snd d))) eqn:Ho; cbn [negb] in H;
    [now left |].
  pose proof (to_index_range _ _ Hb) as Hr.
  rewrite testbit_setbit in H by lia.
  destruct (Z.eqb_spec (to_index (mx + fst d) (my + snd d)) i); [subst; now right | now left].
Qed.

Lemma dilate_bits occ mx my lm i :
  Z.testbit (dilate occ mx my lm) i = true ->
  Z.testbit lm i = true \/ Z.testbit occ i = false.
Proof. apply (fold_bits occ (dilate_step occ mx my)). apply dilate_step_bits. Qed.

Lemma rebuild_legal_bits occ hist i :
  Z.testbit (rebuild_legal occ hist) i = true -> Z.testbit occ i = false.
Proof.
  intros H. apply (fold_bits occ (rebuild_step occ)) in H.
  - destruct H as [H | H]; [now rewrite Z.bits_0 in H | exact H].
  - intros lm a j. apply dilate_bits.
Qed.

End Dilation.

Section Invariant.

Lemma neg8_player p : p = BLACK \/ p = WHITE -> neg8 p = - p.
Proof. intros [-> | ->]; reflexivity. Qed.

Lemma reset_inv : board_inv reset.
Proof.
  constructor; unfold reset; board_fields.
  - reflexivity.
  - intros i Hi. rewrite !Z.bits_0. unfold cell_at.
    rewrite lookup_replicate_2 by (unfold BOARD_CELLS, BOARD_SIZE; lia). now simpl.
  - intros i. now rewrite Z.bits_0.
  - now left.
  - now simpl.
  - intros m [].
  - constructor.
  - reflexivity.
  - reflexivity.
Qed.

Lemma is_empty_cell b x y :
  is_empty b x y = true <-> cell_at (cells_ b) (to_index x y) = EMPTY.
Proof. unfold is_empty, get. apply Z.eqb_eq. Qed.

Lemma make_move_unfold b m :
  make_move b m =
    {| cells_ := cell_set (cells_ b) (Move_to_index m) (current_player_ b);
       occupied_mask_ := Z.setbit (occupied_mask_ b) (Move_to_index m);
       black_mask_ := if current_player_ b =? BLACK
                      then Z.setbit (black_mask_ b) (Move_to_index m) else black_mask_ b;
       white_mask_ := if current_player_ b =? BLACK
                      then white_mask_ b else Z.setbit (white_mask_ b) (Move_to_index m);
       legal_mask_ := make_move_legal b m;
       current_player_ := neg8 (current_player_ b);
       is_terminal_ := if make_move_won b m then true
                       else if make_move_legal b m =? 0 then true else is_terminal_ b;
       result_ := if make_move_won b m
                  then (if current_player_ b =? BLACK then BLACK_WIN else WHITE_WIN)
                  else if make_move_legal b m =? 0 then DRAW else result_ b;
       history_ := history_ b ++ [m] |}.
Proof.
  unfold make_move, make_move_won, make_move_legal, check_win, count_direction,
    update_legal_mask.
  cbv beta zeta.
  cbn [cells_ occupied_mask_ black_mask_ white_mask_ legal_mask_
       current_player_ is_terminal_ result_ history_].
  reflexivity.
Qed.

Lemma make_move_legal_bits b m i :
  board_inv b ->
  in_bounds (Move_x m) (Move_y m) = true ->
  Z.testbit (make_move_legal b m) i = true ->
  Z.testbit (Z.setbit (occupied_mask_ b) (Move_to_index m)) i = false.
Proof.
  intros Hinv Hb. pose proof (to_index_range _ _ Hb) as Hr.
  change (to_index (Move_x m) (Move_y m)) with (Move_to_index m) in Hr.
  unfold make_move_legal. intros Hi.
  rewrite testbit_clearbit in Hi by lia.
  apply andb_true_iff in Hi as [Hi Hne]. apply negb_true_iff, Z.eqb_neq in Hne.
  apply dilate_bits in Hi. destruct Hi as [Hi | Hi]; [| exact Hi].
  rewrite testbit_setbit by lia.
  assert (E : (Move_to_index m =? i) = false) by now apply Z.eqb_neq.
  rewrite E. cbn [orb]. apply (inv_legal _ Hinv).
  destruct (match history_ b with [] => true | _ :: _ => false end && (legal_mask_ b =? 0));
    [| exact Hi].
  rewrite testbit_setbit, E in Hi by lia. exact Hi.
Qed.

Lemma make_move_inv b m :
  board_inv b ->
  in_bounds (Move_x m) (Move_y m) = true ->
  is_empty b (Move_x m) (Move_y m) = true ->
  board_inv (make_move b m).
Proof.
  intros Hinv Hb He.
  assert (Hleg := fun i => make_move_legal_bits b m i Hinv Hb).
  destruct Hinv as [Hlen Hmasks Hlegal Hplayer Hparity Hhist Hnodup Hpop Hres].
  apply is_empty_cell in He.
  pose proof (to_index_range _ _ Hb) as Hr.
  destruct (Hmasks _ Hr) as (Ho & Hbl & Hwh).
  rewrite He in Ho, Hbl, Hwh. cbn in Ho, Hbl, Hwh.
  rewrite make_move_unfold.
  change (to_index (Move_x m) (Move_y m)) with (Move_to_index m) in *.
  revert Hleg. generalize (make_move_legal b m) as legal'.
  generalize (make_move_won b m) as won. intros won legal' Hleg.
  constructor; board_fields.
  - now rewrite cell_set_length.
  - intros i Hi. destruct (Z.eq_dec (Move_to_index m) i) as [<- | Hne].
    + rewrite cell_at_set_eq by lia. rewrite testbit_setbit, Z.eqb_refl by lia.
      destruct Hplayer as [-> | ->]; cbn [orb negb]; change (BLACK =? BLACK) with true;
        change (WHITE =? BLACK) with false; change (BLACK =? EMPTY) with false;
        change (WHITE =? EMPTY) with false; change (BLACK =? WHITE) with false;
        change (WHITE =? WHITE) with true; cbn [negb];
        rewrite testbit_setbit, Z.eqb_refl by lia; rewrite ?Hwh, ?Hbl; auto.
    + rewrite cell_at_set_ne by lia. destruct (Hmasks _ Hi) as (Ho' & Hbl' & Hwh').
      rewrite testbit_setbit by lia.
      assert (E : (Move_to_index m =? i) = false) by now apply Z.eqb_neq. rewrite E. cbn [orb].
      split; [exact Ho' |].
      destruct (current_player_ b =? BLACK);
        rewrite ?testbit_setbit, ?E by lia; cbn [orb]; auto.
  - exact Hleg.
  - rewrite neg8_player by assumption. destruct Hplayer as [-> | ->]; [now right | now left].
  - rewrite neg8_player by assumption. rewrite length_app, Nat.add_1_r, Nat.even_succ.
    rewrite <- Nat.negb_even. destruct Hplayer as [Hp | Hp].
    + assert (Hev : Nat.even (length (history_ b)) = true) by now apply Hparity.
      rewrite Hp, Hev. split; discriminate.
    + destruct (Nat.even (length (history_ b))) eqn:Hev.
      * assert (Hp' : current_player_ b = BLACK) by now apply Hparity.
        rewrite Hp' in Hp. discriminate.
      * rewrite Hp. split; reflexivity.
  - intros m' Hin. apply in_app_or in Hin. destruct Hin as [Hin | [<- | []]].
    + destruct (Hhist _ Hin) as [Hb' Ho']. split; [exact Hb' |].
      rewrite testbit_setbit by lia. now rewrite Ho', orb_true_r.
    + split; [exact Hb |].
      rewrite testbit_setbit by lia. now rewrite Z.eqb_refl.
  - rewrite map_app. apply NoDup_app. split; [exact Hnodup |]. split.
    + intros j Hj Hj'. apply list_elem_of_In in Hj. apply in_map_iff in Hj as (m' & <- & Hin).
      apply list_elem_of_In in Hj'. destruct Hj' as [Hj' | []].
      destruct (Hhist _ Hin) as [_ Ho']. rewrite <- Hj' in Ho'. congruence.
    + apply NoDup_singleton.
  - rewrite popcount_setbit by (lia || assumption). rewrite Hpop, length_app.
    cbn [length]. lia.
  - destruct won; [discriminate |].
    destruct (legal' =? 0); [discriminate | exact Hres].
Qed.

Lemma unmake_move_last b h m :
  history_ b = h ++ [m] ->
  unmake_move b m =
    {| cells_ := cell_set (cells_ b) (Move_to_index m) EMPTY;
       occupied_mask_ := Z.clearbit (occupied_mask_ b) (Move_to_index m);
       black_mask_ := Z.clearbit (black_mask_ b) (Move_to_index m);
       white_mask_ := Z.clearbit (white_mask_ b) (Move_to_index m);
       legal_mask_ :=
         match h with
         | [] => Z.setbit 0 (to_index 7 7)
         | _ :: _ => rebuild_legal (Z.clearbit (occupied_mask_ b) (Move_to_index m)) h
         end;
       current_player_ := neg8 (current_player_ b);
       is_terminal_ := false;
       result_ := ONGOING;
       history_ := h |}.
Proof.
  intros Hh. unfold unmake_move. rewrite Hh.
  destruct (h ++ [m]) eqn:E; [now destruct h |].
  rewrite <- E, removelast_last. reflexivity.
Qed.

Lemma unmake_move_inv b m :
  board_inv b -> last (history_ b) = Some m -> board_inv (unmake_move b m).
Proof.
  intros [Hlen Hmasks Hlegal Hplayer Hparity Hhist Hnodup Hpop Hres] Hlast.
  apply last_Some in Hlast as [h Hh]. rewrite (unmake_move_last _ _ _ Hh).
  rewrite Hh in *.
  destruct (Hhist m) as [Hb Hom]; [apply in_or_app; right; now left |].
  pose proof (to_index_range _ _ Hb) as Hr. fold (Move_to_index m) in Hr.
  set (idx := Move_to_index m) in *.
  rewrite map_app in Hnodup. apply NoDup_app in Hnodup as (Hnd & Hfresh & _).
  assert (Hpop' : popcount (Z.clearbit (occupied_mask_ b) idx) = length h).
  { pose proof (popcount_clearbit _ _ Hr Hom) as E. rewrite Hpop, length_app in E.
    simpl in E. lia. }
  constructor; board_fields.
  - now rewrite cell_set_length.
  - intros i Hi. destruct (Z.eq_dec idx i) as [<- | Hne].
    + rewrite cell_at_set_eq by lia. rewrite !testbit_clearbit, Z.eqb_refl by lia.
      now rewrite !andb_false_r.
    + rewrite cell_at_set_ne by lia. rewrite !testbit_clearbit by lia.
      assert (E : (idx =? i) = false) by now apply Z.eqb_neq. rewrite E. simpl.
      rewrite !andb_true_r. now apply Hmasks.
  - intros i Hi. destruct h as [| m0 h'].
    + rewrite testbit_setbit in Hi by (unfold to_index, BOARD_SIZE; lia).
      rewrite Z.bits_0, orb_false_r in Hi. apply Z.eqb_eq in Hi. subst i.
      apply popcount_zero_bits; [exact Hpop' | unfold to_index, BOARD_SIZE; lia].
    + now apply rebuild_legal_bits in Hi.
  - rewrite neg8_player by assumption. destruct Hplayer as [-> | ->]; [now right | now left].
  - rewrite neg8_player by assumption.
    rewrite length_app, Nat.add_1_r, Nat.even_succ, <- Nat.negb_even in Hparity.
    destruct Hplayer as [Hp | Hp]; rewrite Hp in *.
    + destruct (Nat.even (length h)); cbn [negb] in Hparity.
      * assert (false = true) by now apply Hparity. discriminate.
      * split; intros H; discriminate H.
    + destruct (Nat.even (length h)); cbn [negb] in Hparity.
      * split; reflexivity.
      * assert (WHITE = BLACK) by now apply Hparity. discriminate.
  - intros m' Hin. destruct (Hhist m') as [Hb' Ho']; [apply in_or_app; now left |].
    split; [exact Hb' |]. rewrite testbit_clearbit by lia. rewrite Ho'. simpl.
    apply negb_true_iff, Z.eqb_neq. intros E.
    apply (Hfresh idx).
    * apply list_elem_of_In, in_map_iff. exists m'. split; [now symmetry | exact Hin].
    * simpl. apply list_elem_of_In. now left.
  - exact Hnd.
  - exact Hpop'.
  - reflexivity.
Qed.

Lemma reachable_inv b : reachable b -> board_inv b.
Proof.
  induction 1 as [| b m _ IH Hb He | b m _ IH Hl].
  - apply reset_inv.
  - now apply make_move_inv.
  - now apply unmake_move_inv.
Qed.

End Invariant.

(* ===================================================================== *)
(** ** Invariants of the public board operations *)
(* ===================================================================== *)

Section BoardTheorems.

Lemma disjoint_masks (a o : BitBoard) :
  (forall i, Z.testbit a i = true -> Z.testbit o i = false) -> Z.land a o = 0.
Proof.
  intros H. apply Z.bits_inj'. intros n _. rewrite Z.land_spec, Z.bits_0.
  destruct (Z.testbit a n) eqn:E; [| reflexivity]. now rewrite (H _ E).
Qed.

Lemma even_of_nat n : Z.even (Z.of_nat n) = Nat.even n.
Proof.
  destruct (Nat.even n) eqn:E.
  - apply Nat.even_spec in E as [k ->]. apply Z.even_spec. exists (Z.of_nat k). lia.
  - destruct (Z.even (Z.of_nat n)) eqn:E'; [| reflexivity].
    apply Z.even_spec in E' as [k Hk].
    assert (Nat.even n = true) by (apply Nat.even_spec; exists (Z.to_nat k); lia).
    congruence.
Qed.

(** C3. After every public operation of the board ([reset], [make_move] on
    an in-bounds empty cell, [unmake_move] of the last move of the history)
    the legal mask and the occupied mask are disjoint, [move_count] equals
    both the number of set bits of the occupied mask and the length of the
    history, and the player to move is black exactly when [move_count] is
    even. *)
Theorem board_invariants_hold (b : Board) :
  reachable b ->
  Z.land (legal_mask_ b) (occupied_mask_ b) = 0
  /\ move_count b = Z.of_nat (popcount (occupied_mask_ b))
  /\ move_count b = Z.of_nat (length (get_history b))
  /\ (current_player b = BLACK <-> Z.even (move_count b) = true).
Proof.
  intros Hr. apply reachable_inv in Hr.
  destruct Hr as [Hlen Hmasks Hlegal Hplayer Hparity Hhist Hnodup Hpop Hres].
  unfold move_count, get_history, current_player.
  split; [now apply disjoint_masks |].
  split; [now rewrite Hpop |].
  split; [reflexivity |].
  now rewrite Hparity, even_of_nat.
Qed.

Lemma board_invariants_hold_witness :
  reachable (unmake_move (make_move (make_move reset (Move_of 7 7)) (Move_of 8 7)) (Move_of 8 7))
  /\ move_count (unmake_move (make_move (make_move reset (Move_of 7 7)) (Move_of 8 7)) (Move_of 8 7))
     = Z.of_nat (popcount (occupied_mask_
         (unmake_move (make_move (make_move reset (Move_of 7 7)) (Move_of 8 7)) (Move_of 8 7)))).
Proof.
  assert (Hr : reachable
    (unmake_move (make_move (make_move reset (Move_of 7 7)) (Move_of 8 7)) (Move_of 8 7))).
  { apply reach_unmake; [apply reach_make; [apply reach_make; [apply reach_reset | |] | |] |];
      vm_compute; reflexivity. }
  split; [exact Hr |].
  exact (proj1 (proj2 (board_invariants_hold _ Hr))).
Defined.

(** C8. On a board with an empty history [unmake_move] changes nothing,
    whatever move it is given. *)
Theorem unmake_move_empty_history (b : Board) (m : Move) :
  history_ b = [] -> unmake_move b m = b.
Proof. intros H. unfold unmake_move. now rewrite H. Qed.

Lemma unmake_move_empty_history_witness :
  history_ reset = [] /\ unmake_move reset (Move_of 3 4) = reset.
Proof. split; [reflexivity | apply unmake_move_empty_history; reflexivity]. Defined.

(** On a board with an empty history that satisfies the invariant every
    cell is empty. *)
Lemma empty_history_cells b i :
  board_inv b -> history_ b = [] -> 0 <= i < 225 -> cell_at (cells_ b) i = EMPTY.
Proof.
  intros Hinv Hh Hi.
  pose proof (inv_popcount _ Hinv) as Hpop. rewrite Hh in Hpop.
  pose proof (popcount_zero_bits _ _ Hpop Hi) as Hbit.
  destruct (inv_masks _ Hinv _ Hi) as (Ho & _). rewrite Hbit in Ho.
  symmetry in Ho. apply negb_false_iff in Ho. now apply Z.eqb_eq.
Qed.

(** C5 fails as stated: with an empty history [is_legal] accepts the corner
    [(0, 0)] of the fresh board, which is in bounds and is not the centre. *)
Lemma is_legal_accepts_corner_on_fresh_board :
  history_ reset = [] /\ in_bounds 0 0 = true /\ (0, 0) <> (7, 7)
  /\ is_legal reset 0 0 = true.
Proof. repeat split; try reflexivity. discriminate. Qed.

(** C5, amended. On a board with an empty history [get_legal_moves]
    returns exactly the centre [(7, 7)], while [is_legal (x, y)] accepts
    exactly the in-bounds cells that are empty: on a board produced by the
    public operations, every in-bounds cell. *)
Theorem first_move_legality (b : Board) :
  history_ b = [] ->
  get_legal_moves b = [MkMove 7 7]
  /\ (forall x y, is_legal b x y = in_bounds x y && is_empty b x y)
  /\ (reachable b -> forall x y, is_legal b x y = in_bounds x y).
Proof.
  intros Hh. split; [| split].
  - unfold get_legal_moves. now rewrite Hh.
  - intros x y. unfold is_legal. rewrite Hh. now destruct (in_bounds x y).
  - intros Hr x y. apply reachable_inv in Hr. unfold is_legal. rewrite Hh.
    destruct (in_bounds x y) eqn:Hb; [| reflexivity]. cbn [negb].
    apply is_empty_cell. apply empty_history_cells; auto using to_index_range.
Qed.

Lemma first_move_legality_witness :
  history_ reset = [] /\ get_legal_moves reset = [MkMove 7 7].
Proof. split; [reflexivity | apply (proj1 (first_move_legality reset eq_refl))]. Defined.

End BoardTheorems.

(* ===================================================================== *)
(** ** Applying moves and undoing them in reverse *)
(* ===================================================================== *)

Section RoundTrip.

Lemma is_legal_move_precondition b m :
  board_inv b -> is_legal_move b m = true ->
  in_bounds (Move_x m) (Move_y m) = true /\ is_empty b (Move_x m) (Move_y m) = true.
Proof.
  intros Hinv. unfold is_legal_move, is_legal.
  destruct (in_bounds (Move_x m) (Move_y m)) eqn:Hb; cbn [negb]; [| discriminate].
  destruct (history_ b); intros H; [now split |].
  split; [reflexivity |].
  apply andb_true_iff in H as [_ H]. apply negb_true_iff in H.
  destruct (inv_masks _ Hinv _ (to_index_range _ _ Hb)) as (Ho & _).
  rewrite H in Ho. symmetry in Ho. apply negb_false_iff in Ho.
  exact Ho.
Qed.

Lemma make_moves_app b ms1 ms2 :
  make_moves b (ms1 ++ ms2) = make_moves (make_moves b ms1) ms2.
Proof. apply fold_left_app. Qed.

Lemma legal_sequence_app b ms1 ms2 :
  legal_sequence b (ms1 ++ ms2) <->
  legal_sequence b ms1 /\ legal_sequence (make_moves b ms1) ms2.
Proof.
  revert b. induction ms1 as [| m ms1 IH]; intros b; cbn [app legal_sequence].
  - unfold make_moves. cbn [fold_left]. tauto.
  - rewrite IH. unfold make_moves. cbn [fold_left]. tauto.
Qed.

Lemma make_move_history b m : history_ (make_move b m) = history_ b ++ [m].
Proof. now rewrite make_move_unfold. Qed.

Lemma make_moves_history b ms : history_ (make_moves b ms) = history_ b ++ ms.
Proof.
  revert b. induction ms as [| m ms IH]; intros b.
  - unfold make_moves. cbn [fold_left]. now rewrite app_nil_r.
  - change (make_moves b (m :: ms)) with (make_moves (make_move b m) ms).
    rewrite IH, make_move_history, <- app_assoc. reflexivity.
Qed.

Lemma legal_sequence_inv b ms :
  board_inv b -> legal_sequence b ms -> board_inv (make_moves b ms).
Proof.
  revert b. induction ms as [| m ms IH]; intros b Hinv Hl; [exact Hinv |].
  destruct Hl as [Hm Hl].
  change (make_moves b (m :: ms)) with (make_moves (make_move b m) ms).
  apply IH; [| exact Hl].
  destruct (is_legal_move_precondition _ _ Hinv Hm). now apply make_move_inv.
Qed.

(** Undoing the move just made restores everything except the flags and
    the legal mask, which come out as in [undone]. *)
Lemma unmake_make b m :
  board_inv b ->
  in_bounds (Move_x m) (Move_y m) = true ->
  is_empty b (Move_x m) (Move_y m) = true ->
  unmake_move (make_move b m) m = undone b.
Proof.
  intros Hinv Hb He. apply is_empty_cell in He.
  pose proof (to_index_range _ _ Hb) as Hr.
  destruct (inv_masks _ Hinv _ Hr) as (Ho & Hbl & Hwh).
  rewrite He in Ho, Hbl, Hwh.
  change (to_index (Move_x m) (Move_y m)) with (Move_to_index m) in *.
  change (negb (EMPTY =? EMPTY)) with false in Ho.
  change (EMPTY =? BLACK) with false in Hbl.
  change (EMPTY =? WHITE) with false in Hwh.
  rewrite (unmake_move_last (make_move b m) (history_ b) m) by apply make_move_history.
  rewrite make_move_unfold. board_fields. unfold undone.
  rewrite cell_set_restore by (rewrite ?(inv_length _ Hinv); lia || assumption).
  rewrite (clearbit_setbit_clear (occupied_mask_ b)) by (lia || assumption).
  assert (Hblack : Z.clearbit (if current_player_ b =? BLACK
      then Z.setbit (black_mask_ b) (Move_to_index m) else black_mask_ b) (Move_to_index m)
      = black_mask_ b).
  { destruct (current_player_ b =? BLACK);
      [apply clearbit_setbit_clear | apply clearbit_clear]; lia || assumption. }
  assert (Hwhite : Z.clearbit (if current_player_ b =? BLACK
      then white_mask_ b else Z.setbit (white_mask_ b) (Move_to_index m)) (Move_to_index m)
      = white_mask_ b).
  { destruct (current_player_ b =? BLACK);
      [apply clearbit_clear | apply clearbit_setbit_clear]; lia || assumption. }
  assert (Hpl : neg8 (neg8 (current_player_ b)) = current_player_ b).
  { destruct (inv_player _ Hinv) as [-> | ->]; reflexivity. }
  f_equal; [exact Hblack | exact Hwhite | exact Hpl].
Qed.

(** [unmake_move] reads neither the flags nor the legal mask. *)
Lemma unmake_undone b m :
  history_ b <> [] -> unmake_move (undone b) m = unmake_move b m.
Proof.
  intros Hne. unfold unmake_move, undone. board_fields.
  destruct (history_ b); [contradiction | reflexivity].
Qed.

Lemma undo_all_from_fresh ms :
  legal_sequence reset ms -> ms <> [] ->
  unmake_moves (make_moves reset ms) (rev ms) = reset_with_centre.
Proof.
  induction ms as [| m ms IH] using rev_ind; intros Hl Hne; [contradiction |].
  apply legal_sequence_app in Hl as [Hl [Hm _]].
  pose proof (legal_sequence_inv _ _ reset_inv Hl) as Hinv.
  destruct (is_legal_move_precondition _ _ Hinv Hm) as [Hb He].
  rewrite rev_app_distr, make_moves_app.
  change (make_moves (make_moves reset ms) [m]) with (make_move (make_moves reset ms) m).
  change (rev [m] ++ rev ms) with (m :: rev ms).
  change (unmake_moves (make_move (make_moves reset ms) m) (m :: rev ms))
    with (unmake_moves (unmake_move (make_move (make_moves reset ms) m) m) (rev ms)).
  rewrite unmake_make by assumption.
  destruct ms as [| m0 ms'] using rev_ind; [reflexivity |].
  clear IHms'. rewrite rev_app_distr.
  change (rev [m0] ++ rev ms') with (m0 :: rev ms').
  change (unmake_moves (undone (make_moves reset (ms' ++ [m0]))) (m0 :: rev ms'))
    with (unmake_moves (unmake_move (undone (make_moves reset (ms' ++ [m0]))) m0) (rev ms')).
  rewrite unmake_undone.
  - rewrite <- IH; [| exact Hl | now destruct ms'].
    rewrite rev_app_distr. reflexivity.
  - rewrite make_moves_history. now destruct ms'.
Qed.

(** C4 fails as stated: after one move made and undone the legal mask has
    the centre bit set, while the legal mask of a fresh board is empty. *)
Lemma undo_leaves_centre_in_legal_mask :
  legal_sequence reset [Move_of 7 7]
  /\ legal_mask_ (unmake_moves (make_moves reset [Move_of 7 7]) (rev [Move_of 7 7]))
     <> legal_mask_ reset.
Proof. split; [vm_compute; auto | vm_compute; discriminate]. Qed.

(** C4, amended. For every sequence of moves, each legal when applied in
    order to a fresh board, applying them all and undoing them in reverse
    order restores the cell array, the occupied, black and white masks,
    the history, the side to move, the terminal flag and the result of a
    fresh board; the legal mask is restored to the mask holding the centre
    cell alone when at least one move was made (and is the empty mask of
    the fresh board when none was), so that [get_legal_moves] and
    [is_legal] answer as on a fresh board. *)
Theorem undo_all_restores_fresh_board (ms : list Move) :
  legal_sequence reset ms ->
  unmake_moves (make_moves reset ms) (rev ms) =
    {| cells_ := cells_ reset;
       occupied_mask_ := occupied_mask_ reset;
       black_mask_ := black_mask_ reset;
       white_mask_ := white_mask_ reset;
       legal_mask_ := match ms with [] => legal_mask_ reset | _ :: _ => Z.setbit 0 (to_index 7 7) end;
       current_player_ := current_player_ reset;
       is_terminal_ := is_terminal_ reset;
       result_ := result_ reset;
       history_ := history_ reset |}
  /\ get_legal_moves (unmake_moves (make_moves reset ms) (rev ms)) = get_legal_moves reset
  /\ (forall x y, is_legal (unmake_moves (make_moves reset ms) (rev ms)) x y = is_legal reset x y).
Proof.
  intros Hl. destruct ms as [| m ms].
  - repeat split.
  - rewrite undo_all_from_fresh by (assumption || discriminate).
    repeat split.
Qed.

Lemma undo_all_restores_fresh_board_witness :
  legal_sequence reset [Move_of 7 7; Move_of 8 8; Move_of 6 6]
  /\ history_ (unmake_moves (make_moves reset [Move_of 7 7; Move_of 8 8; Move_of 6 6])
                 (rev [Move_of 7 7; Move_of 8 8; Move_of 6 6])) = [].
Proof.
  assert (Hl : legal_sequence reset [Move_of 7 7; Move_of 8 8; Move_of 6 6])
    by (vm_compute; auto).
  split; [exact Hl |].
  rewrite (proj1 (undo_all_restores_fresh_board _ Hl)). reflexivity.
Defined.

End RoundTrip.

(* ===================================================================== *)
(** ** The forced-move scans of the heuristic *)
(* ===================================================================== *)

Section ForcedMoves.

(** The heuristic and the board count stones with the same loop. *)
Lemma count_consecutive_loop_cells fuel b nx ny dx dy p c :
  count_consecutive_loop fuel b nx ny dx dy p c
  = count_direction_loop fuel (cells_ b) nx ny dx dy p c.
Proof.
  revert nx ny c. induction fuel as [| fuel IH]; intros nx ny c; [reflexivity |].
  cbn [count_consecutive_loop count_direction_loop]. unfold in_bounds, get.
  destruct ((0 <=? nx) && (nx <? BOARD_SIZE) && (0 <=? ny) && (ny <? BOARD_SIZE));
    cbn [andb]; [| reflexivity].
  destruct (cell_at (cells_ b) (to_index nx ny) =? p); cbn [negb]; [apply IH | reflexivity].
Qed.

(** A stone placed at [(x, y)] is not seen by a count that walks away from
    [(x, y)]. *)
Lemma count_loop_off_ray fuel cells x y dx dy p v k c :
  in_bounds x y = true -> dx <> 0 \/ dy <> 0 -> 1 <= k ->
  count_direction_loop fuel (cell_set cells (to_index x y) v)
    (x + k * dx) (y + k * dy) dx dy p c
  = count_direction_loop fuel cells (x + k * dx) (y + k * dy) dx dy p c.
Proof.
  intros Hb Hd. revert k c. induction fuel as [| fuel IH]; intros k c Hk; [reflexivity |].
  cbn [count_direction_loop].
  destruct (in_bounds (x + k * dx) (y + k * dy)) eqn:Hb'; cbn [andb]; [| reflexivity].
  rewrite cell_at_set_ne.
  - destruct (cell_at cells (to_index (x + k * dx) (y + k * dy)) =? p); [| reflexivity].
    replace (x + k * dx + dx) with (x + (k + 1) * dx) by lia.
    replace (y + k * dy + dy) with (y + (k + 1) * dy) by lia.
    apply IH. lia.
  - pose proof (to_index_range _ _ Hb). lia.
  - pose proof (to_index_range _ _ Hb'). lia.
  - intros E. apply to_index_inj in E; [| assumption | assumption]. nia.
Qed.

(** Fuel: on the ray from an in-bounds cell the loop has left the board
    after [BOARD_SIZE] steps, so more fuel than that changes nothing. *)
Lemma ray_leaves_board x y dx dy k :
  in_bounds x y = true -> dx <> 0 \/ dy <> 0 -> 15 <= k ->
  in_bounds (x + k * dx) (y + k * dy) = false.
Proof.
  intros Hb Hd Hk. apply in_bounds_true in Hb. apply in_bounds_false. intros [Hx Hy].
  destruct Hd as [Hd | Hd].
  - assert (1 <= dx \/ dx <= -1) as [H | H] by lia; nia.
  - assert (1 <= dy \/ dy <= -1) as [H | H] by lia; nia.
Qed.

Lemma count_loop_fuel cells x y dx dy p :
  in_bounds x y = true -> dx <> 0 \/ dy <> 0 ->
  forall (f1 f2 : nat) k c,
    1 <= k -> 15 - k <= Z.of_nat f1 -> 15 - k <= Z.of_nat f2 ->
    count_direction_loop f1 cells (x + k * dx) (y + k * dy) dx dy p c
    = count_direction_loop f2 cells (x + k * dx) (y + k * dy) dx dy p c.
Proof.
  intros Hb Hd f1. induction f1 as [| f1 IH]; intros f2 k c Hk H1 H2.
  - destruct f2 as [| f2]; [reflexivity |]. cbn [count_direction_loop].
    rewrite ray_leaves_board by (assumption || lia). reflexivity.
  - cbn [count_direction_loop].
    destruct (in_bounds (x + k * dx) (y + k * dy)) eqn:Hb'; cbn [andb].
    + destruct f2 as [| f2].
      * rewrite ray_leaves_board in Hb' by (assumption || lia). discriminate.
      * cbn [count_direction_loop]. rewrite Hb'. cbn [andb].
        destruct (cell_at cells (to_index (x + k * dx) (y + k * dy)) =? p); [| reflexivity].
        replace (x + k * dx + dx) with (x + (k + 1) * dx) by lia.
        replace (y + k * dy + dy) with (y + (k + 1) * dy) by lia.
        apply IH; lia.
    + destruct f2 as [| f2]; [reflexivity |]. cbn [count_direction_loop].
      rewrite Hb'. reflexivity.
Qed.

Lemma count_direction_fuel_enough b x y dx dy p (n : nat) :
  in_bounds x y = true -> dx <> 0 \/ dy <> 0 ->
  count_direction_loop (Z.to_nat BOARD_SIZE + n) (cells_ b) (x + dx) (y + dy) dx dy p 0
  = count_direction b x y dx dy p.
Proof.
  intros Hb Hd. unfold count_direction.
  replace (x + dx) with (x + 1 * dx) by lia. replace (y + dy) with (y + 1 * dy) by lia.
  apply count_loop_fuel; try assumption; unfold BOARD_SIZE; lia.
Qed.

Lemma existsb_pointwise {A} (f g : A -> bool) (l : list A) :
  (forall a, In a l -> f a = g a) -> existsb f l = existsb g l.
Proof.
  induction l as [| a l IH]; intros H; [reflexivity |].
  cbn [existsb]. rewrite (H a) by now left. rewrite IH; [reflexivity |].
  intros a' Ha'. apply H. now right.
Qed.

Lemma direction_nonzero d : In d DIRECTIONS -> fst d <> 0 \/ snd d <> 0.
Proof.
  unfold DIRECTIONS. intros [<- | [<- | [<- | [<- | []]]]]; cbn [fst snd]; lia.
Qed.

(** [check_win] after [make_move] is the test of the forced-move scan on
    the board before the move. *)
Lemma make_move_won_completes_five b m :
  length (cells_ b) = 225%nat ->
  in_bounds (Move_x m) (Move_y m) = true ->
  make_move_won b m = completes_five b (current_player_ b) m.
Proof.
  intros Hlen Hb. unfold make_move_won, completes_five, count_consecutive.
  change dirs with DIRECTIONS. apply existsb_pointwise. intros d Hd.
  pose proof (direction_nonzero d Hd) as Hnz.
  pose proof (to_index_range _ _ Hb) as Hr.
  unfold Move_to_index.
  rewrite cell_at_set_eq by (rewrite Hlen; lia).
  rewrite !count_consecutive_loop_cells.
  replace (Move_x m + fst d) with (Move_x m + 1 * fst d) by lia.
  replace (Move_y m + snd d) with (Move_y m + 1 * snd d) by lia.
  replace (Move_x m + - fst d) with (Move_x m + 1 * - fst d) by lia.
  replace (Move_y m + - snd d) with (Move_y m + 1 * - snd d) by lia.
  rewrite !count_loop_off_ray by (assumption || lia).
  generalize (count_direction_loop (Z.to_nat BOARD_SIZE) (cells_ b)
                (Move_x m + 1 * fst d) (Move_y m + 1 * snd d) (fst d) (snd d)
                (current_player_ b) 0) as cp.
  generalize (count_direction_loop (Z.to_nat BOARD_SIZE) (cells_ b)
                (Move_x m + 1 * - fst d) (Move_y m + 1 * - snd d) (- fst d) (- snd d)
                (current_player_ b) 0) as cn.
  intros cn cp. destruct (Z.leb_spec 5 (1 + cp + cn)), (Z.leb_spec 4 (cp + cn)); lia.
Qed.

(** A move wins at once exactly when it passes the test of the scan,
    unless the player to move is already recorded as the winner. *)
Lemma wins_immediately_iff b m :
  length (cells_ b) = 225%nat ->
  current_player_ b = BLACK \/ current_player_ b = WHITE ->
  get_winner b <> current_player_ b ->
  in_bounds (Move_x m) (Move_y m) = true ->
  wins_immediately b m <-> completes_five b (current_player_ b) m = true.
Proof.
  intros Hlen Hp Hres Hb.
  rewrite <- make_move_won_completes_five by assumption.
  unfold wins_immediately, is_terminal, get_winner, current_player in *.
  rewrite make_move_unfold. board_fields.
  generalize (make_move_won b m) as won. generalize (make_move_legal b m =? 0) as drawn.
  intros drawn won.
  destruct won, drawn, Hp as [Hp | Hp]; rewrite Hp in *;
    destruct (result_ b); cbn; intuition (discriminate || congruence).
Qed.

(** While the game is not over nobody is recorded as the winner. *)
Lemma game_not_over_no_winner b p :
  board_inv b -> is_terminal b = false -> p = BLACK \/ p = WHITE -> get_winner b <> p.
Proof.
  intros Hinv Hnt Hp. unfold get_winner. rewrite (inv_result _ Hinv Hnt).
  destruct Hp as [-> | ->]; discriminate.
Qed.

Lemma first_move_found (test : Move -> bool) (l : list Move) (d m : Move) :
  In m l -> test m = true ->
  In (first_move test l d) l /\ test (first_move test l d) = true.
Proof.
  induction l as [| a l IH]; intros Hin Ht; [contradiction |].
  cbn [first_move]. destruct (test a) eqn:Ea; [split; [now left | exact Ea] |].
  destruct Hin as [-> | Hin]; [congruence |].
  destruct (IH Hin Ht) as [H1 H2]. split; [now right | exact H2].
Qed.

Lemma first_move_none (test : Move -> bool) (l : list Move) (d : Move) :
  (forall m, In m l -> test m = false) -> first_move test l d = d.
Proof.
  induction l as [| a l IH]; intros H; [reflexivity |].
  cbn [first_move]. rewrite (H a) by now left. apply IH. intros m Hm. apply H. now right.
Qed.

(** The legal moves of a board with a non-empty history are the in-bounds
    cells whose bit is set in the legal mask, in index order. *)
Lemma get_legal_moves_In b m :
  history_ b <> [] ->
  In m (get_legal_moves b) <->
  in_bounds (Move_x m) (Move_y m) = true /\ Z.testbit (legal_mask_ b) (Move_to_index m) = true.
Proof.
  intros Hne. unfold get_legal_moves. destruct (history_ b) as [| h0 hs]; [contradiction |].
  rewrite in_map_iff. split.
  - intros (idx & <- & Hin). apply filter_In in Hin as [Hin Hbit].
    apply seqZ_cells_In in Hin. destruct (to_xy_range _ Hin) as (Hx & Hy & He).
    rewrite Move_of_small by lia. unfold Move_to_index. cbn [Move_x Move_y].
    rewrite He. split; [apply in_bounds_true; lia | exact Hbit].
  - intros [Hb Hbit]. exists (Move_to_index m). split.
    + unfold Move_to_index. destruct (to_xy_of_index _ _ Hb) as [-> ->].
      apply in_bounds_true in Hb. rewrite Move_of_small by lia. apply Move_eta.
    + apply filter_In. split; [| exact Hbit].
      apply seqZ_cells_In. now apply to_index_range.
Qed.

Lemma is_legal_move_In b m :
  board_inv b -> history_ b <> [] ->
  is_legal_move b m = true <-> In m (get_legal_moves b).
Proof.
  intros Hinv Hne. rewrite get_legal_moves_In by assumption.
  unfold is_legal_move, is_legal, Move_to_index.
  destruct (history_ b) as [| h0 hs]; [contradiction |].
  destruct (in_bounds (Move_x m) (Move_y m)); cbn [negb]; [| intuition discriminate].
  destruct (Z.testbit (legal_mask_ b) (to_index (Move_x m) (Move_y m))) eqn:E;
    [| intuition discriminate].
  rewrite (inv_legal _ Hinv _ E). intuition.
Qed.

(** On a board whose cells are all empty no count finds a stone. *)
Lemma completes_five_empty_board b p m :
  (forall i, 0 <= i < 225 -> cell_at (cells_ b) i = EMPTY) -> p <> EMPTY ->
  completes_five b p m = false.
Proof.
  intros Hcells Hp. unfold completes_five, count_consecutive.
  assert (H0 : forall nx ny dx dy,
    count_consecutive_loop (Z.to_nat BOARD_SIZE) b nx ny dx dy p 0 = 0).
  { intros nx ny dx dy. rewrite count_consecutive_loop_cells.
    change (Z.to_nat BOARD_SIZE) with 15%nat. cbn [count_direction_loop].
    destruct (in_bounds nx ny) eqn:Hb; [| reflexivity].
    rewrite Hcells by now apply to_index_range.
    destruct (Z.eqb_spec EMPTY p); [congruence | reflexivity]. }
  apply not_true_is_false. intros H. apply existsb_exists in H as (d & _ & H).
  rewrite !H0 in H. discriminate.
Qed.

Lemma completes_five_same_cells b1 b2 p m :
  cells_ b1 = cells_ b2 -> completes_five b1 p m = completes_five b2 p m.
Proof.
  intros Hc. unfold completes_five, count_consecutive. apply existsb_pointwise.
  intros d _. rewrite !count_consecutive_loop_cells. now rewrite Hc.
Qed.

Lemma legal_sequence_reachable b ms :
  reachable b -> legal_sequence b ms -> reachable (make_moves b ms).
Proof.
  revert b. induction ms as [| m ms IH]; intros b Hr Hl; [exact Hr |].
  destruct Hl as [Hm Hl].
  change (make_moves b (m :: ms)) with (make_moves (make_move b m) ms).
  apply IH; [| exact Hl].
  destruct (is_legal_move_precondition _ _ (reachable_inv _ Hr) Hm).
  now apply reach_make.
Qed.

Lemma in_bounds_is_valid m : in_bounds (Move_x m) (Move_y m) = true -> is_valid m = true.
Proof. rewrite in_bounds_true. unfold is_valid. lia. Qed.

(** The scan of the legal moves with the test [completes_five]. *)
Lemma scan_finds b p d :
  board_inv b ->
  (exists m, is_legal_move b m = true /\ completes_five b p m = true) ->
  p <> EMPTY ->
  is_legal_move b (first_move (completes_five b p) (get_legal_moves b) d) = true
  /\ completes_five b p (first_move (completes_five b p) (get_legal_moves b) d) = true.
Proof.
  intros Hinv (m & Hleg & Hc) Hp.
  destruct (history_ b) as [| h0 hs] eqn:Hh.
  - rewrite completes_five_empty_board in Hc; [discriminate | | exact Hp].
    intros i Hi. now apply empty_history_cells.
  - assert (Hne : history_ b <> []) by (rewrite Hh; discriminate).
    apply (is_legal_move_In _ _ Hinv Hne) in Hleg.
    destruct (first_move_found _ _ d _ Hleg Hc) as [Hin Ht].
    split; [now apply (is_legal_move_In _ _ Hinv Hne) | exact Ht].
Qed.

Lemma scan_misses b p d :
  board_inv b ->
  (forall m, is_legal_move b m = true -> completes_five b p m = false) ->
  p <> EMPTY ->
  first_move (completes_five b p) (get_legal_moves b) d = d.
Proof.
  intros Hinv Hno Hp. apply first_move_none. intros m Hin.
  destruct (history_ b) as [| h0 hs] eqn:Hh.
  - apply completes_five_empty_board; [| exact Hp].
    intros i Hi. now apply empty_history_cells.
  - apply Hno. apply is_legal_move_In; [exact Hinv | rewrite Hh; discriminate | exact Hin].
Qed.

End ForcedMoves.

(* ===================================================================== *)
(** ** The search: value of a terminal rollout, zero time budget *)
(* ===================================================================== *)

Section SearchTheorems.

(** C6 fails as stated: on the terminal board [black_won] the player on
    turn (white) is not the winner (black); the specified value is -1 and
    [rollout] returns +1. *)
Lemma rollout_terminal_sign_differs :
  is_terminal black_won = true
  /\ get_result black_won = BLACK_WIN
  /\ current_player black_won <> get_winner black_won
  /\ rollout_terminal_as_specified black_won = (-1 # 1)%Q
  /\ fst (rollout unit (fun _ r => (0%Q, r)) (fun _ r => (0%Q, r))
            (MkConfig (12 # 10) 10000 1000 0 true true) black_won tt) = (1 # 1)%Q.
Proof. vm_compute. repeat split. discriminate. Qed.

(** C6, amended. When the board passed to [rollout] is terminal, the value
    is 0 if the result is a draw (no winner), -1 if the player on turn
    equals the winner, and +1 otherwise; the generator is not used. *)
Theorem rollout_terminal_value
    (RNG : Type) (heuristic_rollout random_rollout : Board -> RNG -> Q * RNG)
    (cfg : MCTSConfig) (board : Board) (rng : RNG) :
  is_terminal board = true ->
  snd (rollout RNG heuristic_rollout random_rollout cfg board rng) = rng
  /\ (get_result board = DRAW ->
        fst (rollout RNG heuristic_rollout random_rollout cfg board rng) = 0%Q)
  /\ (get_winner board <> EMPTY -> current_player board = get_winner board ->
        fst (rollout RNG heuristic_rollout random_rollout cfg board rng) = (-1 # 1)%Q)
  /\ (get_winner board <> EMPTY -> current_player board <> get_winner board ->
        fst (rollout RNG heuristic_rollout random_rollout cfg board rng) = (1 # 1)%Q).
Proof.
  intros Ht. unfold rollout. rewrite Ht. cbn [fst snd]. unfold rollout_terminal.
  split; [reflexivity |].
  split; [| split].
  - intros Hd. unfold get_winner. unfold get_result in Hd. now rewrite Hd.
  - intros Hw Hc. destruct (Z.eqb_spec (get_winner board) EMPTY); [contradiction |].
    rewrite Hc, Z.eqb_refl. reflexivity.
  - intros Hw Hc. destruct (Z.eqb_spec (get_winner board) EMPTY); [contradiction |].
    destruct (Z.eqb_spec (get_winner board) (current_player board)); [congruence | reflexivity].
Qed.

Lemma rollout_terminal_value_witness :
  is_terminal black_won = true
  /\ snd (rollout unit (fun _ r => (0%Q, r)) (fun _ r => (0%Q, r))
            (MkConfig (12 # 10) 10000 1000 0 true true) black_won tt) = tt.
Proof.
  split; [vm_compute; reflexivity |].
  apply (rollout_terminal_value unit (fun _ r => (0%Q, r)) (fun _ r => (0%Q, r))).
  vm_compute. reflexivity.
Defined.

(** C7. When [find_winning_move] and [find_blocking_move] both return the
    invalid sentinel, the root does not have exactly one untried move (in
    particular when it has more than one) and the clock has not run
    backwards, [search] with a time limit of zero milliseconds performs no
    iteration (the counter is 0 and the generator untouched) and returns
    the first untried move of the root, or the invalid sentinel when the
    root has no untried move. *)
Theorem search_zero_time_limit
    (RNG : Type) (heuristic_rollout random_rollout : Board -> RNG -> Q * RNG)
    (descend : MCTSConfig -> MCTSNode -> Board -> RNG -> MCTSNode * list nat * Board * RNG)
    (backpropagate : MCTSNode -> list nat -> Q -> Z -> MCTSNode)
    (elapsed : Z -> Z) (self : MCTS RNG) (board : Board) :
  find_winning_move board = Move_invalid ->
  find_blocking_move board = Move_invalid ->
  length (get_legal_moves board) <> 1%nat ->
  0 <= elapsed 0 ->
  search RNG heuristic_rollout random_rollout descend backpropagate elapsed self board 0
  = (match get_legal_moves board with m :: _ => m | [] => Move_invalid end,
     {| config_ := config_ RNG self; rng_ := rng_ RNG self; iterations_ := 0 |}).
Proof.
  intros Hw Hb Hlen Hclock. unfold search. rewrite Hw, Hb.
  change (is_valid Move_invalid) with false. cbv iota.
  unfold init_untried_moves, new_node. cbn [untried_moves].
  assert (Hloop : forall fuel cfg root rng,
    search_loop RNG heuristic_rollout random_rollout descend backpropagate elapsed
      fuel cfg 0 board root rng 0 = (root, rng, 0)).
  { intros [| fuel] cfg root rng; [reflexivity |]. cbn [search_loop].
    destruct (Z.leb_spec 0 (elapsed 0)); [reflexivity | lia]. }
  rewrite Hloop. unfold select_best_move. cbn [children untried_moves].
  generalize dependent (get_legal_moves board). intros l Hlen.
  destruct l as [| m [| m' l']]; [reflexivity | now contradiction Hlen | reflexivity].
Qed.

Lemma search_zero_time_limit_witness :
  find_winning_move (make_move reset (Move_of 7 7)) = Move_invalid
  /\ find_blocking_move (make_move reset (Move_of 7 7)) = Move_invalid
  /\ (1 < length (get_legal_moves (make_move reset (Move_of 7 7))))%nat
  /\ search unit (fun _ r => (0%Q, r)) (fun _ r => (0%Q, r))
       (fun _ n b r => (n, [], b, r)) (fun n _ _ _ => n) (fun _ => 0)
       {| config_ := MkConfig (12 # 10) 10000 1000 0 true true; rng_ := tt; iterations_ := 7 |}
       (make_move reset (Move_of 7 7)) 0
     = (MkMove 5 5,
        {| config_ := MkConfig (12 # 10) 10000 1000 0 true true; rng_ := tt; iterations_ := 0 |}).
Proof.
  split; [vm_compute; reflexivity |]. split; [vm_compute; reflexivity |].
  split; [vm_compute; lia |].
  rewrite search_zero_time_limit;
    [vm_compute; reflexivity | vm_compute; reflexivity | vm_compute; reflexivity
     | vm_compute; discriminate | lia].
Defined.

End SearchTheorems.

(* ===================================================================== *)
(** ** The move parser of the front end *)
(* ===================================================================== *)

Section ParseMove.

Lemma isdigit_code c : isdigit c = true -> 48 <= code c <= 57.
Proof. unfold isdigit. lia. Qed.

Lemma digit_not_alpha c : isdigit c = true -> isalpha c = false.
Proof. intros H. apply isdigit_code in H. unfold isalpha. lia. Qed.

Lemma digit_not_space c : isdigit c = true -> isspace c = false.
Proof. intros H. apply isdigit_code in H. unfold isspace. lia. Qed.

Lemma read_digits_all s acc n :
  Forall (fun c => isdigit c = true) s ->
  read_digits s acc n
  = (fold_left (fun acc c => 10 * acc + (code c - 48)) s acc, (n + length s)%nat).
Proof.
  intros H. revert acc n. induction H as [| c s Hc _ IH]; intros acc n.
  - cbn [read_digits fold_left length]. now rewrite Nat.add_0_r.
  - cbn [read_digits fold_left length]. rewrite Hc, IH. f_equal. lia.
Qed.

Lemma fold_digits_nonneg s acc :
  Forall (fun c => isdigit c = true) s -> 0 <= acc ->
  0 <= fold_left (fun acc c => 10 * acc + (code c - 48)) s acc.
Proof.
  intros H. revert acc. induction H as [| c s Hc _ IH]; intros acc Ha; [exact Ha |].
  cbn [fold_left]. apply IH. apply isdigit_code in Hc. lia.
Qed.

(** [stoi] on a string of digits: its value, unless it exceeds [INT_MAX]. *)
Lemma stoi_digit_string s :
  digit_string s ->
  stoi s = if decimal_value s <=? INT_MAX then Some (decimal_value s) else None.
Proof.
  intros [Hne Hd]. destruct s as [| c s]; [contradiction |].
  pose proof (Forall_inv Hd) as Hc. cbv beta in Hc.
  pose proof (isdigit_code _ Hc) as Hcode.
  unfold stoi. cbn [skip_spaces]. rewrite (digit_not_space _ Hc).
  destruct (Z.eqb_spec (code c) 45); [lia |].
  destruct (Z.eqb_spec (code c) 43); [lia |].
  rewrite read_digits_all by exact Hd. cbn [length Nat.add].
  fold (decimal_value (c :: s)).
  pose proof (fold_digits_nonneg (c :: s) 0 Hd ltac:(lia)) as Hpos.
  fold (decimal_value (c :: s)) in Hpos.
  destruct (Z.leb_spec INT_MIN (decimal_value (c :: s))); [reflexivity |].
  unfold INT_MIN in *. lia.
Qed.

Lemma find_comma_digits xs ys :
  Forall (fun c => isdigit c = true) xs ->
  find_comma (xs ++ ","%char :: ys) = Some (length xs).
Proof.
  intros H. induction H as [| c s Hc _ IH]; [reflexivity |].
  cbn [app find_comma length]. apply isdigit_code in Hc.
  destruct (Z.eqb_spec (code c) 44); [lia |]. now rewrite IH.
Qed.

Lemma finish_parse_cases x y :
  finish_parse x y = if in_bounds x y then MkMove x y else Move_invalid.
Proof.
  unfold finish_parse. destruct (in_bounds x y) eqn:Hb; [| reflexivity].
  apply in_bounds_true in Hb. apply Move_of_small; lia.
Qed.

Lemma in_bounds_above_int x y : INT_MAX < x \/ INT_MAX < y -> in_bounds x y = false.
Proof. intros H. apply in_bounds_false. unfold INT_MAX in H. lia. Qed.

Lemma finish_parse_sound x y :
  finish_parse x y = Move_invalid
  \/ in_bounds (Move_x (finish_parse x y)) (Move_y (finish_parse x y)) = true.
Proof.
  rewrite finish_parse_cases. destruct (in_bounds x y) eqn:Hb; [right; exact Hb | now left].
Qed.

(** Every result of the parser is the sentinel or a move in bounds. *)
Lemma parse_move_sound (s : string) :
  parse_move s = Move_invalid
  \/ in_bounds (Move_x (parse_move s)) (Move_y (parse_move s)) = true.
Proof.
  unfold parse_move.
  destruct (length (list_ascii_of_string s) <? 2)%nat; [now left |].
  destruct (list_ascii_of_string s) as [| c0 rest]; [now left |].
  destruct (isalpha c0).
  - destruct (stoi (skipn 1 (c0 :: rest))); [apply finish_parse_sound | now left].
  - destruct (find_comma (c0 :: rest)) as [k |]; [| apply finish_parse_sound].
    destruct (stoi (firstn k (c0 :: rest))); [| now left].
    destruct (stoi (skipn (k + 1) (c0 :: rest))); [apply finish_parse_sound | now left].
Qed.

(** An input that does not start with a letter and has no comma, or one
    side of whose comma [stoi] rejects, yields the sentinel. *)
Lemma parse_move_unparsable (s : string) (c0 : ascii) (rest : list ascii) :
  list_ascii_of_string s = c0 :: rest -> isalpha c0 = false ->
  match find_comma (c0 :: rest) with
  | None => True
  | Some k => stoi (firstn k (c0 :: rest)) = None \/ stoi (skipn (k + 1) (c0 :: rest)) = None
  end ->
  parse_move s = Move_invalid.
Proof.
  intros Hs Ha Hbad. unfold parse_move. rewrite Hs, Ha.
  destruct (length (c0 :: rest) <? 2)%nat; [reflexivity |].
  destruct (find_comma (c0 :: rest)) as [k |]; [| reflexivity].
  destruct Hbad as [-> | Hbad]; [reflexivity |].
  rewrite Hbad. now destruct (stoi (firstn k (c0 :: rest))).
Qed.

Lemma space_not_alpha c : isspace c = true -> isalpha c = false.
Proof. unfold isspace, isalpha. lia. Qed.

Lemma space_not_comma c : isspace c = true -> (code c =? 44) = false.
Proof. unfold isspace. lia. Qed.

Lemma digit_not_comma c : isdigit c = true -> (code c =? 44) = false.
Proof. unfold isdigit. lia. Qed.

Lemma skip_spaces_app ws t :
  Forall (fun c => isspace c = true) ws -> skip_spaces (ws ++ t) = skip_spaces t.
Proof.
  induction 1 as [| c ws Hc _ IH]; [reflexivity |].
  cbn [app skip_spaces]. now rewrite Hc.
Qed.

(** Reading digits stops at the first character that is not a digit. *)
Lemma read_digits_app ds rest acc n :
  Forall (fun c => isdigit c = true) ds ->
  match rest with c :: _ => isdigit c = false | [] => True end ->
  read_digits (ds ++ rest) acc n
  = (fold_left (fun acc c => 10 * acc + (code c - 48)) ds acc, (n + length ds)%nat).
Proof.
  intros Hds Hrest. revert acc n.
  induction Hds as [| c ds Hc _ IH]; intros acc n.
  - cbn [app fold_left length]. rewrite Nat.add_0_r.
    destruct rest as [| c rest]; [reflexivity |]. cbn [read_digits]. now rewrite Hrest.
  - cbn [app read_digits fold_left length]. rewrite Hc, IH. f_equal. lia.
Qed.

(** [stoi] on the texts of integers: the value when it fits an [int]. *)
Lemma stoi_int_text s v :
  int_text s v ->
  stoi s = if (INT_MIN <=? v) && (v <=? INT_MAX) then Some v else None.
Proof.
  intros (ws & sign & ds & rest & -> & Hws & Hsign & [Hne Hds] & Hrest).
  destruct ds as [| d0 ds']; [contradiction |].
  pose proof (Forall_inv Hds) as Hd0. cbv beta in Hd0.
  pose proof (isdigit_code _ Hd0) as Hcode.
  unfold stoi. rewrite skip_spaces_app by exact Hws.
  destruct Hsign as [[-> ->] | [[-> ->] | [-> ->]]].
  - cbn [app skip_spaces]. rewrite (digit_not_space _ Hd0).
    destruct (Z.eqb_spec (code d0) 45); [lia |].
    destruct (Z.eqb_spec (code d0) 43); [lia |].
    change (d0 :: ds' ++ rest) with ((d0 :: ds') ++ rest).
    rewrite (read_digits_app (d0 :: ds') rest 0 0 Hds Hrest).
    cbn [length Nat.add]. reflexivity.
  - cbn [app skip_spaces]. change (isspace "+"%char) with false. cbv iota.
    change (code "+"%char =? 45) with false. change (code "+"%char =? 43) with true.
    cbv iota.
    change (d0 :: ds' ++ rest) with ((d0 :: ds') ++ rest).
    rewrite (read_digits_app (d0 :: ds') rest 0 0 Hds Hrest).
    cbn [length Nat.add]. reflexivity.
  - cbn [app skip_spaces]. change (isspace "-"%char) with false. cbv iota.
    change (code "-"%char =? 45) with true. cbv iota.
    change (d0 :: ds' ++ rest) with ((d0 :: ds') ++ rest).
    rewrite (read_digits_app (d0 :: ds') rest 0 0 Hds Hrest).
    cbn [length Nat.add]. reflexivity.
Qed.

Lemma find_comma_app xs ys :
  find_comma xs = None -> find_comma (xs ++ ","%char :: ys) = Some (length xs).
Proof.
  induction xs as [| c xs IH]; cbn [app find_comma length]; [reflexivity |].
  destruct (code c =? 44); [discriminate |].
  destruct (find_comma xs); [discriminate |]. intros _. now rewrite IH.
Qed.

Lemma find_comma_none_app xs ys :
  find_comma xs = None -> find_comma ys = None -> find_comma (xs ++ ys) = None.
Proof.
  induction xs as [| c xs IH]; cbn [app find_comma]; [auto |].
  destruct (code c =? 44); [discriminate |].
  destruct (find_comma xs); [discriminate |]. intros _ Hy. now rewrite IH.
Qed.

Lemma find_comma_forall (P : ascii -> bool) xs :
  (forall c, P c = true -> (code c =? 44) = false) ->
  Forall (fun c => P c = true) xs -> find_comma xs = None.
Proof.
  intros HP. induction 1 as [| c xs Hc _ IH]; cbn [find_comma]; [reflexivity |].
  now rewrite (HP _ Hc), IH.
Qed.

(** The text of an integer does not start with a letter. *)
Lemma int_text_head s v :
  int_text s v -> match s with c :: _ => isalpha c = false | [] => True end.
Proof.
  intros (ws & sign & ds & rest & -> & Hws & Hsign & [Hne Hds] & _).
  destruct ws as [| w ws]; [| cbn [app]; apply space_not_alpha, (Forall_inv Hws)].
  destruct ds as [| d0 ds']; [contradiction |].
  destruct Hsign as [[-> _] | [[-> _] | [-> _]]]; cbn [app]; [| reflexivity | reflexivity].
  apply digit_not_alpha, (Forall_inv Hds).
Qed.

Lemma digit_string_int_text s : digit_string s -> int_text s (decimal_value s).
Proof.
  intros Hd. exists [], [], s, []. rewrite app_nil_r. cbn [app].
  split; [reflexivity |]. split; [constructor |]. split; [now left |]. split; [exact Hd | exact I].
Qed.

(** The comma form of the parser, in terms of what [stoi] makes of the two
    sides of the first comma. *)
Lemma parse_move_comma_form xs ys :
  find_comma xs = None ->
  match xs with c :: _ => isalpha c = false | [] => True end ->
  parse_move (comma_pair xs ys)
  = match stoi xs, stoi ys with
    | Some x, Some y => if in_bounds x y then MkMove x y else Move_invalid
    | _, _ => Move_invalid
    end.
Proof.
  intros Hcomma Hhead. unfold parse_move, comma_pair.
  rewrite list_ascii_of_string_of_list_ascii.
  destruct (Nat.ltb_spec (length (xs ++ ","%char :: ys)) 2) as [Hlen | Hlen].
  - rewrite length_app in Hlen. cbn [length] in Hlen.
    destruct xs as [| c xs]; [| cbn [length] in Hlen; lia].
    destruct ys as [| c ys]; [| cbn [length] in Hlen; lia]. reflexivity.
  - assert (Hfirst : match xs ++ ","%char :: ys with
                     | c :: _ => isalpha c = false
                     | [] => True
                     end).
    { destruct xs as [| c xs]; [reflexivity | exact Hhead]. }
    pose proof (find_comma_app xs ys Hcomma) as Hfind.
    assert (Hx : firstn (length xs) (xs ++ ","%char :: ys) = xs).
    { rewrite firstn_app, Nat.sub_diag, firstn_all. cbn [firstn]. apply app_nil_r. }
    assert (Hy : skipn (length xs + 1) (xs ++ ","%char :: ys) = ys).
    { replace (length xs + 1)%nat with (length xs + 1 + 0)%nat by lia.
      rewrite <- Nat.add_assoc, skipn_app, skipn_all2 by lia.
      replace (length xs + (1 + 0) - length xs)%nat with 1%nat by lia.
      cbn [skipn app]. now rewrite ?skipn_O. }
    revert Hfirst Hfind Hx Hy. generalize (xs ++ ","%char :: ys) as s. intros s.
    destruct s as [| c0 s']; [intros _ H; discriminate H |].
    intros -> -> -> ->.
    destruct (stoi xs) as [x |]; [| reflexivity].
    destruct (stoi ys) as [y |]; [| reflexivity].
    apply finish_parse_cases.
Qed.

Lemma int_text_no_comma_head ws sign ds :
  Forall (fun c => isspace c = true) ws ->
  (sign = [] \/ sign = ["+"%char] \/ sign = ["-"%char]) ->
  Forall (fun c => isdigit c = true) ds ->
  find_comma (ws ++ sign ++ ds) = None.
Proof.
  intros Hws Hsign Hds.
  apply find_comma_none_app; [exact (find_comma_forall _ _ space_not_comma Hws) |].
  apply find_comma_none_app; [| exact (find_comma_forall _ _ digit_not_comma Hds)].
  destruct Hsign as [-> | [-> | ->]]; reflexivity.
Qed.

(** C10. Besides the letter-number notation the parser accepts a pair
    [x,y] of 0-based integers.  For every input [xs,ys] whose first part
    has no comma and does not start with a letter, the result is fixed by
    what [stoi] reads on the two sides of the comma: the move [(x, y)]
    when both sides are read and the two numbers are in bounds, the
    invalid sentinel when they are out of bounds or when [stoi] rejects a
    side.  [stoi] reads the text of an integer (white space, an optional
    sign, decimal digits, then anything not starting with a digit) as that
    integer when it fits an [int]; so for the texts of two integers the
    result is the move [(x, y)] when [0 <= x, y < 15] and the invalid
    sentinel otherwise, negative numbers and numbers beyond the range of
    [int] included.  Whatever the input, the parser returns the invalid
    sentinel or a move in bounds, and an input without a leading letter
    that has no comma, or a side of the comma that [stoi] cannot parse,
    yields the sentinel. *)
Theorem parse_move_comma_pair (xs ys : list ascii) :
  (find_comma xs = None ->
   match xs with c :: _ => isalpha c = false | [] => True end ->
   parse_move (comma_pair xs ys)
   = match stoi xs, stoi ys with
     | Some x, Some y => if in_bounds x y then MkMove x y else Move_invalid
     | _, _ => Move_invalid
     end)
  /\ (forall x y, int_text xs x -> int_text ys y -> find_comma xs = None ->
        stoi xs = (if (INT_MIN <=? x) && (x <=? INT_MAX) then Some x else None)
        /\ stoi ys = (if (INT_MIN <=? y) && (y <=? INT_MAX) then Some y else None)
        /\ (in_bounds x y = true -> parse_move (comma_pair xs ys) = MkMove x y)
        /\ (in_bounds x y = false -> parse_move (comma_pair xs ys) = Move_invalid))
  /\ (digit_string xs -> digit_string ys ->
      (in_bounds (decimal_value xs) (decimal_value ys) = true ->
         parse_move (comma_pair xs ys) = MkMove (decimal_value xs) (decimal_value ys))
      /\ (in_bounds (decimal_value xs) (decimal_value ys) = false ->
            parse_move (comma_pair xs ys) = Move_invalid))
  /\ (forall s : string,
        parse_move s = Move_invalid
        \/ in_bounds (Move_x (parse_move s)) (Move_y (parse_move s)) = true)
  /\ (forall (s : string) (c0 : ascii) (rest : list ascii),
        list_ascii_of_string s = c0 :: rest -> isalpha c0 = false ->
        match find_comma (c0 :: rest) with
        | None => True
        | Some k => stoi (firstn k (c0 :: rest)) = None
                    \/ stoi (skipn (k + 1) (c0 :: rest)) = None
        end ->
        parse_move s = Move_invalid).
Proof.
  assert (Hints : forall x y, int_text xs x -> int_text ys y -> find_comma xs = None ->
        stoi xs = (if (INT_MIN <=? x) && (x <=? INT_MAX) then Some x else None)
        /\ stoi ys = (if (INT_MIN <=? y) && (y <=? INT_MAX) then Some y else None)
        /\ parse_move (comma_pair xs ys)
           = if in_bounds x y then MkMove x y else Move_invalid).
  { intros x y Hx Hy Hcomma.
    pose proof (stoi_int_text _ _ Hx) as Ex. pose proof (stoi_int_text _ _ Hy) as Ey.
    split; [exact Ex |]. split; [exact Ey |].
    rewrite (parse_move_comma_form xs ys Hcomma (int_text_head _ _ Hx)), Ex, Ey.
    unfold INT_MIN, INT_MAX.
    destruct (Z.leb_spec (-2147483648) x), (Z.leb_spec x 2147483647); cbn [andb];
      try (rewrite (proj2 (in_bounds_false x y)) by lia; reflexivity).
    destruct (Z.leb_spec (-2147483648) y), (Z.leb_spec y 2147483647); cbn [andb];
      try (rewrite (proj2 (in_bounds_false x y)) by lia; reflexivity).
    reflexivity. }
  split; [apply parse_move_comma_form |].
  split.
  { intros x y Hx Hy Hcomma. destruct (Hints x y Hx Hy Hcomma) as (Ex & Ey & E).
    split; [exact Ex |]. split; [exact Ey |]. rewrite E.
    split; intros ->; reflexivity. }
  split.
  { intros Hx Hy.
    destruct (Hints _ _ (digit_string_int_text _ Hx) (digit_string_int_text _ Hy)
                (find_comma_forall _ _ digit_not_comma (proj2 Hx))) as (_ & _ & E).
    rewrite E. split; intros ->; reflexivity. }
  split; [exact parse_move_sound | exact parse_move_unparsable].
Qed.

Lemma parse_move_comma_pair_witness :
  parse_move "14,03" = MkMove 14 3
  /\ parse_move "-1,5" = Move_invalid
  /\ parse_move " +7 , 8x" = MkMove 7 8.
Proof.
  assert (H1 : int_text (list_ascii_of_string "14") 14).
  { exists [], [], (list_ascii_of_string "14"), [].
    repeat split; [constructor | now left | discriminate | repeat constructor]. }
  assert (H2 : int_text (list_ascii_of_string "03") 3).
  { exists [], [], (list_ascii_of_string "03"), [].
    repeat split; [constructor | now left | discriminate | repeat constructor]. }
  assert (H3 : int_text (list_ascii_of_string "-1") (-1)).
  { exists [], ["-"%char], ["1"%char], [].
    repeat split; [constructor | right; right; now split | discriminate | repeat constructor]. }
  assert (H4 : int_text (list_ascii_of_string "5") 5).
  { exists [], [], ["5"%char], [].
    repeat split; [constructor | now left | discriminate | repeat constructor]. }
  assert (H5 : int_text (list_ascii_of_string " +7 ") 7).
  { exists [" "%char], ["+"%char], ["7"%char], [" "%char].
    repeat split; [repeat constructor | right; left; now split | discriminate
                   | repeat constructor]. }
  assert (H6 : int_text (list_ascii_of_string " 8x") 8).
  { exists [" "%char], [], ["8"%char], ["x"%char].
    repeat split; [repeat constructor | now left | discriminate | repeat constructor]. }
  split; [| split].
  - apply (proj1 (proj2 (proj2 (proj1 (proj2 (parse_move_comma_pair _ _)) 14 3 H1 H2 eq_refl)))).
    reflexivity.
  - apply (proj2 (proj2 (proj2 (proj1 (proj2 (parse_move_comma_pair _ _)) (-1) 5 H3 H4 eq_refl)))).
    reflexivity.
  - apply (proj1 (proj2 (proj2 (proj1 (proj2 (parse_move_comma_pair _ _)) 7 8 H5 H6 eq_refl)))).
    reflexivity.
Defined.

End ParseMove.

(* ===================================================================== *)
(** ** Legal moves on boards reached by play *)
(* ===================================================================== *)

Section LegalMoves.

Lemma radius_offsets_In d :
  In d radius_offsets <-> -2 <= fst d <= 2 /\ -2 <= snd d <= 2.
Proof.
  unfold radius_offsets, LEGAL_RADIUS. rewrite in_flat_map. split.
  - intros (dy & Hdy & Hd). apply in_map_iff in Hd as (dx & <- & Hdx).
    apply list_elem_of_In, elem_of_seqZ in Hdy, Hdx. cbn [fst snd]. lia.
  - intros [Hx Hy]. exists (snd d). split.
    + apply list_elem_of_In, elem_of_seqZ. lia.
    + apply in_map_iff. exists (fst d). split; [now destruct d |].
      apply list_elem_of_In, elem_of_seqZ. lia.
Qed.

Lemma dilate_step_testbit occ mx my lm d j :
  Z.testbit (dilate_step occ mx my lm d) j = true <->
  Z.testbit lm j = true
  \/ (in_bounds (mx + fst d) (my + snd d) = true
      /\ Z.testbit occ (to_index (mx + fst d) (my + snd d)) = false
      /\ to_index (mx + fst d) (my + snd d) = j).
Proof.
  unfold dilate_step. cbv zeta.
  destruct (in_bounds (mx + fst d) (my + snd d)) eqn:Hb; cbn [andb];
    [| intuition discriminate].
  destruct (Z.testbit occ (to_index (mx + fst d) (my + snd d))) eqn:Ho; cbn [negb];
    [intuition discriminate |].
  pose proof (to_index_range _ _ Hb) as Hr.
  rewrite testbit_setbit by lia.
  destruct (Z.eqb_spec (to_index (mx + fst d) (my + snd d)) j); cbn [orb]; intuition.
Qed.

Lemma dilate_steps_testbit occ mx my (l : list (Z * Z)) lm j :
  Z.testbit (fold_left (dilate_step occ mx my) l lm) j = true <->
  Z.testbit lm j = true
  \/ exists d, In d l
       /\ in_bounds (mx + fst d) (my + snd d) = true
       /\ Z.testbit occ (to_index (mx + fst d) (my + snd d)) = false
       /\ to_index (mx + fst d) (my + snd d) = j.
Proof.
  revert lm. induction l as [| a l IH]; intros lm; cbn [fold_left].
  - split; [now left | intros [H | (d & [] & _)]; exact H].
  - rewrite IH, dilate_step_testbit. split.
    + intros [[H | H] | (d & Hd & H)]; [now left | right; exists a; split; [now left | exact H]
                                        | right; exists d; split; [now right | exact H]].
    + intros [H | (d & [<- | Hd] & H)]; [now left; left | now left; right
                                         | right; exists d; split; assumption].
Qed.

(** The window around [(mx, my)] adds exactly its unoccupied cells. *)
Lemma dilate_testbit occ mx my lm x y :
  in_bounds x y = true ->
  Z.testbit (dilate occ mx my lm) (to_index x y) = true <->
  Z.testbit lm (to_index x y) = true
  \/ (Z.testbit occ (to_index x y) = false
      /\ Z.max (Z.abs (x - mx)) (Z.abs (y - my)) <= LEGAL_RADIUS).
Proof.
  intros Hb. unfold dilate. rewrite dilate_steps_testbit. unfold LEGAL_RADIUS. split.
  - intros [H | (d & Hd & Hb' & Ho & He)]; [now left | right].
    apply radius_offsets_In in Hd.
    destruct (to_index_inj _ _ _ _ Hb' Hb He) as [Hx Hy].
    rewrite He in Ho. split; [exact Ho | lia].
  - intros [H | [Ho Hn]]; [now left | right].
    exists (x - mx, y - my). cbn [fst snd].
    replace (mx + (x - mx)) with x by lia. replace (my + (y - my)) with y by lia.
    split; [apply radius_offsets_In; cbn [fst snd]; lia |]. auto.
Qed.

Lemma is_legal_move_in_bounds b m :
  is_legal_move b m = true -> in_bounds (Move_x m) (Move_y m) = true.
Proof.
  unfold is_legal_move, is_legal.
  now destruct (in_bounds (Move_x m) (Move_y m)).
Qed.

Lemma played_reachable b : played b -> reachable b.
Proof.
  induction 1 as [| b m _ IH Hm]; [apply reach_reset |].
  destruct (is_legal_move_precondition _ _ (reachable_inv _ IH) Hm).
  now apply reach_make.
Qed.

(** On a board reached by play the legal mask holds exactly the unoccupied
    cells near a stone. *)
Lemma played_legal_mask b :
  played b ->
  forall c, in_bounds (Move_x c) (Move_y c) = true ->
    Z.testbit (legal_mask_ b) (Move_to_index c) = true <->
    Z.testbit (occupied_mask_ b) (Move_to_index c) = false
    /\ exists s, In s (history_ b) /\ near s c.
Proof.
  induction 1 as [| b m Hpl IH Hm]; intros c Hc.
  - unfold reset. board_fields. rewrite Z.bits_0.
    split; [discriminate | intros (_ & s & [] & _)].
  - pose proof (is_legal_move_in_bounds _ _ Hm) as Hb.
    pose proof (to_index_range _ _ Hb) as Hr.
    pose proof (to_index_range _ _ Hc) as Hrc.
    specialize (IH c Hc).
    rewrite make_move_unfold. board_fields.
    unfold make_move_legal, Move_to_index in *.
    rewrite testbit_clearbit, andb_true_iff, negb_true_iff, Z.eqb_neq by lia.
    rewrite dilate_testbit by exact Hc.
    rewrite testbit_setbit by lia.
    destruct (Z.eqb_spec (to_index (Move_x m) (Move_y m)) (to_index (Move_x c) (Move_y c)))
      as [E | E]; cbn [orb].
    + split; [intros [_ Hne]; contradiction | intros [Hf _]; discriminate].
    + assert (E2 : (to_index (Move_x m) (Move_y m) =? to_index (Move_x c) (Move_y c)) = false)
        by now apply Z.eqb_neq.
      match goal with
      | |- context [Z.testbit (if ?cnd then _ else _) _] => destruct cnd
      end;
        [rewrite (testbit_setbit (legal_mask_ b)), E2 by lia; cbn [orb] |];
        rewrite IH; unfold near; (split;
          [ intros [[(Ho & s & Hs & Hn) | (Ho & Hn)] _];
            [ split; [exact Ho |]; exists s; split; [apply in_or_app; now left | exact Hn]
            | split; [exact Ho |]; exists m; split; [apply in_or_app; right; now left | exact Hn] ]
          | intros (Ho & s & Hs & Hn); split; [| exact E];
            apply in_app_or in Hs; destruct Hs as [Hs | [<- | []]];
            [ left; split; [exact Ho |]; exists s; split; assumption
            | right; split; assumption ] ]).
Qed.

(** C9. Enumeration of the legal moves does not look at the terminal flag:
    on every board with a non-empty history [get_legal_moves] returns
    exactly the in-bounds cells whose bit is set in the legal mask,
    whatever the terminal flag and the result; so on a board reached by
    play, also one just won by five in a row, it returns exactly the empty
    cells within Chebyshev distance 2 of a stone. *)
Theorem legal_moves_ignore_terminal (b : Board) :
  history_ b <> [] ->
  (forall m, In m (get_legal_moves b) <->
             in_bounds (Move_x m) (Move_y m) = true
             /\ Z.testbit (legal_mask_ b) (Move_to_index m) = true)
  /\ (forall t r, get_legal_moves (with_flags b t r) = get_legal_moves b)
  /\ (played b ->
      forall m, In m (get_legal_moves b) <->
                in_bounds (Move_x m) (Move_y m) = true
                /\ is_empty b (Move_x m) (Move_y m) = true
                /\ exists s, In s (history_ b) /\ near s m).
Proof.
  intros Hne. split; [| split].
  - intros m. now apply get_legal_moves_In.
  - reflexivity.
  - intros Hpl m. rewrite get_legal_moves_In by exact Hne.
    pose proof (reachable_inv _ (played_reachable _ Hpl)) as Hinv.
    split.
    + intros [Hb Hbit]. split; [exact Hb |].
      apply (played_legal_mask _ Hpl m Hb) in Hbit as [Ho Hs]. split; [| exact Hs].
      destruct (inv_masks _ Hinv _ (to_index_range _ _ Hb)) as (Hocc & _).
      unfold Move_to_index in Ho. rewrite Ho in Hocc. symmetry in Hocc.
      apply negb_false_iff in Hocc. exact Hocc.
    + intros (Hb & He & Hs). split; [exact Hb |].
      apply (played_legal_mask _ Hpl m Hb). split; [| exact Hs].
      destruct (inv_masks _ Hinv _ (to_index_range _ _ Hb)) as (Hocc & _).
      unfold is_empty, get in He. rewrite He in Hocc. exact Hocc.
Qed.

Lemma legal_moves_ignore_terminal_witness :
  history_ black_won <> [] /\ is_terminal black_won = true
  /\ In (MkMove 8 7) (get_legal_moves black_won).
Proof.
  assert (Hne : history_ black_won <> []) by (vm_compute; discriminate).
  split; [exact Hne |]. split; [vm_compute; reflexivity |].
  apply (proj2 (proj1 (legal_moves_ignore_terminal black_won Hne) (MkMove 8 7))).
  vm_compute. split; reflexivity.
Defined.

End LegalMoves.

(* ===================================================================== *)
(** ** Win detection: what [check_win] recognises *)
(* ===================================================================== *)

Section WinDetection.

Lemma count_loop_lower fuel cells nx ny dx dy p c :
  c <= count_direction_loop fuel cells nx ny dx dy p c.
Proof.
  revert nx ny c. induction fuel as [| fuel IH]; intros nx ny c; cbn [count_direction_loop];
    [lia |].
  destruct (in_bounds nx ny && (cell_at cells (to_index nx ny) =? p)); [| lia].
  specialize (IH (nx + dx) (ny + dy) (c + 1)). lia.
Qed.

(** The loop counts at least [n] stones exactly when the first [n] cells
    of the ray are on the board and hold the colour [p]. *)
Lemma count_loop_at_least cells x y dx dy p (fuel : nat) :
  forall k c n, 0 <= n <= Z.of_nat fuel ->
    c + n <= count_direction_loop fuel cells (x + k * dx) (y + k * dy) dx dy p c
    <-> forall j, k <= j < k + n ->
          in_bounds (x + j * dx) (y + j * dy) = true
          /\ cell_at cells (to_index (x + j * dx) (y + j * dy)) = p.
Proof.
  induction fuel as [| fuel IH]; intros k c n Hn.
  - cbn [count_direction_loop]. split; [intros _ j Hj; lia | intros _; lia].
  - cbn [count_direction_loop].
    destruct (in_bounds (x + k * dx) (y + k * dy)) eqn:Hb; cbn [andb].
    + destruct (Z.eqb_spec (cell_at cells (to_index (x + k * dx) (y + k * dy))) p) as [Hc | Hc].
      * replace (x + k * dx + dx) with (x + (k + 1) * dx) by lia.
        replace (y + k * dy + dy) with (y + (k + 1) * dy) by lia.
        destruct (Z.eq_dec n 0) as [-> | Hn0].
        -- split; [intros _ j Hj; lia |]. intros _.
           pose proof (count_loop_lower fuel cells (x + (k + 1) * dx) (y + (k + 1) * dy)
                         dx dy p (c + 1)). lia.
        -- replace (c + n) with (c + 1 + (n - 1)) by lia.
           rewrite (IH (k + 1) (c + 1) (n - 1)) by lia. split.
           ++ intros H j Hj. destruct (Z.eq_dec j k) as [-> | Hjk]; [now split |].
              apply H. lia.
           ++ intros H j Hj. apply H. lia.
      * split.
        -- intros H j Hj. lia.
        -- intros H. destruct (Z.eq_dec n 0) as [-> | Hn0]; [lia |].
           destruct (H k ltac:(lia)) as [_ Hk]. contradiction.
    + split.
      * intros H j Hj. lia.
      * intros H. destruct (Z.eq_dec n 0) as [-> | Hn0]; [lia |].
        destruct (H k ltac:(lia)) as [Hk _]. congruence.
Qed.

Lemma count_direction_at_least b x y dx dy p n :
  0 <= n <= 15 ->
  n <= count_direction b x y dx dy p
  <-> forall j, 1 <= j <= n ->
        in_bounds (x + j * dx) (y + j * dy) = true
        /\ cell_at (cells_ b) (to_index (x + j * dx) (y + j * dy)) = p.
Proof.
  intros Hn. unfold count_direction.
  replace (x + dx) with (x + 1 * dx) by lia. replace (y + dy) with (y + 1 * dy) by lia.
  replace n with (0 + n) at 1 by lia.
  rewrite count_loop_at_least by (unfold BOARD_SIZE; lia).
  split; intros H j Hj; apply H; lia.
Qed.

(** [check_win] holds exactly when the stone at the move lies on five
    stones of its colour in a row. *)
Lemma check_win_five b m :
  in_bounds (Move_x m) (Move_y m) = true ->
  check_win b m = true
  <-> five_through (cells_ b) (Move_x m) (Move_y m) (cell_at (cells_ b) (Move_to_index m)).
Proof.
  intros Hb. unfold check_win, five_through. cbv zeta.
  remember (cell_at (cells_ b) (Move_to_index m)) as p eqn:Hp.
  symmetry in Hp. unfold Move_to_index in Hp. rewrite existsb_exists. split.
  - intros (d & Hd & H). apply Z.leb_le in H. exists d. split; [exact Hd |].
    set (cf := count_direction b (Move_x m) (Move_y m) (fst d) (snd d) p) in *.
    set (cb := count_direction b (Move_x m) (Move_y m) (- fst d) (- snd d) p) in *.
    assert (Hcf0 : 0 <= cf) by apply count_loop_lower.
    assert (Hcb0 : 0 <= cb) by apply count_loop_lower.
    exists (Z.min cb 4). split; [lia |]. intros j Hj.
    destruct (Z.compare_spec j (Z.min cb 4)) as [E | E | E].
    + replace ((j - Z.min cb 4) * fst d) with 0 by lia.
      replace ((j - Z.min cb 4) * snd d) with 0 by lia.
      rewrite !Z.add_0_r. split; [exact Hb | exact Hp].
    + assert (Hrun : Z.min cb 4 <= cb) by lia.
      pose proof (proj1 (count_direction_at_least b (Move_x m) (Move_y m) (- fst d) (- snd d)
                           p (Z.min cb 4) ltac:(lia)) Hrun) as Hrun'.
      destruct (Hrun' (Z.min cb 4 - j) ltac:(lia)) as [H1 H2].
      replace (Move_x m + (Z.min cb 4 - j) * - fst d)
        with (Move_x m + (j - Z.min cb 4) * fst d) in * by lia.
      replace (Move_y m + (Z.min cb 4 - j) * - snd d)
        with (Move_y m + (j - Z.min cb 4) * snd d) in * by lia.
      now split.
    + assert (Hrun : 4 - Z.min cb 4 <= cf) by lia.
      pose proof (proj1 (count_direction_at_least b (Move_x m) (Move_y m) (fst d) (snd d)
                           p (4 - Z.min cb 4) ltac:(lia)) Hrun) as Hrun'.
      apply Hrun'. lia.
  - intros (d & Hd & k & Hk & H). exists d. split; [exact Hd |]. apply Z.leb_le.
    assert (Hf : 4 - k <= count_direction b (Move_x m) (Move_y m) (fst d) (snd d) p).
    { apply count_direction_at_least; [lia |]. intros j Hj.
      destruct (H (j + k) ltac:(lia)) as [H1 H2].
      replace (j + k - k) with j in * by lia. now split. }
    assert (Hbk : k <= count_direction b (Move_x m) (Move_y m) (- fst d) (- snd d) p).
    { apply count_direction_at_least; [lia |]. intros j Hj.
      destruct (H (k - j) ltac:(lia)) as [H1 H2].
      replace (Move_x m + j * - fst d) with (Move_x m + (k - j - k) * fst d) by lia.
      replace (Move_y m + j * - snd d) with (Move_y m + (k - j - k) * snd d) by lia.
      now split. }
    lia.
Qed.

Lemma check_win_make_move b m : check_win (make_move b m) m = make_move_won b m.
Proof.
  unfold check_win, count_direction, make_move_won. rewrite make_move_unfold.
  board_fields. reflexivity.
Qed.

Lemma make_move_won_five b m :
  length (cells_ b) = 225%nat ->
  in_bounds (Move_x m) (Move_y m) = true ->
  make_move_won b m = true
  <-> five_through (cells_ (make_move b m)) (Move_x m) (Move_y m) (current_player_ b).
Proof.
  intros Hlen Hb. rewrite <- check_win_make_move, check_win_five by exact Hb.
  assert (E : cell_at (cells_ (make_move b m)) (Move_to_index m) = current_player_ b).
  { rewrite make_move_unfold. board_fields. apply cell_at_set_eq.
    pose proof (to_index_range _ _ Hb). unfold Move_to_index. rewrite Hlen. lia. }
  rewrite E. reflexivity.
Qed.

(** X1. A move on an in-bounds empty cell of a board produced by the public
    operations, made by a player not already recorded as the winner, ends
    the game with the mover as the winner exactly when the stone placed
    lies on five stones of the mover's colour in a row (horizontally,
    vertically or on a diagonal). *)
Theorem make_move_wins_iff_five (b : Board) (m : Move) :
  reachable b ->
  in_bounds (Move_x m) (Move_y m) = true ->
  is_empty b (Move_x m) (Move_y m) = true ->
  get_winner b <> current_player b ->
  wins_immediately b m
  <-> five_through (cells_ (make_move b m)) (Move_x m) (Move_y m) (current_player b).
Proof.
  intros Hr Hb He Hw. pose proof (reachable_inv _ Hr) as Hinv.
  unfold current_player in *.
  rewrite wins_immediately_iff by (auto using inv_length, inv_player).
  rewrite <- make_move_won_completes_five by (auto using inv_length).
  apply make_move_won_five; auto using inv_length.
Qed.

Lemma make_move_wins_iff_five_witness :
  reachable four_black /\ is_empty four_black 7 7 = true
  /\ five_through (cells_ (make_move four_black (MkMove 7 7))) 7 7 BLACK.
Proof.
  assert (Hr : reachable four_black).
  { apply legal_sequence_reachable; [apply reach_reset | vm_compute; repeat split]. }
  split; [exact Hr |]. split; [vm_compute; reflexivity |].
  apply (proj1 (make_move_wins_iff_five four_black (MkMove 7 7) Hr eq_refl eq_refl
                  ltac:(vm_compute; discriminate))).
  vm_compute. split; reflexivity.
Defined.

Lemma game_position_played b : game_position b -> played b.
Proof. induction 1; [apply played_reset | now apply played_move]. Qed.

(** X2. In a game (legal moves, none after the end) a terminal position
    has a last move, and either it is a draw with an empty legal mask, or
    the winner is the player who made the last move and that move lies on
    five of the winner's stones in a row. *)
Theorem game_over_reason (b : Board) :
  game_position b -> is_terminal b = true ->
  exists h m, history_ b = h ++ [m]
    /\ ((get_result b = DRAW /\ legal_mask_ b = 0)
        \/ (get_winner b <> EMPTY /\ get_winner b = - current_player b
            /\ five_through (cells_ b) (Move_x m) (Move_y m) (get_winner b))).
Proof.
  intros Hg Ht. destruct Hg as [| b m Hg Hnt Hm]; [discriminate |].
  pose proof (reachable_inv _ (played_reachable _ (game_position_played _ Hg))) as Hinv.
  destruct (is_legal_move_precondition _ _ Hinv Hm) as [Hb _].
  pose proof (make_move_won_five b m (inv_length _ Hinv) Hb) as Hfive.
  exists (history_ b), m. split; [apply make_move_history |].
  revert Ht Hfive. unfold is_terminal, get_result, get_winner, current_player.
  generalize (cells_ (make_move b m)) as cells'.
  rewrite make_move_unfold. board_fields. intros cells'.
  unfold is_terminal in Hnt. rewrite Hnt.
  rewrite (neg8_player _ (inv_player _ Hinv)).
  generalize (make_move_won b m) as won. intros won.
  destruct won.
  - intros _ Hfive. right. apply proj1 in Hfive. specialize (Hfive eq_refl).
    destruct (inv_player _ Hinv) as [Hp | Hp]; rewrite Hp in *; cbn;
      (split; [discriminate | split; [reflexivity | exact Hfive]]).
  - destruct (Z.eqb_spec (make_move_legal b m) 0) as [E | E]; [| discriminate].
    intros _ _. left. split; [reflexivity | exact E].
Qed.

Lemma game_over_reason_witness :
  game_position black_won /\ is_terminal black_won = true
  /\ exists h m, history_ black_won = h ++ [m]
       /\ ((get_result black_won = DRAW /\ legal_mask_ black_won = 0)
           \/ (get_winner black_won <> EMPTY
               /\ get_winner black_won = - current_player black_won
               /\ five_through (cells_ black_won) (Move_x m) (Move_y m) (get_winner black_won))).
Proof.
  assert (Hg : game_position black_won).
  { unfold black_won, four_moves, make_moves. cbn [app fold_left].
    repeat (apply game_move; [| vm_compute; reflexivity | vm_compute; reflexivity]).
    apply game_start. }
  assert (Ht : is_terminal black_won = true) by (vm_compute; reflexivity).
  split; [exact Hg |]. split; [exact Ht |].
  exact (game_over_reason black_won Hg Ht).
Defined.

End WinDetection.

(* ===================================================================== *)
(** ** The two forced-move scans *)
(* ===================================================================== *)

Section ForcedMoveScans.









End ForcedMoveScans.

(* ===================================================================== *)
(** ** Mask consistency, the terminal flag, exact undo *)
(* ===================================================================== *)

Section MoreInvariants.

Lemma fold_testbit_or {A} (Q : Z -> Prop) (g : BitBoard -> A -> BitBoard) :
  (forall lm a i, Z.testbit (g lm a) i = true -> Z.testbit lm i = true \/ Q i) ->
  forall (l : list A) lm i,
    Z.testbit (fold_left g l lm) i = true -> Z.testbit lm i = true \/ Q i.
Proof.
  intros Hg l. induction l as [| a l IH]; intros lm i H; [now left |].
  cbn [fold_left] in H. apply IH in H. destruct H as [H | H]; [| now right].
  now apply Hg in H.
Qed.

Lemma dilate_range occ mx my lm i :
  Z.testbit (dilate occ mx my lm) i = true -> Z.testbit lm i = true \/ 0 <= i < 225.
Proof.
  apply (fold_testbit_or (fun i => 0 <= i < 225) (dilate_step occ mx my)).
  intros lm' d j H. apply dilate_step_testbit in H.
  destruct H as [H | (Hb & _ & <-)]; [now left | right; now apply to_index_range].
Qed.

Lemma rebuild_legal_range occ hist i :
  Z.testbit (rebuild_legal occ hist) i = true -> 0 <= i < 225.
Proof.
  intros H. apply (fold_testbit_or (fun i => 0 <= i < 225) (rebuild_step occ)) in H.
  - destruct H as [H | H]; [now rewrite Z.bits_0 in H | exact H].
  - intros lm a j. apply dilate_range.
Qed.

Lemma make_move_legal_range b m i :
  (forall j, Z.testbit (legal_mask_ b) j = true -> 0 <= j < 225) ->
  in_bounds (Move_x m) (Move_y m) = true ->
  Z.testbit (make_move_legal b m) i = true -> 0 <= i < 225.
Proof.
  intros Hl Hb. pose proof (to_index_range _ _ Hb) as Hr.
  change (to_index (Move_x m) (Move_y m)) with (Move_to_index m) in Hr.
  unfold make_move_legal. intros Hi.
  rewrite testbit_clearbit in Hi by lia. apply andb_true_iff in Hi as [Hi _].
  apply dilate_range in Hi. destruct Hi as [Hi | Hi]; [| exact Hi].
  destruct (match history_ b with [] => true | _ :: _ => false end && (legal_mask_ b =? 0));
    [| now apply Hl].
  rewrite testbit_setbit in Hi by lia.
  destruct (Z.eqb_spec (Move_to_index m) i); [lia | now apply Hl].
Qed.

Lemma reset_inv_more : board_inv_more reset.
Proof.
  constructor; unfold reset; board_fields;
    try (intros i H; now rewrite Z.bits_0 in H).
  - intros i Hi. left. unfold cell_at.
    rewrite lookup_replicate_2 by (unfold BOARD_CELLS, BOARD_SIZE; lia). reflexivity.
  - discriminate.
Qed.

Lemma make_move_inv_more b m :
  board_inv b -> board_inv_more b ->
  in_bounds (Move_x m) (Move_y m) = true ->
  board_inv_more (make_move b m).
Proof.
  intros Hinv [Hocc Hbl Hwh Hleg Hcells Hterm] Hb.
  assert (Hlegal := fun i => make_move_legal_range b m i Hleg Hb).
  pose proof (to_index_range _ _ Hb) as Hr.
  change (to_index (Move_x m) (Move_y m)) with (Move_to_index m) in Hr.
  rewrite make_move_unfold.
  revert Hlegal. generalize (make_move_legal b m) as legal'.
  generalize (make_move_won b m) as won. intros won legal' Hlegal.
  constructor; board_fields.
  - intros i Hi. rewrite testbit_setbit in Hi by lia.
    destruct (Z.eqb_spec (Move_to_index m) i); [lia | now apply Hocc].
  - intros i Hi. destruct (current_player_ b =? BLACK); [| now apply Hbl].
    rewrite testbit_setbit in Hi by lia.
    destruct (Z.eqb_spec (Move_to_index m) i); [lia | now apply Hbl].
  - intros i Hi. destruct (current_player_ b =? BLACK); [now apply Hwh |].
    rewrite testbit_setbit in Hi by lia.
    destruct (Z.eqb_spec (Move_to_index m) i); [lia | now apply Hwh].
  - exact Hlegal.
  - intros i Hi. destruct (Z.eq_dec (Move_to_index m) i) as [<- | Hne].
    + rewrite cell_at_set_eq by (rewrite (inv_length _ Hinv); lia).
      destruct (inv_player _ Hinv) as [-> | ->]; auto.
    + rewrite cell_at_set_ne by lia. now apply Hcells.
  - destruct won; [destruct (current_player_ b =? BLACK); discriminate |].
    destruct (legal' =? 0); [discriminate | exact Hterm].
Qed.

Lemma unmake_move_inv_more b m :
  board_inv b -> board_inv_more b -> last (history_ b) = Some m ->
  board_inv_more (unmake_move b m).
Proof.
  intros Hinv [Hocc Hbl Hwh Hleg Hcells Hterm] Hlast.
  apply last_Some in Hlast as [h Hh]. rewrite (unmake_move_last _ _ _ Hh).
  destruct (inv_history _ Hinv m) as [Hb _]; [rewrite Hh; apply in_or_app; right; now left |].
  pose proof (to_index_range _ _ Hb) as Hr.
  change (to_index (Move_x m) (Move_y m)) with (Move_to_index m) in Hr.
  constructor; board_fields.
  - intros i Hi. rewrite testbit_clearbit in Hi by lia.
    apply andb_true_iff in Hi as [Hi _]. now apply Hocc.
  - intros i Hi. rewrite testbit_clearbit in Hi by lia.
    apply andb_true_iff in Hi as [Hi _]. now apply Hbl.
  - intros i Hi. rewrite testbit_clearbit in Hi by lia.
    apply andb_true_iff in Hi as [Hi _]. now apply Hwh.
  - intros i Hi. destruct h as [| m0 h'].
    + rewrite testbit_setbit in Hi by (unfold to_index, BOARD_SIZE; lia).
      rewrite Z.bits_0, orb_false_r in Hi. apply Z.eqb_eq in Hi. subst i.
      unfold to_index, BOARD_SIZE. lia.
    + now apply rebuild_legal_range in Hi.
  - intros i Hi. destruct (Z.eq_dec (Move_to_index m) i) as [<- | Hne].
    + rewrite cell_at_set_eq by (rewrite (inv_length _ Hinv); lia). now left.
    + rewrite cell_at_set_ne by lia. now apply Hcells.
  - discriminate.
Qed.

Lemma reachable_inv_more b : reachable b -> board_inv_more b.
Proof.
  induction 1 as [| b m Hr IH Hb He | b m Hr IH Hl].
  - apply reset_inv_more.
  - apply make_move_inv_more; auto using reachable_inv.
  - apply unmake_move_inv_more; auto using reachable_inv.
Qed.

(** X3. On every board produced by the public operations the black and
    white masks are disjoint, their union is the occupied mask, and every
    cell of the board holds EMPTY, BLACK or WHITE, with its bit set in the
    black (white) mask exactly when it holds BLACK (WHITE) and in the
    occupied mask exactly when it is not EMPTY. *)
Theorem masks_agree_with_cells (b : Board) :
  reachable b ->
  Z.land (black_mask_ b) (white_mask_ b) = 0
  /\ Z.lor (black_mask_ b) (white_mask_ b) = occupied_mask_ b
  /\ forall x y, in_bounds x y = true ->
       (get b x y = EMPTY \/ get b x y = BLACK \/ get b x y = WHITE)
       /\ (Z.testbit (occupied_mask_ b) (to_index x y) = true <-> get b x y <> EMPTY)
       /\ (Z.testbit (black_mask_ b) (to_index x y) = true <-> get b x y = BLACK)
       /\ (Z.testbit (white_mask_ b) (to_index x y) = true <-> get b x y = WHITE).
Proof.
  intros Hr. pose proof (reachable_inv _ Hr) as Hinv.
  pose proof (reachable_inv_more _ Hr) as Hmore.
  assert (Hbits : forall i, 0 <= i ->
            Z.testbit (black_mask_ b) i && Z.testbit (white_mask_ b) i = false
            /\ Z.testbit (black_mask_ b) i || Z.testbit (white_mask_ b) i
               = Z.testbit (occupied_mask_ b) i).
  { intros i Hi. destruct (Z.lt_ge_cases i 225) as [Hlt | Hge].
    - destruct (inv_masks _ Hinv i ltac:(lia)) as (Ho & Hbl & Hwh).
      rewrite Ho, Hbl, Hwh.
      destruct (more_cells _ Hmore i ltac:(lia)) as [-> | [-> | ->]]; split; reflexivity.
    - assert (Eb : Z.testbit (black_mask_ b) i = false).
      { destruct (Z.testbit (black_mask_ b) i) eqn:E; [| reflexivity].
        apply (more_black _ Hmore) in E. lia. }
      assert (Ew : Z.testbit (white_mask_ b) i = false).
      { destruct (Z.testbit (white_mask_ b) i) eqn:E; [| reflexivity].
        apply (more_white _ Hmore) in E. lia. }
      assert (Eo : Z.testbit (occupied_mask_ b) i = false).
      { destruct (Z.testbit (occupied_mask_ b) i) eqn:E; [| reflexivity].
        apply (more_occupied _ Hmore) in E. lia. }
      rewrite Eb, Ew, Eo. split; reflexivity. }
  split; [| split].
  - apply Z.bits_inj'. intros n Hn. rewrite Z.land_spec, Z.bits_0. now apply Hbits.
  - apply Z.bits_inj'. intros n Hn. rewrite Z.lor_spec. now apply Hbits.
  - intros x y Hb. pose proof (to_index_range _ _ Hb) as Hri.
    destruct (inv_masks _ Hinv _ Hri) as (Ho & Hbl & Hwh). unfold get.
    rewrite Ho, Hbl, Hwh. split; [now apply (more_cells _ Hmore) |].
    rewrite negb_true_iff, Z.eqb_neq, !Z.eqb_eq. tauto.
Qed.

Lemma masks_agree_with_cells_witness :
  reachable four_black
  /\ Z.lor (black_mask_ four_black) (white_mask_ four_black) = occupied_mask_ four_black.
Proof.
  assert (Hr : reachable four_black).
  { apply legal_sequence_reachable; [apply reach_reset | vm_compute; repeat split]. }
  split; [exact Hr |]. exact (proj1 (proj2 (masks_agree_with_cells four_black Hr))).
Defined.

(** X4. On every board produced by the public operations the terminal
    flag is set exactly when the result is no longer ONGOING, and then
    [get_winner] is EMPTY exactly when the result is a draw. *)
Theorem terminal_iff_result (b : Board) :
  reachable b ->
  (is_terminal b = true <-> get_result b <> ONGOING)
  /\ (is_terminal b = true -> (get_winner b = EMPTY <-> get_result b = DRAW)).
Proof.
  intros Hr. pose proof (inv_result _ (reachable_inv _ Hr)) as H1.
  pose proof (more_terminal _ (reachable_inv_more _ Hr)) as H2.
  unfold is_terminal, get_result, get_winner. split.
  - split; [exact H2 |]. intros Hne. destruct (is_terminal_ b); [reflexivity |].
    now contradiction Hne; apply H1.
  - intros Ht. specialize (H2 Ht). destruct (result_ b); split; intros H; try reflexivity;
      try discriminate; contradiction.
Qed.

Lemma terminal_iff_result_witness :
  reachable black_won /\ is_terminal black_won = true /\ get_result black_won <> ONGOING.
Proof.
  assert (Hr : reachable black_won).
  { apply legal_sequence_reachable; [apply reach_reset | vm_compute; repeat split]. }
  assert (Ht : is_terminal black_won = true) by (vm_compute; reflexivity).
  split; [exact Hr |]. split; [exact Ht |].
  exact (proj1 (proj1 (terminal_iff_result black_won Hr)) Ht).
Defined.

Lemma rebuild_step_testbit occ lm (s : Move) x y :
  in_bounds x y = true ->
  Z.testbit (rebuild_step occ lm s) (to_index x y) = true <->
  Z.testbit lm (to_index x y) = true
  \/ (Z.testbit occ (to_index x y) = false
      /\ Z.max (Z.abs (x - Move_x s)) (Z.abs (y - Move_y s)) <= LEGAL_RADIUS).
Proof. intros Hb. now apply dilate_testbit. Qed.

Lemma fold_testbit_iff {A} (P : Prop) (R : A -> Prop) (g : BitBoard -> A -> BitBoard) j :
  (forall lm a, Z.testbit (g lm a) j = true <-> Z.testbit lm j = true \/ (P /\ R a)) ->
  forall (l : list A) lm,
    Z.testbit (fold_left g l lm) j = true <->
    Z.testbit lm j = true \/ (P /\ exists a, In a l /\ R a).
Proof.
  intros Hg l. induction l as [| a l IH]; intros lm; cbn [fold_left].
  - split; [now left | intros [H | (_ & a & [] & _)]; exact H].
  - rewrite IH, Hg. split.
    + intros [[H | [Hp Hr]] | (Hp & a' & Ha & Hr)]; [now left | right | right];
        (split; [exact Hp |]).
      * exists a. split; [now left | exact Hr].
      * exists a'. split; [now right | exact Hr].
    + intros [H | (Hp & a' & [<- | Ha] & Hr)]; [now left; left | left; right; now split |].
      right. split; [exact Hp |]. exists a'. split; assumption.
Qed.

(** The rebuild of [unmake_move] yields the unoccupied cells near a stone
    of the history. *)
Lemma rebuild_steps_testbit occ (hist : list Move) lm x y :
  in_bounds x y = true ->
  Z.testbit (fold_left (rebuild_step occ) hist lm) (to_index x y) = true <->
  Z.testbit lm (to_index x y) = true
  \/ (Z.testbit occ (to_index x y) = false
      /\ exists s, In s hist
           /\ Z.max (Z.abs (x - Move_x s)) (Z.abs (y - Move_y s)) <= LEGAL_RADIUS).
Proof.
  intros Hb.
  apply (fold_testbit_iff (Z.testbit occ (to_index x y) = false)
           (fun s => Z.max (Z.abs (x - Move_x s)) (Z.abs (y - Move_y s)) <= LEGAL_RADIUS)
           (rebuild_step occ) (to_index x y)).
  intros lm' s. now apply rebuild_step_testbit.
Qed.

Lemma played_legal_is_rebuild b :
  played b -> history_ b <> [] ->
  legal_mask_ b = rebuild_legal (occupied_mask_ b) (history_ b).
Proof.
  intros Hpl Hne. pose proof (reachable_inv_more _ (played_reachable _ Hpl)) as Hmore.
  apply Z.bits_inj'. intros n Hn.
  destruct (Z.lt_ge_cases n 225) as [Hlt | Hge].
  - destruct (to_xy_range n ltac:(lia)) as (Hx & Hy & He).
    assert (Hb : in_bounds (to_x n) (to_y n) = true) by (apply in_bounds_true; lia).
    pose proof (played_legal_mask b Hpl (MkMove (to_x n) (to_y n)) Hb) as H1.
    pose proof (rebuild_steps_testbit (occupied_mask_ b) (history_ b) 0 _ _ Hb) as H2.
    unfold Move_to_index, near in H1. cbn [Move_x Move_y] in H1.
    fold (rebuild_legal (occupied_mask_ b) (history_ b)) in H2.
    rewrite He in H1, H2. rewrite Z.bits_0 in H2.
    destruct (Z.testbit (legal_mask_ b) n), (Z.testbit (rebuild_legal (occupied_mask_ b) (history_ b)) n);
      try reflexivity.
    + symmetry. apply H2. right. now apply H1.
    + apply H1. destruct (proj1 H2 eq_refl) as [H | H]; [discriminate | exact H].
  - assert (E1 : Z.testbit (legal_mask_ b) n = false).
    { destruct (Z.testbit (legal_mask_ b) n) eqn:E; [| reflexivity].
      apply (more_legal _ Hmore) in E. lia. }
    assert (E2 : Z.testbit (rebuild_legal (occupied_mask_ b) (history_ b)) n = false).
    { destruct (Z.testbit (rebuild_legal (occupied_mask_ b) (history_ b)) n) eqn:E;
        [| reflexivity].
      apply rebuild_legal_range in E. lia. }
    now rewrite E1, E2.
Qed.

(** X5. On a position reached by legal play that has at least one stone
    and is not terminal, making a legal move and unmaking it gives back the
    board exactly, field by field (legal mask, flags and history
    included). *)
Theorem unmake_make_identity (b : Board) (m : Move) :
  played b -> history_ b <> [] -> is_terminal b = false ->
  is_legal_move b m = true ->
  unmake_move (make_move b m) m = b.
Proof.
  intros Hpl Hne Hnt Hm.
  pose proof (reachable_inv _ (played_reachable _ Hpl)) as Hinv.
  destruct (is_legal_move_precondition _ _ Hinv Hm) as [Hb He].
  rewrite unmake_make by assumption.
  pose proof (played_legal_is_rebuild b Hpl Hne) as Hl.
  pose proof (inv_result _ Hinv Hnt) as Hres. unfold is_terminal in Hnt.
  unfold undone. destruct (history_ b) as [| h0 hs] eqn:Hh; [contradiction |].
  rewrite <- Hl, <- Hnt, <- Hres, <- Hh. now destruct b.
Qed.

Lemma unmake_make_identity_witness :
  played four_black /\ is_legal_move four_black (MkMove 2 7) = true
  /\ unmake_move (make_move four_black (MkMove 2 7)) (MkMove 2 7) = four_black.
Proof.
  assert (Hpl : played four_black).
  { unfold four_black, four_moves, make_moves. cbn [fold_left].
    repeat (apply played_move; [| vm_compute; reflexivity]). apply played_reset. }
  split; [exact Hpl |]. split; [vm_compute; reflexivity |].
  apply (unmake_make_identity four_black (MkMove 2 7) Hpl);
    [vm_compute; discriminate | vm_compute; reflexivity | vm_compute; reflexivity].
Defined.

(** X6. On every board produced by the public operations each move that
    [get_legal_moves] returns is a valid move that [is_legal] accepts, on
    an in-bounds empty cell (so [make_move] may be applied to it); when
    the history is not empty the moves it returns are all the moves
    [is_legal] accepts. *)
Theorem legal_moves_are_legal (b : Board) :
  reachable b ->
  (forall m, In m (get_legal_moves b) ->
     is_valid m = true /\ is_legal_move b m = true
     /\ in_bounds (Move_x m) (Move_y m) = true
     /\ is_empty b (Move_x m) (Move_y m) = true)
  /\ (history_ b <> [] ->
      forall m, is_legal_move b m = true -> In m (get_legal_moves b)).
Proof.
  intros Hr. pose proof (reachable_inv _ Hr) as Hinv.
  assert (Hleg : forall m, In m (get_legal_moves b) -> is_legal_move b m = true).
  { intros m Hin. destruct (history_ b) as [| h0 hs] eqn:Hh.
    - unfold get_legal_moves in Hin. rewrite Hh in Hin. destruct Hin as [<- | []].
      unfold is_legal_move, is_legal. rewrite Hh.
      change (Move_x (Move_of 7 7)) with 7. change (Move_y (Move_of 7 7)) with 7.
      change (negb (in_bounds 7 7)) with false. cbv iota.
      apply is_empty_cell. apply empty_history_cells; [exact Hinv | exact Hh |].
      unfold to_index, BOARD_SIZE. lia.
    - apply is_legal_move_In; [exact Hinv | rewrite Hh; discriminate | exact Hin]. }
  split.
  - intros m Hin. specialize (Hleg m Hin).
    destruct (is_legal_move_precondition _ _ Hinv Hleg) as [Hb He].
    split; [now apply in_bounds_is_valid |]. tauto.
  - intros Hne m Hm. now apply is_legal_move_In.
Qed.

Lemma legal_moves_are_legal_witness :
  reachable four_black
  /\ forall m, In m (get_legal_moves four_black) -> is_legal_move four_black m = true.
Proof.
  assert (Hr : reachable four_black).
  { apply legal_sequence_reachable; [apply reach_reset | vm_compute; repeat split]. }
  split; [exact Hr |]. intros m Hin.
  exact (proj1 (proj2 (proj1 (legal_moves_are_legal four_black Hr) m Hin))).
Defined.

Lemma filter_sorted (f : Z -> bool) (l : list Z) :
  StronglySorted Z.lt l -> StronglySorted Z.lt (List.filter f l).
Proof.
  induction 1 as [| a l Hs IH Ha]; cbn [List.filter]; [constructor |].
  destruct (f a); [| exact IH]. constructor; [exact IH |].
  apply Forall_forall. intros x Hx. apply list_elem_of_In, filter_In in Hx as [Hx _].
  rewrite Forall_forall in Ha. apply Ha. now apply list_elem_of_In.
Qed.

Lemma seqZ_sorted m (n : nat) : StronglySorted Z.lt (seqZ m (Z.of_nat n)).
Proof.
  revert m. induction n as [| n IH]; intros m.
  - cbn. constructor.
  - rewrite Nat2Z.inj_succ, seqZ_cons by lia. rewrite Z.pred_succ.
    constructor; [apply IH |].
    apply Forall_forall. intros x Hx. apply elem_of_seqZ in Hx. lia.
Qed.

Lemma sorted_NoDup (l : list Z) : StronglySorted Z.lt l -> NoDup l.
Proof.
  induction 1 as [| a l Hs IH Ha]; [constructor |].
  apply NoDup_cons. split; [| exact IH].
  intros Hin. rewrite Forall_forall in Ha. specialize (Ha a Hin). lia.
Qed.

(** X7. [count_legal_moves] is the number of moves [get_legal_moves]
    returns, on every board; with a non-empty history these moves are
    listed in strictly increasing cell index (row by row), so none is
    listed twice. *)
Theorem count_legal_moves_length (b : Board) :
  count_legal_moves b = Z.of_nat (length (get_legal_moves b))
  /\ (history_ b <> [] ->
      StronglySorted Z.lt (map Move_to_index (get_legal_moves b))
      /\ NoDup (get_legal_moves b)).
Proof.
  unfold count_legal_moves, get_legal_moves, popcount.
  destruct (history_ b) as [| h0 hs]; [split; [reflexivity | congruence] |].
  split; [now rewrite length_map |]. intros _.
  assert (Hidx : map Move_to_index
            (map (fun idx => Move_of (to_x idx) (to_y idx))
                 (List.filter (Z.testbit (legal_mask_ b)) (seqZ 0 BOARD_CELLS)))
          = List.filter (Z.testbit (legal_mask_ b)) (seqZ 0 BOARD_CELLS)).
  { rewrite map_map. rewrite <- (map_id (List.filter _ _)) at 2.
    apply map_ext_in. intros i Hi. apply filter_In in Hi as [Hi _].
    apply seqZ_cells_In in Hi. destruct (to_xy_range i Hi) as (Hx & Hy & He).
    rewrite Move_of_small by lia. exact He. }
  assert (Hs : StronglySorted Z.lt
                 (List.filter (Z.testbit (legal_mask_ b)) (seqZ 0 BOARD_CELLS))).
  { apply filter_sorted. apply (seqZ_sorted 0 225). }
  split; [now rewrite Hidx |].
  apply (NoDup_fmap_1 Move_to_index).
  change (NoDup (map Move_to_index
    (map (fun idx => Move_of (to_x idx) (to_y idx))
       (List.filter (Z.testbit (legal_mask_ b)) (seqZ 0 BOARD_CELLS))))).
  rewrite Hidx. now apply sorted_NoDup.
Qed.

Lemma count_legal_moves_length_witness :
  history_ four_black <> []
  /\ NoDup (get_legal_moves four_black).
Proof.
  assert (Hne : history_ four_black <> []) by (vm_compute; discriminate).
  split; [exact Hne |].
  exact (proj2 (proj2 (count_legal_moves_length four_black) Hne)).
Defined.

End MoreInvariants.

(* ===================================================================== *)
(** ** The line evaluation and the scored move *)
(* ===================================================================== *)

Section Scoring.

Ltac name_line_terms :=
  repeat match goal with
    | |- context [count_consecutive_loop ?a ?b ?c ?d ?e ?f ?g ?h] =>
        generalize (count_consecutive_loop a b c d e f g h); intro
    end;
  repeat match goal with
    | |- context [open_end ?a ?b ?c] => generalize (open_end a b c); intro
    end;
  repeat match goal with
    | |- context [count_consecutive ?a ?b ?c ?d ?e ?f] =>
        generalize (count_consecutive a b c d e f); intro
    end.

Ltac split_ifs :=
  repeat match goal with
    | |- context [if ?c then _ else _] => destruct c eqn:?
    end.

(** A line evaluation is one of the eight pattern scores. *)
Lemma evaluate_line_values b x y dx dy p :
  In (evaluate_line b x y dx dy p) score_values.
Proof.
  unfold evaluate_line. cbv zeta. name_line_terms.
  unfold score_values. split_ifs; cbn [In]; tauto.
Qed.

Lemma evaluate_line_win b x y dx dy p :
  (SCORE_WIN <=? evaluate_line b x y dx dy p)
  = (4 <=? count_consecutive b x y dx dy p + count_consecutive b x y (- dx) (- dy) p).
Proof.
  unfold evaluate_line. cbv zeta. name_line_terms.
  destruct (4 <=? _ + _); [reflexivity |]. split_ifs; reflexivity.
Qed.

Lemma existsb_win_completes_five b p m :
  existsb (fun d => SCORE_WIN <=? evaluate_line b (Move_x m) (Move_y m) (fst d) (snd d) p) dirs
  = completes_five b p m.
Proof.
  unfold completes_five. apply existsb_pointwise. intros d _. apply evaluate_line_win.
Qed.

(** The flags and the sums of the loop of [score_move], for any list of
    directions. *)
Lemma score_steps_flags b m p o (l : list (Z * Z)) acc :
  is_winning (fst (fold_left (score_step b m p o) l acc))
  = is_winning (fst acc)
    || existsb (fun d => SCORE_WIN <=? evaluate_line b (Move_x m) (Move_y m) (fst d) (snd d) p) l
  /\ is_blocking (fst (fold_left (score_step b m p o) l acc))
     = is_blocking (fst acc)
       || existsb (fun d => SCORE_FOUR_OPEN <=? evaluate_line b (Move_x m) (Move_y m) (fst d) (snd d) o) l
  /\ ScoredMove_move (fst (fold_left (score_step b m p o) l acc)) = ScoredMove_move (fst acc)
  /\ snd (fold_left (score_step b m p o) l acc)
     = fold_left
         (fun (acc : Z * Z) (d : Z * Z) =>
            (fst acc + evaluate_line b (Move_x m) (Move_y m) (fst d) (snd d) p,
             snd acc + evaluate_line b (Move_x m) (Move_y m) (fst d) (snd d) o))
         l (snd acc).
Proof.
  revert acc. induction l as [| d l IH]; intros acc; cbn [fold_left existsb].
  - rewrite !orb_false_r. repeat split.
  - destruct (IH (score_step b m p o acc d)) as (H1 & H2 & H3 & H4).
    rewrite H1, H2, H3, H4. unfold score_step. cbv zeta. cbn [fst snd is_winning is_blocking ScoredMove_move].
    generalize (evaluate_line b (Move_x m) (Move_y m) (fst d) (snd d) p) as e1.
    generalize (evaluate_line b (Move_x m) (Move_y m) (fst d) (snd d) o) as e2. intros e2 e1.
    repeat split.
    + destruct (SCORE_WIN <=? e1), (is_winning (fst acc)); reflexivity.
    + destruct (SCORE_FOUR_OPEN <=? e2), (is_blocking (fst acc)); reflexivity.
Qed.

(** The two flags of [score_move], read off its loop. *)
Lemma score_move_flags b m :
  is_winning (score_move b m) = completes_five b (current_player b) m
  /\ is_blocking (score_move b m)
     = existsb (fun d => SCORE_FOUR_OPEN <=?
                         evaluate_line b (Move_x m) (Move_y m) (fst d) (snd d)
                           (opponent_of (current_player b))) dirs.
Proof.
  unfold score_move. cbv zeta. cbn [is_winning is_blocking].
  destruct (score_steps_flags b m (current_player b) (opponent_of (current_player b)) dirs
              (ScoredMove_of m 0, (0, 0))) as (H1 & H2 & _ & _).
  rewrite H1, H2. cbn [fst ScoredMove_of is_winning is_blocking orb].
  rewrite existsb_win_completes_five. split; reflexivity.
Qed.

(** X8. [score_move] returns the move it was given, its score is the value
    of [evaluate_move], its winning flag is the test of the winning scan
    (four stones of the player in line with the move), and its blocking
    flag says that some line of the opponent through the move is worth an
    open four or more. *)
Theorem score_move_fields (b : Board) (m : Move) :
  ScoredMove_move (score_move b m) = m
  /\ score (score_move b m) = evaluate_move b m
  /\ is_winning (score_move b m) = completes_five b (current_player b) m
  /\ is_blocking (score_move b m)
     = existsb (fun d => SCORE_FOUR_OPEN <=?
                         evaluate_line b (Move_x m) (Move_y m) (fst d) (snd d)
                           (opponent_of (current_player b))) dirs.
Proof.
  unfold score_move, evaluate_move, line_sums. cbv zeta.
  cbn [ScoredMove_move score is_winning is_blocking].
  destruct (score_steps_flags b m (current_player b) (opponent_of (current_player b)) dirs
              (ScoredMove_of m 0, (0, 0))) as (H1 & H2 & H3 & H4).
  rewrite H1, H2, H3, H4. cbn [fst snd ScoredMove_of is_winning is_blocking ScoredMove_move orb].
  rewrite existsb_win_completes_five. repeat split.
Qed.

(** X9. On a board produced by the public operations on which the player
    to move is not already recorded as the winner, the winning flag of
    [score_move] is set for a legal move exactly when the move wins at
    once. *)
Theorem score_move_is_winning (b : Board) (m : Move) :
  reachable b -> get_winner b <> current_player b -> is_legal_move b m = true ->
  is_winning (score_move b m) = true <-> wins_immediately b m.
Proof.
  intros Hr Hw Hm. pose proof (reachable_inv _ Hr) as Hinv.
  destruct (is_legal_move_precondition _ _ Hinv Hm) as [Hb _].
  destruct (score_move_flags b m) as [-> _].
  unfold current_player in *. symmetry.
  apply wins_immediately_iff; auto using inv_length, inv_player.
Qed.

Lemma score_move_is_winning_witness :
  reachable four_black /\ is_legal_move four_black (MkMove 2 7) = true
  /\ wins_immediately four_black (MkMove 2 7).
Proof.
  assert (Hr : reachable four_black).
  { apply legal_sequence_reachable; [apply reach_reset | vm_compute; repeat split]. }
  split; [exact Hr |]. split; [vm_compute; reflexivity |].
  apply (proj1 (score_move_is_winning four_black (MkMove 2 7) Hr
                  ltac:(vm_compute; discriminate) ltac:(vm_compute; reflexivity))).
  vm_compute. reflexivity.
Defined.

(** Multiplying one of the sums of four line scores by the double 1.1 and
    truncating gives eleven tenths of the sum, without rounding error. *)
Lemma times_1_1_on_scores a1 a2 a3 a4 :
  In a1 score_values -> In a2 score_values -> In a3 score_values -> In a4 score_values ->
  times_1_1 (0 + a1 + a2 + a3 + a4) = (0 + a1 + a2 + a3 + a4) * 11 / 10
  /\ (0 + a1 + a2 + a3 + a4) mod 10 = 0.
Proof.
  assert (Hall : forallb (fun a1 => forallb (fun a2 => forallb (fun a3 => forallb (fun a4 =>
            (times_1_1 (0 + a1 + a2 + a3 + a4) =? (0 + a1 + a2 + a3 + a4) * 11 / 10)
            && ((0 + a1 + a2 + a3 + a4) mod 10 =? 0))
            score_values) score_values) score_values) score_values = true)
    by (vm_compute; reflexivity).
  intros H1 H2 H3 H4.
  rewrite forallb_forall in Hall. specialize (Hall a1 H1).
  rewrite forallb_forall in Hall. specialize (Hall a2 H2).
  rewrite forallb_forall in Hall. specialize (Hall a3 H3).
  rewrite forallb_forall in Hall. specialize (Hall a4 H4).
  apply andb_true_iff in Hall as [Ha Hb]. split; [now apply Z.eqb_eq | now apply Z.eqb_eq].
Qed.

(** X10. The value of [evaluate_move] is the sum of the four line scores
    of the player, plus exactly eleven tenths of the sum of the four line
    scores of the opponent (a multiple of ten, so the floating-point
    factor 1.1 and the truncation lose nothing), plus the cluster bonus. *)
Theorem evaluate_move_exact (b : Board) (m : Move) :
  evaluate_move b m
  = fst (line_sums b m (current_player b) (opponent_of (current_player b)))
    + snd (line_sums b m (current_player b) (opponent_of (current_player b))) * 11 / 10
    + cluster_bonus b m
  /\ snd (line_sums b m (current_player b) (opponent_of (current_player b))) mod 10 = 0.
Proof.
  unfold evaluate_move. cbv zeta.
  generalize (cluster_bonus b m) as cb. intros cb.
  assert (H : times_1_1 (snd (line_sums b m (current_player b) (opponent_of (current_player b))))
              = snd (line_sums b m (current_player b) (opponent_of (current_player b))) * 11 / 10
              /\ snd (line_sums b m (current_player b) (opponent_of (current_player b))) mod 10 = 0).
  { unfold line_sums, dirs. cbn [fold_left fst snd].
    apply times_1_1_on_scores; apply evaluate_line_values. }
  destruct H as [-> Hm]. split; [reflexivity | exact Hm].
Qed.

Lemma cluster_offsets_In d :
  In d cluster_offsets <-> -2 <= fst d <= 2 /\ -2 <= snd d <= 2.
Proof.
  unfold cluster_offsets. rewrite in_flat_map. split.
  - intros (dx & Hdx & Hd). apply in_map_iff in Hd as (dy & <- & Hdy).
    apply list_elem_of_In, elem_of_seqZ in Hdy, Hdx. cbn [fst snd]. lia.
  - intros [Hx Hy]. exists (fst d). split.
    + apply list_elem_of_In, elem_of_seqZ. lia.
    + apply in_map_iff. exists (snd d). split; [now destruct d |].
      apply list_elem_of_In, elem_of_seqZ. lia.
Qed.

Lemma cluster_steps_sum b m (l : list (Z * Z)) acc :
  (forall d, In d l -> -2 <= fst d <= 2 /\ -2 <= snd d <= 2) ->
  fst (fold_left (cluster_step b m) l acc) + snd (fold_left (cluster_step b m) l acc) * SCORE_SPACE
  = fst acc + snd acc * SCORE_SPACE
    + SCORE_SPACE * Z.of_nat (length (List.filter (in_window b m) l))
    + SCORE_CLUSTER * Z.of_nat (length (List.filter (adjacent_stone b m) l)).
Proof.
  revert acc. induction l as [| d l IH]; intros acc Hl; cbn [fold_left List.filter length].
  - lia.
  - rewrite IH by (intros d' Hd'; apply Hl; now right).
    destruct (Hl d ltac:(now left)) as [Hx Hy].
    unfold cluster_step, adjacent_stone, in_window, in_bounds, SCORE_SPACE, SCORE_CLUSTER.
    cbv zeta.
    destruct ((fst d =? 0) && (snd d =? 0)) eqn:E0; cbn [negb andb length]; [lia |].
    destruct ((0 <=? Move_x m + fst d) && (Move_x m + fst d <? BOARD_SIZE)
              && (0 <=? Move_y m + snd d) && (Move_y m + snd d <? BOARD_SIZE));
      cbn [negb andb length]; [| lia].
    destruct (get b (Move_x m + fst d) (Move_y m + snd d) =? EMPTY);
      cbn [negb andb length fst snd]; [lia |].
    destruct (Z.eqb_spec (Z.max (Z.abs (fst d)) (Z.abs (snd d))) 1) as [E1 | E1];
      cbn [length fst snd]; lia.
Qed.

(** X11. The cluster bonus of a move is ten points for every cell of the
    5x5 window around it that is on the board (the cell of the move
    excepted), stone or not, plus ten more for every stone next to the
    move: a stone two cells away counts like an empty cell.  It lies
    between 0 and 320. *)
Theorem cluster_bonus_formula (b : Board) (m : Move) :
  cluster_bonus b m
  = SCORE_SPACE * Z.of_nat (length (List.filter (in_window b m) cluster_offsets))
    + SCORE_CLUSTER * Z.of_nat (length (List.filter (adjacent_stone b m) cluster_offsets))
  /\ 0 <= cluster_bonus b m <= 320.
Proof.
  assert (E : cluster_bonus b m
    = SCORE_SPACE * Z.of_nat (length (List.filter (in_window b m) cluster_offsets))
      + SCORE_CLUSTER * Z.of_nat (length (List.filter (adjacent_stone b m) cluster_offsets))).
  { unfold cluster_bonus. cbv zeta.
    rewrite cluster_steps_sum by (intros d Hd; now apply cluster_offsets_In).
    cbn [fst snd]. lia. }
  split; [exact E |]. rewrite E.
  assert (Hw : (length (List.filter (in_window b m) cluster_offsets) <= 24)%nat).
  { etransitivity; [| apply (Nat.le_refl (length (List.filter
        (fun d => negb ((fst d =? 0) && (snd d =? 0))) cluster_offsets)))].
    generalize cluster_offsets as l. intros l. unfold in_window.
    induction l as [| d l IH]; cbn [List.filter]; [lia |].
    destruct (negb ((fst d =? 0) && (snd d =? 0))); cbn [andb]; [| exact IH].
    destruct (in_bounds _ _); cbn [length]; lia. }
  assert (Ha : (length (List.filter (adjacent_stone b m) cluster_offsets) <= 8)%nat).
  { etransitivity; [| apply (Nat.le_refl (length (List.filter
        (fun d => Z.max (Z.abs (fst d)) (Z.abs (snd d)) =? 1) cluster_offsets)))].
    generalize cluster_offsets as l. intros l. unfold adjacent_stone.
    induction l as [| d l IH]; cbn [List.filter]; [lia |].
    destruct (Z.max (Z.abs (fst d)) (Z.abs (snd d)) =? 1);
      [| rewrite andb_false_r; exact IH].
    destruct (_ && _ && true); cbn [length]; lia. }
  unfold SCORE_SPACE, SCORE_CLUSTER. lia.
Qed.

(** X12. [operator>] on scored moves is a strict weak ordering, as
    [std::sort] requires: it is irreflexive and transitive, and being
    ordered in neither direction is transitive too. *)
Theorem ScoredMove_gt_strict_weak_order :
  (forall a, ScoredMove_gt a a = false)
  /\ (forall a c e, ScoredMove_gt a c = true -> ScoredMove_gt c e = true ->
                    ScoredMove_gt a e = true)
  /\ (forall a c e, ScoredMove_equiv a c -> ScoredMove_equiv c e -> ScoredMove_equiv a e).
Proof.
  unfold ScoredMove_equiv, ScoredMove_gt. split; [| split].
  - intros a. rewrite !Bool.eqb_reflx. cbn [negb]. apply Z.ltb_irrefl.
  - intros a c e.
    destruct (is_winning a), (is_winning c), (is_winning e),
      (is_blocking a), (is_blocking c), (is_blocking e); cbn; try discriminate; try reflexivity;
      rewrite !Z.ltb_lt; lia.
  - intros a c e.
    destruct (is_winning a), (is_winning c), (is_winning e),
      (is_blocking a), (is_blocking c), (is_blocking e); cbn;
      rewrite ?Z.ltb_ge; intros [H1 H2] [H3 H4]; try discriminate; split; try reflexivity; lia.
Qed.

Lemma ScoredMove_gt_strict_weak_order_witness :
  ScoredMove_gt (MkScoredMove (MkMove 7 7) 10 true false)
                (MkScoredMove (MkMove 8 8) 5000 false false) = true.
Proof.
  apply (proj1 (proj2 ScoredMove_gt_strict_weak_order)
           (MkScoredMove (MkMove 7 7) 10 true false)
           (MkScoredMove (MkMove 6 6) 20 false true)
           (MkScoredMove (MkMove 8 8) 5000 false false)); reflexivity.
Defined.

End Scoring.

(* ===================================================================== *)
(** ** The forced-move scans and the flags of the scored moves *)
(* ===================================================================== *)

Section ScansAndFlags.

(** Every move [get_legal_moves] returns is valid, on any board. *)
Lemma get_legal_moves_valid b m : In m (get_legal_moves b) -> is_valid m = true.
Proof.
  unfold get_legal_moves. destruct (history_ b) as [| h0 hs].
  - intros [<- | []]. reflexivity.
  - intros Hin. apply in_map_iff in Hin as (idx & <- & Hin).
    apply filter_In in Hin as [Hin _]. apply seqZ_cells_In in Hin.
    destruct (to_xy_range _ Hin) as (Hx & Hy & _).
    rewrite Move_of_small by lia. unfold is_valid. cbn [Move_x Move_y]. lia.
Qed.

Lemma first_move_cases (test : Move -> bool) (l : list Move) (d : Move) :
  (In (first_move test l d) l /\ test (first_move test l d) = true)
  \/ (first_move test l d = d /\ forall m, In m l -> test m = false).
Proof.
  induction l as [| a l IH]; cbn [first_move]; [right; split; [reflexivity | intros m []] |].
  destruct (test a) eqn:Ea; [left; split; [now left | exact Ea] |].
  destruct IH as [[H1 H2] | [H1 H2]]; [left; split; [now right | exact H2] |].
  right. split; [exact H1 |]. intros m [<- | Hm]; [exact Ea | now apply H2].
Qed.

(** X13. On every board, [find_winning_move] returns a valid move exactly
    when [score_move] sets the winning flag for some move of
    [get_legal_moves]; the move returned is then the first move of that
    list with the flag set. *)
Theorem find_winning_move_flag (b : Board) :
  (is_valid (find_winning_move b) = true
   <-> exists m, In m (get_legal_moves b) /\ is_winning (score_move b m) = true)
  /\ (is_valid (find_winning_move b) = true ->
      exists before after,
        get_legal_moves b = before ++ find_winning_move b :: after
        /\ is_winning (score_move b (find_winning_move b)) = true
        /\ forall m, In m before -> is_winning (score_move b m) = false).
Proof.
  assert (Hflag : forall m, is_winning (score_move b m) = completes_five b (current_player b) m).
  { intros m. now destruct (score_move_flags b m) as [-> _]. }
  unfold find_winning_move.
  change (Move_of (-1) (-1)) with Move_invalid.
  pose proof (get_legal_moves_valid b) as Hvalid.
  generalize dependent (get_legal_moves b). intros l Hvalid.
  assert (Hsplit : forall l0, (forall m, In m l0 -> is_valid m = true) ->
            is_valid (first_move (completes_five b (current_player b)) l0 Move_invalid) = true ->
            exists before after,
              l0 = before ++ first_move (completes_five b (current_player b)) l0 Move_invalid :: after
              /\ completes_five b (current_player b)
                   (first_move (completes_five b (current_player b)) l0 Move_invalid) = true
              /\ forall m, In m before -> completes_five b (current_player b) m = false).
  { induction l0 as [| a l0 IH]; intros Hv; cbn [first_move]; [discriminate |].
    destruct (completes_five b (current_player b) a) eqn:Ea.
    - intros _. exists [], l0. repeat split; [exact Ea | intros m []].
    - intros Hr. destruct (IH (fun m Hm => Hv m (or_intror Hm)) Hr) as (bf & af & E & Hc & Hbf).
      exists (a :: bf), af. split; [cbn [app]; now rewrite <- E |]. split; [exact Hc |].
      intros m [<- | Hm]; [exact Ea | now apply Hbf]. }
  split.
  - split.
    + intros Hv. destruct (Hsplit l Hvalid Hv) as (bf & af & E & Hc & _).
      exists (first_move (completes_five b (current_player b)) l Move_invalid).
      split; [rewrite E at 2; apply in_or_app; right; now left | now rewrite Hflag].
    + intros (m & Hin & Hw). rewrite Hflag in Hw.
      destruct (first_move_found _ _ Move_invalid _ Hin Hw) as [H1 _]. now apply Hvalid.
  - intros Hv. destruct (Hsplit l Hvalid Hv) as (bf & af & E & Hc & Hbf).
    exists bf, af. split; [exact E |]. split; [now rewrite Hflag |].
    intros m Hm. rewrite Hflag. now apply Hbf.
Qed.

Lemma find_winning_move_flag_witness :
  is_valid (find_winning_move four_black) = true
  /\ exists m, In m (get_legal_moves four_black) /\ is_winning (score_move four_black m) = true.
Proof.
  assert (Hv : is_valid (find_winning_move four_black) = true) by (vm_compute; reflexivity).
  split; [exact Hv |].
  exact (proj1 (proj1 (find_winning_move_flag four_black)) Hv).
Defined.

(** The nested loops of the second pass, as one loop over the pairs of a
    move and a direction. *)
Lemma threat_scan_pairs b o (moves : list Move) :
  threat_scan b o moves
  = fold_left (threat_step b o)
      (flat_map (fun m => map (fun d => (m, d)) dirs) moves) (Move_of (-1) (-1), 0).
Proof.
  unfold threat_scan. generalize (Move_of (-1) (-1), 0) as acc. generalize dirs as ds.
  intros ds. induction moves as [| m moves IH]; intros acc; [reflexivity |].
  cbn [fold_left flat_map]. rewrite fold_left_app, IH. f_equal.
  clear IH. revert acc. induction ds as [| d ds IHd]; intros acc; [reflexivity |].
  cbn [fold_left map]. rewrite IHd. reflexivity.
Qed.

(** The running best of the scan: it starts at [(invalid, 0)], keeps the
    first pair with the largest threat of at least an open four. *)
Lemma threat_steps_spec b o (l : list (Move * (Z * Z))) :
  (fold_left (threat_step b o) l (Move_invalid, 0) = (Move_invalid, 0)
   /\ forall md, In md l -> threat_of b o md < SCORE_FOUR_OPEN)
  \/ (SCORE_FOUR_OPEN <= snd (fold_left (threat_step b o) l (Move_invalid, 0))
      /\ (exists md, In md l
            /\ fst (fold_left (threat_step b o) l (Move_invalid, 0)) = fst md
            /\ snd (fold_left (threat_step b o) l (Move_invalid, 0)) = threat_of b o md)
      /\ forall md, In md l ->
           threat_of b o md <= snd (fold_left (threat_step b o) l (Move_invalid, 0))).
Proof.
  induction l as [| md l IH] using rev_ind.
  - left. split; [reflexivity | intros md []].
  - rewrite fold_left_app. cbn [fold_left].
    generalize dependent (fold_left (threat_step b o) l (Move_invalid, 0)).
    intros best IH. unfold threat_step.
    destruct (Z.leb_spec SCORE_FOUR_OPEN (threat_of b o md)) as [Hk | Hk]; cbn [andb].
    + destruct (Z.ltb_spec (snd best) (threat_of b o md)) as [Hlt | Hge].
      * right. cbn [fst snd]. split; [exact Hk |]. split.
        -- exists md. split; [apply in_or_app; right; now left | split; reflexivity].
        -- intros md' Hin. apply in_app_or in Hin. destruct Hin as [Hin | [<- | []]]; [| lia].
           destruct IH as [[_ Hno] | (_ & _ & Hmax)].
           ++ specialize (Hno md' Hin). lia.
           ++ specialize (Hmax md' Hin). lia.
      * destruct IH as [[-> Hno] | (Hk' & (md0 & Hin0 & E1 & E2) & Hmax)].
        -- cbn [snd] in Hge. unfold SCORE_FOUR_OPEN in Hk. lia.
        -- right. split; [exact Hk' |]. split.
           ++ exists md0. split; [apply in_or_app; now left | now split].
           ++ intros md' Hin. apply in_app_or in Hin.
              destruct Hin as [Hin | [<- | []]]; [now apply Hmax | lia].
    + destruct IH as [[-> Hno] | (Hk' & (md0 & Hin0 & E1 & E2) & Hmax)].
      * left. split; [reflexivity |]. intros md' Hin. apply in_app_or in Hin.
        destruct Hin as [Hin | [<- | []]]; [now apply Hno | exact Hk].
      * right. split; [exact Hk' |]. split.
        -- exists md0. split; [apply in_or_app; now left | now split].
        -- intros md' Hin. apply in_app_or in Hin.
           destruct Hin as [Hin | [<- | []]]; [now apply Hmax | lia].
Qed.

Lemma pairs_In (moves : list Move) (md : Move * (Z * Z)) :
  In md (flat_map (fun m => map (fun d => (m, d)) dirs) moves)
  <-> In (fst md) moves /\ In (snd md) dirs.
Proof.
  rewrite in_flat_map. split.
  - intros (m & Hm & Hd). apply in_map_iff in Hd as (d & <- & Hd). now split.
  - intros [Hm Hd]. exists (fst md). split; [exact Hm |].
    apply in_map_iff. exists (snd md). split; [now destruct md | exact Hd].
Qed.

Lemma is_blocking_threat b m :
  is_blocking (score_move b m) = true
  <-> exists d, In d dirs
        /\ SCORE_FOUR_OPEN <= threat_of b (opponent_of (current_player b)) (m, d).
Proof.
  destruct (score_move_flags b m) as [_ ->]. rewrite existsb_exists.
  unfold threat_of. cbn [fst snd].
  split; intros (d & Hd & H); exists d; (split; [exact Hd |]); now apply Z.leb_le.
Qed.

(** X14. On every board, [find_blocking_move] returns a valid move exactly
    when [score_move] sets the blocking flag for some move of
    [get_legal_moves]; the move returned is then one of these moves.  When
    no move completes five for the opponent, the move returned carries the
    largest line threat of the opponent over all legal moves and
    directions. *)
Theorem find_blocking_move_flag (b : Board) :
  (is_valid (find_blocking_move b) = true
   <-> exists m, In m (get_legal_moves b) /\ is_blocking (score_move b m) = true)
  /\ (is_valid (find_blocking_move b) = true ->
      In (find_blocking_move b) (get_legal_moves b)
      /\ is_blocking (score_move b (find_blocking_move b)) = true)
  /\ (is_valid (find_blocking_move b) = true ->
      (forall m, In m (get_legal_moves b) ->
                 completes_five b (opponent_of (current_player b)) m = false) ->
      exists d, In d dirs /\
        forall m' d', In m' (get_legal_moves b) -> In d' dirs ->
          threat_of b (opponent_of (current_player b)) (m', d')
          <= threat_of b (opponent_of (current_player b)) (find_blocking_move b, d)).
Proof.
  pose proof (get_legal_moves_valid b) as Hvalid.
  pose proof (is_blocking_threat b) as Hblk.
  unfold find_blocking_move. cbv zeta. unfold current_player in *.
  rewrite threat_scan_pairs. change (Move_of (-1) (-1)) with Move_invalid.
  set (o := opponent_of (current_player_ b)) in *.
  generalize dependent (get_legal_moves b). intros l Hvalid.
  pose proof (threat_steps_spec b o (flat_map (fun m => map (fun d => (m, d)) dirs) l)) as Hscan.
  revert Hscan.
  generalize (fold_left (threat_step b o)
                (flat_map (fun m => map (fun d => (m, d)) dirs) l) (Move_invalid, 0)) as best.
  intros best Hscan.
  assert (Hwin_blk : forall m, completes_five b o m = true -> is_blocking (score_move b m) = true).
  { intros m Hc. apply Hblk. unfold completes_five in Hc.
    apply existsb_exists in Hc as (d & Hd & Hc). exists d. split; [exact Hd |].
    unfold threat_of. cbn [fst snd]. rewrite <- evaluate_line_win in Hc.
    apply Z.leb_le in Hc. fold o. unfold SCORE_WIN, SCORE_FOUR_OPEN in *. lia. }
  assert (Hres : is_valid (first_move (completes_five b o) l (fst best)) = true ->
            In (first_move (completes_five b o) l (fst best)) l
            /\ is_blocking (score_move b (first_move (completes_five b o) l (fst best))) = true).
  { intros Hv. destruct (first_move_cases (completes_five b o) l (fst best))
      as [[Hin Ht] | [E Hno]]; [split; [exact Hin | now apply Hwin_blk] |].
    rewrite E in *. destruct Hscan as [[-> _] | (Hk & (md & Hin & E1 & E2) & _)];
      [discriminate |].
    apply pairs_In in Hin as [Hm Hd]. rewrite E1. split; [exact Hm |].
    apply Hblk. exists (snd md). split; [exact Hd |]. fold o.
    rewrite <- surjective_pairing. lia. }
  split; [| split].
  - split.
    + intros Hv. destruct (Hres Hv) as [Hin Hb]. eexists. split; [exact Hin | exact Hb].
    + intros (m & Hin & Hb).
      destruct (first_move_cases (completes_five b o) l (fst best))
        as [[Hin' _] | [E Hno]]; [now apply Hvalid |].
      rewrite E. apply Hblk in Hb as (d & Hd & Hb). fold o in Hb.
      destruct Hscan as [[_ Hnone] | (_ & (md & Hin' & E1 & _) & _)].
      * specialize (Hnone (m, d) ltac:(apply pairs_In; now split)). lia.
      * rewrite E1. apply Hvalid. now apply pairs_In in Hin'.
  - exact Hres.
  - intros Hv Hno. rewrite (first_move_none _ _ _ Hno) in *.
    destruct Hscan as [[-> _] | (Hk & (md & Hin & E1 & E2) & Hmax)]; [discriminate |].
    apply pairs_In in Hin as [Hm Hd]. exists (snd md). split; [exact Hd |].
    intros m' d' Hm' Hd'. rewrite E1, <- surjective_pairing, <- E2.
    apply Hmax. apply pairs_In. now split.
Qed.

Lemma find_blocking_move_flag_witness :
  is_valid (find_blocking_move four_black_white_to_move) = true
  /\ In (find_blocking_move four_black_white_to_move)
        (get_legal_moves four_black_white_to_move).
Proof.
  assert (Hv : is_valid (find_blocking_move four_black_white_to_move) = true)
    by (vm_compute; reflexivity).
  split; [exact Hv |].
  exact (proj1 (proj1 (proj2 (find_blocking_move_flag four_black_white_to_move)) Hv)).
Defined.

End ScansAndFlags.

(* ===================================================================== *)
(** ** The scored move list and the two playouts *)
(* ===================================================================== *)

Section Playouts.

Lemma get_legal_moves_legal b m :
  board_inv b -> In m (get_legal_moves b) -> is_legal_move b m = true.
Proof.
  intros Hinv Hin. destruct (history_ b) as [| h0 hs] eqn:Hh.
  - unfold get_legal_moves in Hin. rewrite Hh in Hin. destruct Hin as [<- | []].
    unfold is_legal_move, is_legal. rewrite Hh.
    change (Move_x (Move_of 7 7)) with 7. change (Move_y (Move_of 7 7)) with 7.
    change (negb (in_bounds 7 7)) with false. cbv iota.
    apply is_empty_cell. apply empty_history_cells; [exact Hinv | exact Hh |].
    unfold to_index, BOARD_SIZE. lia.
  - apply is_legal_move_In; [exact Hinv | rewrite Hh; discriminate | exact Hin].
Qed.

Lemma game_position_inv b : game_position b -> board_inv b /\ board_inv_more b.
Proof.
  intros Hg. pose proof (played_reachable _ (game_position_played _ Hg)) as Hr.
  split; [now apply reachable_inv | now apply reachable_inv_more].
Qed.

(** A position of a game that is not over has a move to play. *)
Lemma game_position_moves_exist b :
  game_position b -> is_terminal b = false -> get_legal_moves b <> [].
Proof.
  intros Hg Hnt. destruct (game_position_inv _ Hg) as [_ Hmore].
  destruct Hg as [| b m Hg Hnt0 Hm]; [discriminate |].
  pose proof (make_move_history b m) as Hh.
  revert Hnt Hmore. unfold get_legal_moves, is_terminal.
  intros Hnt Hmore. destruct (history_ (make_move b m)) as [| h0 hs] eqn:Hhist;
    [now destruct (history_ b) |].
  assert (Hne : legal_mask_ (make_move b m) <> 0).
  { revert Hnt. rewrite make_move_unfold. board_fields.
    generalize (make_move_won b m) as won. intros [|]; [discriminate |].
    destruct (Z.eqb_spec (make_move_legal b m) 0); [discriminate | auto]. }
  pose proof (more_legal _ Hmore) as Hrange.
  revert Hne Hrange. generalize (legal_mask_ (make_move b m)) as lm. intros lm Hne Hrange Hnil.
  apply Hne. apply Z.bits_inj'. intros i Hi. rewrite Z.bits_0.
  destruct (Z.testbit lm i) eqn:E; [| reflexivity]. exfalso.
  assert (Hin : In i (List.filter (Z.testbit lm) (seqZ 0 BOARD_CELLS))).
  { apply filter_In. split; [apply seqZ_cells_In; now apply Hrange | exact E]. }
  destruct (List.filter (Z.testbit lm) (seqZ 0 BOARD_CELLS)); [destruct Hin | discriminate].
Qed.

Lemma score_move_move b m : ScoredMove_move (score_move b m) = m.
Proof.
  unfold score_move. cbv zeta. cbn [ScoredMove_move].
  now destruct (score_steps_flags b m (current_player b) (opponent_of (current_player b)) dirs
                  (ScoredMove_of m 0, (0, 0))) as (_ & _ & -> & _).
Qed.

Lemma playout_value_cases winner start :
  (winner = EMPTY \/ winner = BLACK \/ winner = WHITE) ->
  (start = BLACK \/ start = WHITE) ->
  (playout_value winner start = 0%Q /\ winner = EMPTY)
  \/ (playout_value winner start = (1 # 1)%Q /\ winner = start)
  \/ (playout_value winner start = (-1 # 1)%Q /\ winner = - start).
Proof.
  unfold playout_value, EMPTY, BLACK, WHITE.
  intros [-> | [-> | ->]] [-> | ->]; cbn; auto.
Qed.

Lemma get_winner_cases b :
  get_winner b = EMPTY \/ get_winner b = BLACK \/ get_winner b = WHITE.
Proof. unfold get_winner. destruct (result_ b); auto. Qed.

(** The steps of a playout: a move taken from the legal moves of a
    position of a game that is not over. *)
Lemma playout_step b m :
  game_position b -> is_terminal b = false -> In m (get_legal_moves b) ->
  game_position (make_move b m).
Proof.
  intros Hg Hnt Hin. apply game_move; [exact Hg | exact Hnt |].
  apply get_legal_moves_legal; [apply (game_position_inv _ Hg) | exact Hin].
Qed.

Lemma random_rollout_loop_game (RNG : Type) (uniform_int : RNG -> Z -> Z -> Z * RNG) :
  uniform_int_in_range uniform_int ->
  forall (n : nat) (b : Board) (rng : RNG),
    game_position b ->
    game_position (fst (random_rollout_loop RNG uniform_int n b rng))
    /\ exists ms, fst (random_rollout_loop RNG uniform_int n b rng) = make_moves b ms
         /\ (length ms <= n)%nat
         /\ (is_terminal (fst (random_rollout_loop RNG uniform_int n b rng)) = true
             \/ length ms = n).
Proof.
  intros Hrange. induction n as [| n IH]; intros b rng Hg; cbn [random_rollout_loop].
  - split; [exact Hg |]. exists []. repeat split; auto.
  - destruct (is_terminal b) eqn:Ht.
    + cbn [fst]. split; [exact Hg |]. exists []. repeat split; [cbn; lia | now left].
    + pose proof (game_position_moves_exist _ Hg Ht) as Hne.
      pose proof (playout_step b) as Hstep.
      revert Hne Hstep. generalize (get_legal_moves b) as moves. intros moves Hne Hstep.
      destruct moves as [| m0 moves']; [contradiction |].
      specialize (Hrange rng 0 (Z.of_nat (length (m0 :: moves')) - 1)
                    ltac:(cbn [length]; lia)).
      destruct (uniform_int rng 0 (Z.of_nat (length (m0 :: moves')) - 1)) as [idx rng'].
      cbn [fst] in Hrange.
      assert (Hin : In (nth (Z.to_nat idx) (m0 :: moves') Move_invalid) (m0 :: moves')).
      { apply nth_In. lia. }
      destruct (IH (make_move b (nth (Z.to_nat idx) (m0 :: moves') Move_invalid)) rng'
                  (Hstep _ Hg Ht Hin)) as (Hg' & ms & E & Hlen & Hstop).
      split; [exact Hg' |].
      exists (nth (Z.to_nat idx) (m0 :: moves') Move_invalid :: ms).
      split; [exact E |]. cbn [length]. split; [lia |].
      destruct Hstop as [Hs | Hs]; [now left | right; lia].
Qed.

Lemma heuristic_rollout_loop_game (RNG : Type) (uniform_int : RNG -> Z -> Z -> Z * RNG)
    (sort_greater : list ScoredMove -> list ScoredMove) :
  uniform_int_in_range uniform_int -> sorts_greater sort_greater ->
  forall (n : nat) (b : Board) (rng : RNG),
    game_position b ->
    game_position (fst (heuristic_rollout_loop RNG uniform_int sort_greater n b rng))
    /\ exists ms,
         fst (heuristic_rollout_loop RNG uniform_int sort_greater n b rng) = make_moves b ms
         /\ (length ms <= n)%nat
         /\ (is_terminal (fst (heuristic_rollout_loop RNG uniform_int sort_greater n b rng)) = true
             \/ length ms = n).
Proof.
  intros Hrange Hsort. induction n as [| n IH]; intros b rng Hg; cbn [heuristic_rollout_loop].
  - split; [exact Hg |]. exists []. repeat split; auto.
  - destruct (is_terminal b) eqn:Ht.
    + cbn [fst]. split; [exact Hg |]. exists []. repeat split; [cbn; lia | now left].
    + pose proof (game_position_moves_exist _ Hg Ht) as Hne.
      pose proof (playout_step b) as Hstep.
      unfold get_scored_moves.
      destruct (Hsort (map (score_move b) (get_legal_moves b))) as [Hperm _].
      revert Hperm. generalize (sort_greater (map (score_move b) (get_legal_moves b))) as sc.
      intros sc Hperm.
      assert (Hmem : forall s, In s sc -> In (ScoredMove_move s) (get_legal_moves b)).
      { intros s Hs. apply (Permutation_in _ (Permutation_sym Hperm)) in Hs.
        apply in_map_iff in Hs as (m & <- & Hm). now rewrite score_move_move. }
      destruct sc as [| s0 sc'].
      { apply Permutation_sym, Permutation_nil in Hperm.
        destruct (get_legal_moves b); [contradiction | discriminate]. }
      specialize (Hrange rng 0 (Z.min 3 (Z.of_nat (length (s0 :: sc'))) - 1)
                    ltac:(cbn [length]; lia)).
      destruct (uniform_int rng 0 (Z.min 3 (Z.of_nat (length (s0 :: sc'))) - 1)) as [idx rng'].
      cbn [fst] in Hrange.
      assert (Hin : In (nth (Z.to_nat idx) (s0 :: sc') (ScoredMove_of Move_invalid 0)) (s0 :: sc')).
      { apply nth_In. lia. }
      apply Hmem in Hin.
      destruct (IH _ rng' (Hstep _ Hg Ht Hin)) as (Hg' & ms & E & Hlen & Hstop).
      split; [exact Hg' |].
      eexists (_ :: ms).
      split; [exact E |]. cbn [length]. split; [lia |].
      destruct Hstop as [Hs | Hs]; [now left | right; lia].
Qed.

(** X15. Started on a position of a game, [random_rollout] plays a game:
    with numbers drawn in the range asked for, every move it makes is
    legal and none follows the end of the game; it stops only when the
    game is over or after exactly fifty moves; and the value is +1, -1 or
    0 as the final board records the starting player, the other player or
    nobody as the winner. *)
Theorem random_rollout_plays_a_game
    (RNG : Type) (uniform_int : RNG -> Z -> Z -> Z * RNG) (b : Board) (rng : RNG) :
  uniform_int_in_range uniform_int ->
  game_position b ->
  let value := fst (fst (random_rollout RNG uniform_int b rng)) in
  let final := snd (fst (random_rollout RNG uniform_int b rng)) in
  game_position final
  /\ (exists ms, final = make_moves b ms /\ (length ms <= 50)%nat
                 /\ (is_terminal final = true \/ length ms = 50%nat))
  /\ ((value = 0%Q /\ get_winner final = EMPTY)
      \/ (value = (1 # 1)%Q /\ get_winner final = current_player b)
      \/ (value = (-1 # 1)%Q /\ get_winner final = - current_player b)).
Proof.
  intros Hrange Hg. cbv zeta. unfold random_rollout.
  destruct (random_rollout_loop_game RNG uniform_int Hrange 50 b rng Hg) as (Hg' & Hms).
  destruct (random_rollout_loop RNG uniform_int 50 b rng) as [b' rng'].
  cbn [fst snd] in *. split; [exact Hg' |]. split; [exact Hms |].
  apply playout_value_cases; [apply get_winner_cases |].
  apply (inv_player _ (proj1 (game_position_inv _ Hg))).
Qed.

Lemma random_rollout_plays_a_game_witness :
  game_position reset
  /\ game_position (snd (fst (random_rollout unit (fun r lo _ => (lo, r)) reset tt))).
Proof.
  split; [apply game_start |].
  apply (random_rollout_plays_a_game unit (fun r lo _ => (lo, r)) reset tt).
  - intros rng lo hi H. cbn [fst]. lia.
  - apply game_start.
Defined.

Lemma ScoredMove_gt_asym a c : ScoredMove_gt a c = true -> ScoredMove_gt c a = false.
Proof.
  unfold ScoredMove_gt.
  destruct (is_winning a), (is_winning c), (is_blocking a), (is_blocking c); cbn;
    try discriminate; try reflexivity; rewrite Z.ltb_lt, Z.ltb_ge; lia.
Qed.

Lemma ScoredMove_not_gt_trans a c e :
  ScoredMove_gt c a = false -> ScoredMove_gt e c = false -> ScoredMove_gt e a = false.
Proof.
  unfold ScoredMove_gt.
  destruct (is_winning a), (is_winning c), (is_winning e),
    (is_blocking a), (is_blocking c), (is_blocking e); cbn;
    try discriminate; try reflexivity; rewrite !Z.ltb_ge; lia.
Qed.

Lemma insert_greater_perm a l : Permutation (a :: l) (insert_greater a l).
Proof.
  induction l as [| c l IH]; cbn [insert_greater]; [reflexivity |].
  destruct (ScoredMove_gt c a); [| reflexivity].
  rewrite perm_swap. now apply perm_skip.
Qed.

Lemma insert_greater_sorted a l :
  StronglySorted (fun x y => ScoredMove_gt y x = false) l ->
  StronglySorted (fun x y => ScoredMove_gt y x = false) (insert_greater a l).
Proof.
  induction 1 as [| c l Hs IH Hc]; cbn [insert_greater]; [repeat constructor |].
  destruct (ScoredMove_gt c a) eqn:E.
  - constructor; [exact IH |]. apply List.Forall_forall. intros x Hx.
    apply (Permutation_in _ (Permutation_sym (insert_greater_perm a l))) in Hx.
    destruct Hx as [<- | Hx]; [now apply ScoredMove_gt_asym |].
    rewrite List.Forall_forall in Hc. now apply Hc.
  - constructor; [now constructor |]. apply List.Forall_forall. intros x [<- | Hx]; [exact E |].
    rewrite List.Forall_forall in Hc. apply (ScoredMove_not_gt_trans _ c); [exact E | now apply Hc].
Qed.

Lemma insertion_sort_sorts : sorts_greater insertion_sort.
Proof.
  intros l. unfold insertion_sort. induction l as [| a l [IHp IHs]]; cbn [fold_right].
  - split; [reflexivity | constructor].
  - split; [| now apply insert_greater_sorted].
    etransitivity; [apply perm_skip, IHp | apply insert_greater_perm].
Qed.

(** X16. Started on a position of a game, [heuristic_rollout] plays a
    game: with [std::sort] returning a sorted permutation and the index
    drawn in the range asked for, every move it makes is one of the legal
    moves and none follows the end of the game; it stops only when the
    game is over or after exactly fifty moves; and the value is +1, -1 or
    0 as the final board records the starting player, the other player or
    nobody as the winner. *)
Theorem heuristic_rollout_plays_a_game
    (RNG : Type) (uniform_int : RNG -> Z -> Z -> Z * RNG)
    (sort_greater : list ScoredMove -> list ScoredMove) (b : Board) (rng : RNG) :
  uniform_int_in_range uniform_int -> sorts_greater sort_greater ->
  game_position b ->
  let value := fst (fst (heuristic_rollout RNG uniform_int sort_greater b rng)) in
  let final := snd (fst (heuristic_rollout RNG uniform_int sort_greater b rng)) in
  game_position final
  /\ (exists ms, final = make_moves b ms /\ (length ms <= 50)%nat
                 /\ (is_terminal final = true \/ length ms = 50%nat))
  /\ ((value = 0%Q /\ get_winner final = EMPTY)
      \/ (value = (1 # 1)%Q /\ get_winner final = current_player b)
      \/ (value = (-1 # 1)%Q /\ get_winner final = - current_player b)).
Proof.
  intros Hrange Hsort Hg. cbv zeta. unfold heuristic_rollout.
  destruct (heuristic_rollout_loop_game RNG uniform_int sort_greater Hrange Hsort 50 b rng Hg)
    as (Hg' & Hms).
  destruct (heuristic_rollout_loop RNG uniform_int sort_greater 50 b rng) as [b' rng'].
  cbn [fst snd] in *. split; [exact Hg' |]. split; [exact Hms |].
  apply playout_value_cases; [apply get_winner_cases |].
  apply (inv_player _ (proj1 (game_position_inv _ Hg))).
Qed.

Lemma heuristic_rollout_plays_a_game_witness :
  game_position reset
  /\ game_position
       (snd (fst (heuristic_rollout unit (fun r lo _ => (lo, r)) insertion_sort reset tt))).
Proof.
  split; [apply game_start |].
  apply (heuristic_rollout_plays_a_game unit (fun r lo _ => (lo, r)) insertion_sort reset tt).
  - intros rng lo hi H. cbn [fst]. lia.
  - exact insertion_sort_sorts.
  - apply game_start.
Defined.

(** X17. With [std::sort] returning a sorted permutation,
    [get_scored_moves] returns the scored legal moves, each once for each
    time the move is listed, and the flagged moves come first: the first
    entry carries the winning flag as soon as any legal move does, and
    otherwise the blocking flag as soon as any legal move does; no entry
    is greater than the first. *)
Theorem get_scored_moves_flagged_first
    (sort_greater : list ScoredMove -> list ScoredMove) (b : Board) :
  sorts_greater sort_greater ->
  Permutation (map (score_move b) (get_legal_moves b)) (get_scored_moves sort_greater b)
  /\ length (get_scored_moves sort_greater b) = length (get_legal_moves b)
  /\ forall s0 rest, get_scored_moves sort_greater b = s0 :: rest ->
       In (ScoredMove_move s0) (get_legal_moves b)
       /\ s0 = score_move b (ScoredMove_move s0)
       /\ (forall s, In s (s0 :: rest) -> ScoredMove_gt s s0 = false)
       /\ (is_winning s0 = true <->
           exists m, In m (get_legal_moves b) /\ is_winning (score_move b m) = true)
       /\ (is_winning s0 = false ->
           (is_blocking s0 = true <->
            exists m, In m (get_legal_moves b) /\ is_blocking (score_move b m) = true)).
Proof.
  intros Hsort. unfold get_scored_moves.
  destruct (Hsort (map (score_move b) (get_legal_moves b))) as [Hperm Hsorted].
  revert Hperm Hsorted.
  generalize (sort_greater (map (score_move b) (get_legal_moves b))) as sc.
  intros sc Hperm Hsorted.
  split; [exact Hperm |].
  split; [rewrite <- (Permutation_length Hperm); apply length_map |].
  intros s0 rest ->.
  assert (Hmem : forall s, In s (s0 :: rest) ->
            exists m, In m (get_legal_moves b) /\ s = score_move b m).
  { intros s Hs. apply (Permutation_in _ (Permutation_sym Hperm)) in Hs.
    apply in_map_iff in Hs as (m & <- & Hm). now exists m. }
  assert (Hin : forall m, In m (get_legal_moves b) -> In (score_move b m) (s0 :: rest)).
  { intros m Hm. apply (Permutation_in _ Hperm). now apply in_map. }
  assert (Hmax : forall s, In s (s0 :: rest) -> ScoredMove_gt s s0 = false).
  { intros s [<- | Hs].
    - unfold ScoredMove_gt. rewrite !Bool.eqb_reflx. cbn [negb]. apply Z.ltb_irrefl.
    - apply StronglySorted_inv in Hsorted as [_ Hall].
      rewrite List.Forall_forall in Hall. now apply Hall. }
  destruct (Hmem s0 (or_introl eq_refl)) as (m0 & Hm0 & E0).
  split; [rewrite E0, score_move_move; exact Hm0 |].
  split; [rewrite E0 at 2; now rewrite score_move_move |].
  split; [exact Hmax |].
  split.
  - split; [intros H; exists m0; split; [exact Hm0 | now rewrite <- E0] |].
    intros (m & Hm & Hw). specialize (Hmax _ (Hin m Hm)).
    revert Hmax. unfold ScoredMove_gt. rewrite Hw.
    destruct (is_winning s0); [reflexivity | cbn; discriminate].
  - intros Hnw. split; [intros H; exists m0; split; [exact Hm0 | now rewrite <- E0] |].
    intros (m & Hm & Hbl). specialize (Hmax _ (Hin m Hm)).
    revert Hmax. unfold ScoredMove_gt. rewrite Hbl, Hnw.
    destruct (is_winning (score_move b m)); [cbn; discriminate |].
    destruct (is_blocking s0); [reflexivity | cbn; discriminate].
Qed.

Lemma get_scored_moves_flagged_first_witness :
  length (get_scored_moves insertion_sort four_black) = length (get_legal_moves four_black).
Proof.
  exact (proj1 (proj2 (get_scored_moves_flagged_first insertion_sort four_black
                         insertion_sort_sorts))).
Defined.

End Playouts.

(* ===================================================================== *)
(** ** The choice of the search and the forced moves *)
(* ===================================================================== *)

Section SearchChoice.

(** The loop of [select_best_move], from any running best. *)
Lemma best_child_scan (l : list MCTSNode) :
  forall acc : option MCTSNode * Z,
    let r := fold_left
               (fun (acc : option MCTSNode * Z) (child : MCTSNode) =>
                  if snd acc <? visit_count child
                  then (Some child, visit_count child) else acc) l acc in
    (r = acc /\ forall c, In c l -> visit_count c <= snd acc)
    \/ (exists before c after,
          l = before ++ c :: after /\ r = (Some c, visit_count c)
          /\ snd acc < visit_count c
          /\ (forall c', In c' before -> visit_count c' < visit_count c)
          /\ (forall c', In c' after -> visit_count c' <= visit_count c)).
Proof.
  induction l as [| a l IH]; intros acc; cbv zeta; cbn [fold_left].
  - left. split; [reflexivity | intros c []].
  - destruct (Z.ltb_spec (snd acc) (visit_count a)) as [Hlt | Hge].
    + right. destruct (IH (Some a, visit_count a)) as [[E Hall] | (bf & c & af & E & Er & Hc & Hbf & Haf)].
      * exists [], a, l. cbn [snd] in Hall.
        split; [reflexivity |]. split; [exact E |]. split; [exact Hlt |].
        split; [intros c' [] | exact Hall].
      * cbn [snd] in Hc. exists (a :: bf), c, af.
        split; [cbn [app]; f_equal; exact E |]. split; [exact Er |]. split; [lia |].
        split; [| exact Haf].
        intros c' [<- | Hc']; [exact Hc | now apply Hbf].
    + destruct (IH acc) as [[E Hall] | (bf & c & af & E & Er & Hc & Hbf & Haf)].
      * left. split; [exact E |]. intros c [<- | Hc]; [exact Hge | now apply Hall].
      * right. exists (a :: bf), c, af.
        split; [cbn [app]; f_equal; exact E |]. split; [exact Er |]. split; [exact Hc |].
        split; [| exact Haf].
        intros c' [<- | Hc']; [lia | now apply Hbf].
Qed.

(** X18. When the root has children and visit counts are not negative,
    [select_best_move] returns the move of the first child whose visit
    count is the largest: every child before it has strictly fewer visits
    and no child after it has more. *)
Theorem select_best_move_most_visited (root : MCTSNode) :
  children root <> [] ->
  (forall c, In c (children root) -> 0 <= visit_count c) ->
  exists before c after,
    children root = before ++ c :: after
    /\ select_best_move root = node_move c
    /\ (forall c', In c' before -> visit_count c' < visit_count c)
    /\ (forall c', In c' after -> visit_count c' <= visit_count c).
Proof.
  intros Hne Hpos. unfold select_best_move.
  destruct (children root) as [| c0 cs] eqn:Hch; [contradiction |].
  destruct (best_child_scan (c0 :: cs) (None, -1)) as [[_ Hall] | (bf & c & af & E & Er & _ & Hbf & Haf)].
  - specialize (Hall c0 (or_introl eq_refl)). specialize (Hpos c0 (or_introl eq_refl)).
    cbn [snd] in Hall. lia.
  - cbv zeta in Er. rewrite Er. cbn [fst]. exists bf, c, af. auto.
Qed.

Lemma select_best_move_most_visited_witness :
  exists before c after,
    [MkNode (MkMove 1 1) [] [] 3 0%Q 1; MkNode (MkMove 2 2) [] [] 7 0%Q 1;
     MkNode (MkMove 3 3) [] [] 7 0%Q 1] = before ++ c :: after
    /\ select_best_move
         (MkNode Move_invalid
            [MkNode (MkMove 1 1) [] [] 3 0%Q 1; MkNode (MkMove 2 2) [] [] 7 0%Q 1;
             MkNode (MkMove 3 3) [] [] 7 0%Q 1] [] 17 0%Q 1) = node_move c
    /\ (forall c', In c' before -> visit_count c' < visit_count c)
    /\ (forall c', In c' after -> visit_count c' <= visit_count c).
Proof.
  apply (select_best_move_most_visited
           (MkNode Move_invalid
              [MkNode (MkMove 1 1) [] [] 3 0%Q 1; MkNode (MkMove 2 2) [] [] 7 0%Q 1;
               MkNode (MkMove 3 3) [] [] 7 0%Q 1] [] 17 0%Q 1)).
  - cbn [children]. discriminate.
  - cbn [children]. intros c [<- | [<- | [<- | []]]]; cbn [visit_count]; lia.
Defined.

(** X19. On a board produced by the public operations on which the game
    is not over, for every time limit, configuration and state of the
    engine: when some legal move wins at once, [search] returns a legal
    move that wins at once; when none does and the opponent has a legal
    move that would win at once, [search] returns a legal move on a cell
    where the opponent would win at once.  In both cases no iteration
    runs: the generator and the iteration counter are left as they
    were. *)
Theorem search_plays_forced_moves
    (RNG : Type) (heuristic_rollout random_rollout : Board -> RNG -> Q * RNG)
    (descend : MCTSConfig -> MCTSNode -> Board -> RNG -> MCTSNode * list nat * Board * RNG)
    (backpropagate : MCTSNode -> list nat -> Q -> Z -> MCTSNode)
    (elapsed : Z -> Z) (self : MCTS RNG) (board : Board) (time_limit_ms : Z) :
  reachable board -> is_terminal board = false ->
  let result := search RNG heuristic_rollout random_rollout descend backpropagate elapsed
                  self board time_limit_ms in
  ((exists m, is_legal_move board m = true /\ wins_immediately board m) ->
     is_legal_move board (fst result) = true
     /\ wins_immediately board (fst result)
     /\ snd result = self)
  /\ ((forall m, is_legal_move board m = true -> ~ wins_immediately board m) ->
      (exists m, is_legal_move board m = true /\ wins_immediately (opponent_to_move board) m) ->
      is_legal_move board (fst result) = true
      /\ wins_immediately (opponent_to_move board) (fst result)
      /\ snd result = self).
Proof.
  intros Hr Hnt. cbv zeta. pose proof (reachable_inv _ Hr) as Hinv.
  pose proof (inv_player _ Hinv) as Hp.
  assert (Hres : get_winner board = EMPTY).
  { unfold get_winner. now rewrite (inv_result _ Hinv Hnt). }
  assert (Hpe : current_player_ board <> EMPTY) by (destruct Hp as [-> | ->]; discriminate).
  assert (Hpo : opponent_of (current_player_ board) = BLACK
                \/ opponent_of (current_player_ board) = WHITE).
  { destruct Hp as [-> | ->]; [now right | now left]. }
  assert (Hoe : opponent_of (current_player_ board) <> EMPTY)
    by (destruct Hpo as [-> | ->]; discriminate).
  assert (Hwin : forall m, is_legal_move board m = true ->
            (wins_immediately board m <-> completes_five board (current_player_ board) m = true)).
  { intros m Hm. destruct (is_legal_move_precondition _ _ Hinv Hm) as [Hb _].
    apply wins_immediately_iff; [exact (inv_length _ Hinv) | exact Hp | | exact Hb].
    rewrite Hres. auto. }
  assert (Hopp : forall m, is_legal_move board m = true ->
            (wins_immediately (opponent_to_move board) m
             <-> completes_five board (opponent_of (current_player_ board)) m = true)).
  { intros m Hm. destruct (is_legal_move_precondition _ _ Hinv Hm) as [Hb _].
    rewrite (completes_five_same_cells board (opponent_to_move board)) by reflexivity.
    apply (wins_immediately_iff (opponent_to_move board));
      [exact (inv_length _ Hinv) | exact Hpo | | exact Hb].
    change (get_winner (opponent_to_move board)) with (get_winner board).
    rewrite Hres. cbn [current_player_ opponent_to_move]. auto. }
  unfold search. split.
  - intros (m & Hleg & Hw).
    destruct (scan_finds board (current_player_ board) (Move_of (-1) (-1)) Hinv) as [Hl Hc];
      [exists m; split; [exact Hleg | now apply Hwin] | exact Hpe |].
    fold (current_player board) in Hl, Hc. fold (find_winning_move board) in Hl, Hc.
    rewrite (in_bounds_is_valid _ (proj1 (is_legal_move_precondition _ _ Hinv Hl))).
    cbn [fst snd]. split; [exact Hl |]. split; [now apply Hwin | reflexivity].
  - intros Hno (m & Hleg & Hw).
    assert (E : find_winning_move board = Move_invalid).
    { unfold find_winning_move, current_player. apply scan_misses; [exact Hinv | | exact Hpe].
      intros m' Hm'. destruct (completes_five board (current_player_ board) m') eqn:E;
        [| reflexivity].
      exfalso. apply (Hno m' Hm'). now apply Hwin. }
    rewrite E. change (is_valid Move_invalid) with false. cbv iota.
    assert (Hblk : is_legal_move board (find_blocking_move board) = true
                   /\ completes_five board (opponent_of (current_player_ board))
                        (find_blocking_move board) = true).
    { unfold find_blocking_move, current_player. cbv zeta.
      apply scan_finds; [exact Hinv | | exact Hoe].
      exists m. split; [exact Hleg | now apply Hopp]. }
    destruct Hblk as [Hl Hc].
    rewrite (in_bounds_is_valid _ (proj1 (is_legal_move_precondition _ _ Hinv Hl))).
    cbn [fst snd]. split; [exact Hl |]. split; [now apply Hopp | reflexivity].
Qed.

Lemma search_plays_forced_moves_witness :
  reachable four_black /\ is_terminal four_black = false
  /\ wins_immediately four_black
       (fst (search unit (fun _ r => (0%Q, r)) (fun _ r => (0%Q, r))
               (fun _ n b r => (n, [], b, r)) (fun n _ _ _ => n) (fun _ => 0)
               {| config_ := MkConfig (12 # 10) 10000 1000 0 true true;
                  rng_ := tt; iterations_ := 7 |}
               four_black 1000)).
Proof.
  assert (Hr : reachable four_black).
  { apply legal_sequence_reachable; [apply reach_reset | vm_compute; repeat split]. }
  assert (Ht : is_terminal four_black = false) by (vm_compute; reflexivity).
  split; [exact Hr |]. split; [exact Ht |].
  refine (proj1 (proj2 (proj1 (search_plays_forced_moves unit (fun _ r => (0%Q, r))
            (fun _ r => (0%Q, r)) (fun _ n b r => (n, [], b, r)) (fun n _ _ _ => n)
            (fun _ => 0)
            {| config_ := MkConfig (12 # 10) 10000 1000 0 true true;
               rng_ := tt; iterations_ := 7 |}
            four_black 1000 Hr Ht) _))).
  exists (MkMove 2 7). split; [vm_compute; reflexivity |].
  apply (wins_immediately_iff four_black (MkMove 2 7));
    [vm_compute; reflexivity | left; vm_compute; reflexivity
     | vm_compute; discriminate | vm_compute; reflexivity | vm_compute; reflexivity].
Defined.

End SearchChoice.

(* ===================================================================== *)
(** ** The front end: move text, the position command, perft *)
(* ===================================================================== *)

Section FrontEnd.

Lemma Move_eqb_eq a c : Move_eqb a c = true -> a = c.
Proof.
  unfold Move_eqb. destruct a as [ax ay], c as [cx cy]. cbn [Move_x Move_y].
  intros H. apply andb_prop in H as [Hx Hy].
  apply Z.eqb_eq in Hx, Hy. now subst.
Qed.

Lemma in_bounds_cells x y :
  in_bounds x y = true -> In x (seqZ 0 BOARD_SIZE) /\ In y (seqZ 0 BOARD_SIZE).
Proof.
  intros Hb. apply in_bounds_true in Hb. unfold BOARD_SIZE in *.
  split; apply list_elem_of_In, elem_of_seqZ; lia.
Qed.

(** The text of every cell of the board parses back to the cell, in lower
    and in upper case. *)
Lemma round_trip_cells :
  forallb
    (fun x =>
       forallb
         (fun y =>
            Move_eqb (parse_move (move_to_string (MkMove x y))) (MkMove x y)
            && Move_eqb (parse_move (move_to_str (MkMove x y))) (MkMove x y))
         (seqZ 0 BOARD_SIZE))
    (seqZ 0 BOARD_SIZE) = true.
Proof. vm_compute. reflexivity. Qed.

Lemma round_trip_in_bounds m :
  in_bounds (Move_x m) (Move_y m) = true ->
  parse_move (move_to_string m) = m /\ parse_move (move_to_str m) = m.
Proof.
  intros Hb. destruct (in_bounds_cells _ _ Hb) as [Hx Hy].
  pose proof round_trip_cells as H. rewrite forallb_forall in H.
  specialize (H _ Hx). rewrite forallb_forall in H. specialize (H _ Hy).
  apply andb_prop in H as [H1 H2]. rewrite Move_eta in H1, H2.
  split; now apply Move_eqb_eq.
Qed.

(** X20. [parse_move] reads back what [move_to_string] writes: the text
    of a move on the board parses to that move, and an invalid move is
    written as "none", which parses to the invalid sentinel. *)
Theorem parse_move_of_move_to_string (m : Move) :
  (in_bounds (Move_x m) (Move_y m) = true -> parse_move (move_to_string m) = m)
  /\ (is_valid m = false ->
      move_to_string m = "none"%string /\ parse_move (move_to_string m) = Move_invalid).
Proof.
  split.
  - intros Hb. apply (round_trip_in_bounds m Hb).
  - intros Hv. unfold move_to_string. rewrite Hv. cbn [negb]. split; reflexivity.
Qed.

Lemma parse_move_of_move_to_string_witness :
  move_to_string (MkMove 7 7) = "h8"%string
  /\ parse_move (move_to_string (MkMove 7 7)) = MkMove 7 7.
Proof.
  split; [reflexivity |].
  apply (proj1 (parse_move_of_move_to_string (MkMove 7 7))). reflexivity.
Defined.

(** X21. The demo game writes its moves with an upper-case column letter;
    [parse_move] reads them back all the same: the text [move_to_str]
    gives for a move on the board parses to that move, and it differs from
    the text of [move_to_string] only in the case of the letter. *)
Theorem parse_move_of_move_to_str (m : Move) :
  in_bounds (Move_x m) (Move_y m) = true ->
  parse_move (move_to_str m) = m
  /\ lowercase (move_to_str m) = move_to_string m.
Proof.
  intros Hb. split; [apply (round_trip_in_bounds m Hb) |].
  destruct (in_bounds_cells _ _ Hb) as [Hx Hy].
  assert (H : forallb
            (fun x => forallb
               (fun y => String.eqb (lowercase (move_to_str (MkMove x y)))
                                    (move_to_string (MkMove x y)))
               (seqZ 0 BOARD_SIZE)) (seqZ 0 BOARD_SIZE) = true)
    by (vm_compute; reflexivity).
  rewrite forallb_forall in H. specialize (H _ Hx).
  rewrite forallb_forall in H. specialize (H _ Hy).
  rewrite Move_eta in H. now apply String.eqb_eq.
Qed.

Lemma parse_move_of_move_to_str_witness :
  move_to_str (MkMove 7 7) = "H8"%string
  /\ parse_move (move_to_str (MkMove 7 7)) = MkMove 7 7.
Proof.
  split; [reflexivity |].
  apply (proj1 (parse_move_of_move_to_str (MkMove 7 7) eq_refl)).
Defined.

Lemma isalpha_tolower c : isalpha c = true -> 97 <= tolower c <= 122.
Proof.
  unfold isalpha, tolower.
  destruct (Z.leb_spec 65 (code c)), (Z.leb_spec (code c) 90),
    (Z.leb_spec 97 (code c)), (Z.leb_spec (code c) 122); cbn; intros Halpha;
    try discriminate; lia.
Qed.

(** X22. The letter-number notation: a letter followed by a non-empty
    string of decimal digits parses to the move whose column is the
    position of the letter in the alphabet, upper or lower case, and whose
    row is the number less one, when the column is one of the first
    fifteen and the number lies between 1 and 15; every other such input
    yields the invalid sentinel. *)
Theorem parse_move_letter_number (c : ascii) (ds : list ascii) :
  isalpha c = true -> digit_string ds ->
  parse_move (String c (string_of_list_ascii ds))
  = if (tolower c - 97 <? 15) && (1 <=? decimal_value ds) && (decimal_value ds <=? 15)
    then MkMove (tolower c - 97) (decimal_value ds - 1)
    else Move_invalid.
Proof.
  intros Hc Hd. pose proof (isalpha_tolower _ Hc) as Hlow.
  unfold parse_move. cbn [list_ascii_of_string].
  rewrite list_ascii_of_string_of_list_ascii.
  destruct Hd as [Hne Hds]. destruct ds as [| d0 ds']; [contradiction |].
  change (length (c :: d0 :: ds') <? 2)%nat with false. cbv iota.
  rewrite Hc. cbn [skipn]. rewrite ?skipn_O.
  rewrite (stoi_digit_string (d0 :: ds')) by (split; [discriminate | exact Hds]).
  generalize (decimal_value (d0 :: ds')) as v. intros v.
  destruct (Z.leb_spec v INT_MAX) as [Hle | Hgt].
  - rewrite finish_parse_cases. unfold in_bounds, BOARD_SIZE.
    destruct (Z.leb_spec 0 (tolower c - 97)); [| lia].
    destruct (Z.ltb_spec (tolower c - 97) 15); cbn [andb]; [| reflexivity].
    destruct (Z.leb_spec 0 (v - 1)), (Z.leb_spec 1 v); try lia; cbn [andb]; [| reflexivity].
    destruct (Z.ltb_spec (v - 1) 15), (Z.leb_spec v 15); try lia; reflexivity.
  - unfold INT_MAX in Hgt.
    destruct (Z.leb_spec v 15); [lia |]. now rewrite andb_false_r.
Qed.

Lemma parse_move_letter_number_witness :
  parse_move "O15" = MkMove 14 14.
Proof.
  apply (parse_move_letter_number "O"%char (list_ascii_of_string "15")).
  - reflexivity.
  - split; [discriminate | repeat constructor].
Defined.

Lemma position_step_played b token : played b -> played (position_step b token).
Proof.
  intros Hpl. unfold position_step.
  destruct (is_valid (parse_move token)); cbn [andb]; [| exact Hpl].
  destruct (is_legal_move b (parse_move token)) eqn:Hm; [| exact Hpl].
  now apply played_move.
Qed.

Lemma position_moves_played args : forall b, played b -> played (position_moves b args).
Proof.
  unfold position_moves. induction args as [| t args IH]; intros b Hpl; [exact Hpl |].
  cbn [fold_left]. apply IH. now apply position_step_played.
Qed.

Lemma cmd_position_played b args : played b -> played (cmd_position b args).
Proof.
  intros Hpl. unfold cmd_position.
  assert (Hfinal : forall board token rest, played board ->
            played (if String.eqb token "moves" then position_moves board rest else board)).
  { intros board token rest Hb. destruct (String.eqb token "moves"); [| exact Hb].
    now apply position_moves_played. }
  destruct args as [| t rest].
  - change (String.eqb EmptyString "startpos") with false.
    change (String.eqb EmptyString "fen") with false. cbv iota. now apply Hfinal.
  - destruct (String.eqb t "startpos").
    + destruct rest as [| t' rest']; apply Hfinal; apply played_reset.
    + destruct (String.eqb t "fen").
      * destruct (skip_to_moves t rest) as [token' rest']. apply Hfinal, played_reset.
      * now apply Hfinal.
Qed.

(** X23. Whatever line of text the engine is given, its board remains a
    position reached from the empty board by moves that [is_legal]
    accepts; so it satisfies the invariants of the boards the public
    operations produce.  The same holds of the board [cmd_position]
    leaves, for every list of arguments. *)
Theorem process_command_keeps_played (board_ : Board) (input : string) :
  played board_ ->
  played (process_command board_ input)
  /\ reachable (process_command board_ input)
  /\ board_inv (process_command board_ input)
  /\ forall args, played (cmd_position board_ args).
Proof.
  intros Hpl.
  assert (H : played (process_command board_ input)).
  { unfold process_command. destruct (words input) as [| cmd args]; [exact Hpl |].
    destruct (String.eqb (lowercase cmd) "position"); [now apply cmd_position_played |].
    destruct (String.eqb (lowercase cmd) "ucinewgame"); [apply played_reset | exact Hpl]. }
  split; [exact H |]. split; [now apply played_reachable |].
  split; [now apply reachable_inv, played_reachable |].
  intros args. now apply cmd_position_played.
Qed.

Lemma process_command_keeps_played_witness :
  played (process_command reset "Position startpos moves h8 zz9 h8 i9").
Proof.
  exact (proj1 (process_command_keeps_played reset
                  "Position startpos moves h8 zz9 h8 i9" played_reset)).
Defined.

Lemma position_moves_replay ms :
  forall b, legal_sequence b ms -> position_moves b (map move_to_string ms) = make_moves b ms.
Proof.
  unfold position_moves, make_moves.
  induction ms as [| m ms IH]; intros b Hl; [reflexivity |].
  destruct Hl as [Hm Hl]. cbn [map fold_left].
  pose proof (is_legal_move_in_bounds _ _ Hm) as Hb.
  unfold position_step at 2. rewrite (proj1 (round_trip_in_bounds m Hb)).
  rewrite (in_bounds_is_valid _ Hb), Hm. cbn [andb]. now apply IH.
Qed.

(** X24. The position command replays a game: given [startpos moves]
    followed by the texts of a sequence of moves each legal when its turn
    comes, [cmd_position] leaves the board those moves produce from the
    empty board, whatever the board was before; given [moves] alone it
    plays them on the current board without resetting it. *)
Theorem cmd_position_replays (board_ : Board) (ms : list Move) :
  (legal_sequence reset ms ->
   cmd_position board_ ("startpos" :: "moves" :: map move_to_string ms)%string
   = make_moves reset ms)
  /\ (legal_sequence board_ ms ->
      cmd_position board_ ("moves"%string :: map move_to_string ms) = make_moves board_ ms).
Proof.
  split; intros Hl; unfold cmd_position.
  - change (String.eqb "startpos" "startpos") with true. cbv iota.
    change (String.eqb "moves" "moves") with true. cbv iota.
    now apply position_moves_replay.
  - change (String.eqb "moves" "startpos") with false.
    change (String.eqb "moves" "fen") with false. cbv iota.
    change (String.eqb "moves" "moves") with true. cbv iota.
    now apply position_moves_replay.
Qed.

Lemma cmd_position_replays_witness :
  legal_sequence reset four_moves
  /\ cmd_position black_won ("startpos" :: "moves" :: map move_to_string four_moves)%string
     = four_black.
Proof.
  assert (Hl : legal_sequence reset four_moves) by (vm_compute; repeat split).
  split; [exact Hl |].
  exact (proj1 (cmd_position_replays black_won four_moves) Hl).
Defined.

Lemma played_empty_history b : played b -> history_ b = [] -> b = reset.
Proof.
  destruct 1 as [| b m _ _]; [reflexivity |].
  rewrite make_move_history. now destruct (history_ b).
Qed.

(** On a position reached by play that has a stone and is not terminal,
    the fields [unmake_move] recomputes are the ones the board has. *)
Lemma undone_played b :
  played b -> history_ b <> [] -> is_terminal b = false -> undone b = b.
Proof.
  intros Hpl Hne Hnt.
  pose proof (reachable_inv _ (played_reachable _ Hpl)) as Hinv.
  pose proof (played_legal_is_rebuild b Hpl Hne) as Hl.
  pose proof (inv_result _ Hinv Hnt) as Hres. unfold is_terminal in Hnt.
  unfold undone. destruct (history_ b) as [| h0 hs] eqn:Hh; [contradiction |].
  rewrite <- Hl, <- Hnt, <- Hres, <- Hh. now destruct b.
Qed.

Lemma wrap64_add a c : wrap64 (wrap64 a + wrap64 c) = wrap64 (a + c).
Proof. unfold wrap64. now rewrite <- Z.add_mod by lia. Qed.

Lemma wrap64_idem a : wrap64 (wrap64 a) = wrap64 a.
Proof. unfold wrap64. apply Z.mod_mod. lia. Qed.

Lemma perft_spec (d : nat) :
  forall b, played b ->
    fst (perft d b) = wrap64 (Z.of_nat (length (game_sequences d b)))
    /\ (history_ b <> [] -> snd (perft d b) = b).
Proof.
  induction d as [| d IH]; intros b Hpl; [split; [reflexivity | reflexivity] |].
  cbn [perft game_sequences]. destruct (is_terminal b) eqn:Ht; [split; reflexivity |].
  pose proof (reachable_inv _ (played_reachable _ Hpl)) as Hinv.
  pose proof (get_legal_moves_legal b) as Hlegal.
  assert (Hstep : forall m, is_legal_move b m = true ->
            fst (perft d (make_move b m))
            = wrap64 (Z.of_nat (length (game_sequences d (make_move b m))))
            /\ snd (perft d (make_move b m)) = make_move b m).
  { intros m Hm. destruct (IH (make_move b m) (played_move _ _ Hpl Hm)) as [H1 H2].
    split; [exact H1 |]. apply H2. rewrite make_move_history. now destruct (history_ b). }
  destruct (history_ b) as [| h0 hs] eqn:Hh.
  - unfold get_legal_moves. rewrite Hh. cbn [fold_left flat_map snd fst].
    assert (Hm : is_legal_move b (Move_of 7 7) = true).
    { apply Hlegal; [exact Hinv |]. unfold get_legal_moves. rewrite Hh. now left. }
    destruct (Hstep _ Hm) as [H1 H2]. revert H1 H2.
    generalize (game_sequences d (make_move b (Move_of 7 7))) as seqs.
    destruct (perft d (make_move b (Move_of 7 7))) as [n b1]. cbn [fst snd].
    intros seqs -> _. split; [| intros H; now contradiction H].
    rewrite app_nil_r, length_map. change 0 with (wrap64 0) at 1.
    now rewrite wrap64_add.
  - assert (Hne : history_ b <> []) by (rewrite Hh; discriminate).
    clear Hh.
    assert (Hfold : forall l, (forall m, In m l -> is_legal_move b m = true) ->
              forall k,
                fold_left
                  (fun (acc : Z * Board) (m : Move) =>
                     let '(n, b1) := perft d (make_move (snd acc) m) in
                     (wrap64 (fst acc + n), unmake_move b1 m))
                  l (wrap64 k, b)
                = (wrap64 (k + Z.of_nat (length
                     (flat_map (fun m => map (cons m) (game_sequences d (make_move b m))) l))),
                   b)).
    { induction l as [| m l IHl]; intros Hl k; cbn [fold_left flat_map].
      - cbn [length]. now rewrite Z.add_0_r.
      - cbn [snd fst].
        assert (Hm : is_legal_move b m = true) by (apply Hl; now left).
        destruct (Hstep _ Hm) as [H1 H2]. revert H1 H2.
        destruct (perft d (make_move b m)) as [n b1]. cbn [fst snd]. intros -> ->.
        destruct (is_legal_move_precondition _ _ Hinv Hm) as [Hb He].
        rewrite (unmake_make b m Hinv Hb He), (undone_played b Hpl Hne Ht).
        rewrite wrap64_add, (IHl (fun m' Hm' => Hl m' (or_intror Hm'))).
        rewrite length_app, length_map. f_equal. f_equal. lia. }
    change (0, b) with (wrap64 0, b).
    rewrite (Hfold _ (fun m Hm => Hlegal m Hinv Hm) 0). cbn [fst snd].
    split; [reflexivity | reflexivity].
Qed.

(** X25. On a position reached by legal play, the in-place walk of
    [perft] with [make_move] and [unmake_move] counts, modulo 2^64, the
    move sequences of the given length that take each move from
    [get_legal_moves] and stop at the end of the game, and when the board
    has a stone it is handed back exactly as it was.  At depth 1 on a
    board that is not terminal the count is [count_legal_moves]. *)
Theorem perft_counts_and_restores (d : nat) (b : Board) :
  played b ->
  fst (perft d b) = wrap64 (Z.of_nat (length (game_sequences d b)))
  /\ (history_ b <> [] -> snd (perft d b) = b)
  /\ (is_terminal b = false -> fst (perft 1 b) = count_legal_moves b).
Proof.
  intros Hpl. destruct (perft_spec d b Hpl) as [H1 H2].
  split; [exact H1 |]. split; [exact H2 |].
  intros Ht. rewrite (proj1 (perft_spec 1 b Hpl)). cbn [game_sequences]. rewrite Ht.
  assert (Hlen : length (flat_map (fun m => map (cons m) [[]]) (get_legal_moves b))
                 = length (get_legal_moves b)).
  { induction (get_legal_moves b) as [| m l IHl]; [reflexivity |].
    cbn [flat_map map app length]. f_equal. exact IHl. }
  rewrite Hlen.
  assert (Hc : count_legal_moves b = Z.of_nat (length (get_legal_moves b))).
  { unfold count_legal_moves, get_legal_moves, popcount.
    destruct (history_ b); [reflexivity | now rewrite length_map]. }
  rewrite Hc. unfold wrap64. apply Z.mod_small.
  assert (Hb : (length (get_legal_moves b) <= 225)%nat).
  { unfold get_legal_moves. destruct (history_ b); [cbn; lia |].
    rewrite length_map. etransitivity; [apply List.filter_length_le |].
    rewrite length_seqZ. unfold BOARD_CELLS, BOARD_SIZE. lia. }
  lia.
Qed.

Lemma perft_counts_and_restores_witness :
  played four_black /\ snd (perft 2 four_black) = four_black.
Proof.
  assert (Hpl : played four_black).
  { unfold four_black, four_moves, make_moves. cbn [fold_left].
    repeat (apply played_move; [| vm_compute; reflexivity]). apply played_reset. }
  split; [exact Hpl |].
  apply (proj1 (proj2 (perft_counts_and_restores 2 four_black Hpl))).
  vm_compute. discriminate.
Defined.

End FrontEnd.

(* ===================================================================== *)
(** ** The text of the board and the cell indices *)
(* ===================================================================== *)

Section Display.

Ltac each_cell Hx Hy :=
  unfold BOARD_SIZE in Hx, Hy; vm_compute in Hx; vm_compute in Hy;
  repeat (destruct Hx as [<- | Hx]; [| try contradiction]);
  repeat (destruct Hy as [<- | Hy]; [| try contradiction]).

(** X26. The text [to_string] writes has 16 lines of 34 characters.  The
    cell [(x, y)] of the board is shown on line [y + 1] at column
    [3 + 2 * x], as [X] for a black stone, [O] for a white one and [.]
    otherwise; the header above it carries the letter, and the line starts
    with the number, that [move_to_str] writes for the move on that
    cell. *)
Theorem to_string_shows_cells (b : Board) (x y : Z) :
  in_bounds x y = true ->
  String.length (to_string b) = 544%nat
  /\ String.get (Z.to_nat (34 * (y + 1) + 3 + 2 * x)) (to_string b)
     = Some (if get b x y =? BLACK then "X"%char
             else if get b x y =? WHITE then "O"%char else "."%char)
  /\ (exists row,
        move_to_str (MkMove x y)
        = String (default " "%char (String.get (Z.to_nat (3 + 2 * x)) (to_string b))) row
        /\ (String.substring (Z.to_nat (34 * (y + 1))) 3 (to_string b) = (" " ++ row ++ " ")%string
            \/ String.substring (Z.to_nat (34 * (y + 1))) 3 (to_string b) = (row ++ " ")%string)).
Proof.
  intros Hb. destruct (in_bounds_cells _ _ Hb) as [Hx Hy].
  unfold to_string, get, move_to_str.
  fold (cell_char (cell_at (cells_ b) (to_index x y))).
  generalize (cell_at (cells_ b)) as cell. intros cell.
  split; [vm_compute; reflexivity |].
  each_cell Hx Hy;
    (split; [vm_compute; reflexivity |]);
    eexists; (split; [vm_compute; reflexivity |]);
    first [left; vm_compute; reflexivity | right; vm_compute; reflexivity].
Qed.

Lemma to_string_shows_cells_witness :
  String.get (Z.to_nat (34 * (7 + 1) + 3 + 2 * 3)) (to_string four_black) = Some "X"%char.
Proof.
  exact (proj1 (proj2 (to_string_shows_cells four_black 3 7 eq_refl))).
Defined.

(** X27. Cells and indices correspond one to one: [to_index] maps the
    cells of the board into [0, 225) and [to_x], [to_y] recover the cell,
    and every index below 225 is the index of the in-bounds cell
    [(to_x idx, to_y idx)]; the same holds of a [Move] built from a cell
    of the board, whose 8-bit coordinates hold the cell unchanged. *)
Theorem index_round_trip :
  (forall x y, in_bounds x y = true ->
     0 <= to_index x y < BOARD_CELLS
     /\ to_x (to_index x y) = x /\ to_y (to_index x y) = y
     /\ Move_to_index (Move_of x y) = to_index x y
     /\ is_valid (Move_of x y) = true)
  /\ (forall idx, 0 <= idx < BOARD_CELLS ->
        in_bounds (to_x idx) (to_y idx) = true
        /\ to_index (to_x idx) (to_y idx) = idx).
Proof.
  split.
  - intros x y Hb. pose proof (to_index_range _ _ Hb) as Hr.
    destruct (to_xy_of_index _ _ Hb) as [Hx Hy].
    apply in_bounds_true in Hb.
    split; [unfold BOARD_CELLS, BOARD_SIZE; lia |].
    split; [exact Hx |]. split; [exact Hy |].
    rewrite Move_of_small by lia. split; [reflexivity |].
    unfold is_valid. cbn [Move_x Move_y]. lia.
  - intros idx Hi. unfold BOARD_CELLS, BOARD_SIZE in Hi.
    destruct (to_xy_range idx ltac:(lia)) as (Hx & Hy & He).
    split; [apply in_bounds_true; lia | exact He].
Qed.

Lemma index_round_trip_witness :
  to_x (to_index 14 3) = 14 /\ to_y (to_index 14 3) = 3.
Proof.
  destruct (proj1 index_round_trip 14 3 eq_refl) as (_ & Hx & Hy & _).
  split; [exact Hx | exact Hy].
Defined.

End Display.

(* ===================================================================== *)
(** ** The classes of a line evaluation and the opening move *)
(* ===================================================================== *)

Section LineScores.

Ltac line_terms :=
  repeat match goal with
    | |- context [count_consecutive_loop ?a ?b ?c ?d ?e ?f ?g ?h] =>
        generalize (count_consecutive_loop a b c d e f g h); intro
    end;
  repeat match goal with
    | |- context [open_end ?a ?b ?c] => generalize (open_end a b c); intro
    end;
  repeat match goal with
    | |- context [count_consecutive ?a ?b ?c ?d ?e ?f] =>
        generalize (count_consecutive a b c d e f); intro
    end.

Ltac case_ifs :=
  repeat match goal with
    | |- context [if ?c then _ else _] => destruct c eqn:?
    end.

Ltac cmp_cases :=
  repeat first
    [ progress cbn [andb orb]
    | match goal with
      | |- context [?a <=? ?c] => destruct (Z.leb_spec a c); try (exfalso; lia)
      | |- context [?a <? ?c] => destruct (Z.ltb_spec a c); try (exfalso; lia)
      | |- context [?a =? ?c] => destruct (Z.eqb_spec a c); try (exfalso; lia)
      end ].

(** X28. What [evaluate_line] tells of a line through a cell, in terms of
    the two counts of consecutive stones and of the two ends: the value is
    one of the eight pattern scores; it is [SCORE_WIN] exactly when the
    counts add up to four or more; it reaches [SCORE_FOUR_OPEN], the
    threshold of the blocking flag, exactly when they add up to four or
    more or to three with both ends open; and it is 0 when no stone of the
    player adjoins the cell in that line, or when fewer than four do and
    both ends are closed. *)
Theorem evaluate_line_classes (b : Board) (x y dx dy p : Z) :
  let count_pos := count_consecutive b x y dx dy p in
  let count_neg := count_consecutive b x y (- dx) (- dy) p in
  let open_pos := open_end b (x + dx * (count_pos + 1)) (y + dy * (count_pos + 1)) in
  let open_neg := open_end b (x - dx * (count_neg + 1)) (y - dy * (count_neg + 1)) in
  In (evaluate_line b x y dx dy p) score_values
  /\ (evaluate_line b x y dx dy p = SCORE_WIN <-> 4 <= count_pos + count_neg)
  /\ (SCORE_FOUR_OPEN <= evaluate_line b x y dx dy p <->
      4 <= count_pos + count_neg
      \/ (count_pos + count_neg = 3 /\ open_pos = true /\ open_neg = true))
  /\ (count_pos + count_neg = 0 -> evaluate_line b x y dx dy p = 0)
  /\ (count_pos + count_neg < 4 -> open_pos = false -> open_neg = false ->
      evaluate_line b x y dx dy p = 0).
Proof.
  cbv zeta. split; [apply evaluate_line_values |].
  unfold evaluate_line. cbv zeta. line_terms.
  unfold SCORE_WIN, SCORE_FOUR_OPEN, SCORE_FOUR_CLOSED, SCORE_THREE_OPEN,
    SCORE_THREE_CLOSED, SCORE_TWO_OPEN, SCORE_TWO_CLOSED.
  match goal with b0 : bool, b1 : bool |- _ => destruct b0, b1 end;
    cbn [andb orb Z.add Pos.add Pos.succ];
    cmp_cases;
    (repeat split; intros; try discriminate; try lia; try intuition (discriminate || lia)).
Qed.

Lemma evaluate_line_classes_witness :
  evaluate_line four_black 2 7 1 0 BLACK = SCORE_WIN
  /\ evaluate_line four_black 7 7 0 1 BLACK = 0.
Proof.
  split.
  - apply (proj2 (proj1 (proj2 (evaluate_line_classes four_black 2 7 1 0 BLACK)))).
    vm_compute. discriminate.
  - apply (proj1 (proj2 (proj2 (proj2 (evaluate_line_classes four_black 7 7 0 1 BLACK))))).
    vm_compute. reflexivity.
Defined.

Lemma count_consecutive_empty_board b x y dx dy p :
  (forall i, 0 <= i < 225 -> cell_at (cells_ b) i = EMPTY) -> p <> EMPTY ->
  count_consecutive b x y dx dy p = 0.
Proof.
  intros Hcells Hp. unfold count_consecutive.
  rewrite count_consecutive_loop_cells.
  change (Z.to_nat BOARD_SIZE) with 15%nat. cbn [count_direction_loop].
  destruct (in_bounds (x + dx) (y + dy)) eqn:Hb; [| reflexivity].
  rewrite Hcells by now apply to_index_range.
  destruct (Z.eqb_spec EMPTY p); [congruence | reflexivity].
Qed.

Lemma evaluate_line_empty_board b x y dx dy p :
  (forall i, 0 <= i < 225 -> cell_at (cells_ b) i = EMPTY) -> p <> EMPTY ->
  evaluate_line b x y dx dy p = 0.
Proof.
  intros Hcells Hp. unfold evaluate_line. cbv zeta.
  rewrite !(count_consecutive_empty_board b _ _ _ _ p Hcells Hp).
  line_terms. case_ifs; try reflexivity; discriminate.
Qed.

(** X29. On a board with an empty history (the fresh board, or a board on
    which every move has been undone) [search] answers the centre cell H8
    at once, for every time limit, configuration and state of the engine:
    no scan finds a forced move, the centre is the only move listed, and
    no iteration runs. *)
Theorem search_opens_in_centre
    (RNG : Type) (heuristic_rollout random_rollout : Board -> RNG -> Q * RNG)
    (descend : MCTSConfig -> MCTSNode -> Board -> RNG -> MCTSNode * list nat * Board * RNG)
    (backpropagate : MCTSNode -> list nat -> Q -> Z -> MCTSNode)
    (elapsed : Z -> Z) (self : MCTS RNG) (board : Board) (time_limit_ms : Z) :
  reachable board -> history_ board = [] ->
  search RNG heuristic_rollout random_rollout descend backpropagate elapsed
    self board time_limit_ms
  = (MkMove 7 7, self)
  /\ find_winning_move board = Move_invalid
  /\ find_blocking_move board = Move_invalid.
Proof.
  intros Hr Hh. pose proof (reachable_inv _ Hr) as Hinv.
  assert (Hcells : forall i, 0 <= i < 225 -> cell_at (cells_ board) i = EMPTY).
  { intros i Hi. now apply empty_history_cells. }
  pose proof (inv_player _ Hinv) as Hp.
  assert (Hpe : current_player_ board <> EMPTY) by (destruct Hp as [-> | ->]; discriminate).
  assert (Hoe : opponent_of (current_player_ board) <> EMPTY).
  { destruct Hp as [-> | ->]; discriminate. }
  assert (Ew : find_winning_move board = Move_invalid).
  { unfold find_winning_move, current_player. apply first_move_none.
    intros m _. now apply completes_five_empty_board. }
  assert (Eb : find_blocking_move board = Move_invalid).
  { unfold find_blocking_move, current_player. cbv zeta.
    rewrite first_move_none by (intros m _; now apply completes_five_empty_board).
    rewrite threat_scan_pairs. change (Move_of (-1) (-1)) with Move_invalid.
    destruct (threat_steps_spec board (opponent_of (current_player_ board))
                (flat_map (fun m => map (fun d => (m, d)) dirs) (get_legal_moves board)))
      as [[-> _] | (Hk & (md & _ & _ & E) & _)]; [reflexivity |].
    exfalso. rewrite E in Hk. unfold threat_of in Hk.
    rewrite evaluate_line_empty_board in Hk by assumption.
    unfold SCORE_FOUR_OPEN in Hk. lia. }
  split; [| split; [exact Ew | exact Eb]].
  unfold search. rewrite Ew, Eb. change (is_valid Move_invalid) with false. cbv iota.
  unfold init_untried_moves, new_node. cbn [untried_moves].
  unfold get_legal_moves. rewrite Hh. reflexivity.
Qed.

Lemma search_opens_in_centre_witness :
  search unit (fun _ r => (0%Q, r)) (fun _ r => (0%Q, r))
    (fun _ n b r => (n, [], b, r)) (fun n _ _ _ => n) (fun _ => 0)
    {| config_ := MkConfig (12 # 10) 10000 1000 0 true true; rng_ := tt; iterations_ := 7 |}
    reset 1000
  = (MkMove 7 7,
     {| config_ := MkConfig (12 # 10) 10000 1000 0 true true; rng_ := tt; iterations_ := 7 |}).
Proof.
  apply (search_opens_in_centre unit (fun _ r => (0%Q, r)) (fun _ r => (0%Q, r))
           (fun _ n b r => (n, [], b, r)) (fun n _ _ _ => n) (fun _ => 0)
           {| config_ := MkConfig (12 # 10) 10000 1000 0 true true;
              rng_ := tt; iterations_ := 7 |}
           reset 1000 reach_reset eq_refl).
Defined.

End LineScores.
